(** * Algol instruction cache: pseudo-LRU history and cache controller

    A shallow embedding of [Core/cache_lru.py] (the combinational
    [CacheLRU] block), [Core/icache.py] (the [ICache] controller) and the
    instruction port of [Simulation/core/memory.py], with the properties
    of the specification stated and proved over them.

    Bit vectors ([modbv], [intbv]) are integers in [Z]; a bit read
    [v[i]] is [Z.testbit], a bit write [v[i] = b] sets or clears the bit,
    a slice [v[hi:lo]] is a shift and a mask.  Python lists that are
    updated in place ([expand], the RAM arrays) are lists with stdpp's
    lookup and alter. *)

From Stdlib Require Import ZArith Lia Bool String.
From stdpp Require Import base numbers list.

(** ** Bit-vector primitives of MyHDL *)

Module Bits.

(** [v[i]] for an [intbv] *)
Definition getbit (v : Z) (i : nat) : bool := Z.testbit v (Z.of_nat i).

(** [v[i] = b] for an [intbv] *)
Definition putbit (v : Z) (i : nat) (b : bool) : Z :=
  if b then Z.setbit v (Z.of_nat i) else Z.clearbit v (Z.of_nat i).

(** [v[hi:lo]]: bits [lo .. hi-1] of [v], as an unsigned number *)
Definition slice (v hi lo : Z) : Z := Z.land (Z.shiftr v lo) (Z.ones (hi - lo)).

(** [concat(a, b)] where [b] is [wb] bits wide *)
Definition concat (a b wb : Z) : Z := Z.lor (Z.shiftl a wb) b.

(** value kept by a [modbv] of [w] bits *)
Definition wrap (w v : Z) : Z := v mod 2 ^ w.

(** the one-hot vector of way [a] *)
Definition onehot (a : nat) : Z := Z.shiftl 1 (Z.of_nat a).

End Bits.

Import Bits.

(** ** [CacheLRU] ([Core/cache_lru.py]) *)

Module LRU.

Section CacheLRU.

Variable NUMWAYS : nat.

(** [expand[i][j]]; the loops only use indices below [NUMWAYS], the
    length of [expand], so the list index is always in range. *)
Definition mget (expand : list Z) (i j : nat) : bool := getbit (expand !!! i) j.

(** [expand[i][j] = b] *)
Definition mset (expand : list Z) (i j : nat) (b : bool) : list Z :=
  alter (fun row => putbit row j b) i expand.

(** One iteration of the outer loop of step 1: row [i] of the matrix. *)
Definition fill_row (current : Z) (st : list Z * nat) (i : nat) : list Z * nat :=
  let '(expand, offset) := st in
  let expand := mset expand i i true in
  let expand :=
    foldl (fun e j => mset e i j (getbit current (offset + j - i - 1)))
          expand (seq (i + 1) (NUMWAYS - (i + 1))) in
  let expand :=
    foldl (fun e j => mset e i j (negb (mget e j i))) expand (seq 0 i) in
  (expand, offset + NUMWAYS - i - 1).

(** Step 1: fill the matrix from the history vector. *)
Definition fill_matrix (current : Z) : list Z :=
  fst (foldl (fill_row current) (replicate NUMWAYS 0%Z, 0) (seq 0 NUMWAYS)).

(** The AND of row [i] (inner loop of steps 2 and 5). *)
Definition row_and (expand : list Z) (i : nat) : bool :=
  foldl (fun value j => value && mget expand i j) true (seq 0 NUMWAYS).

(** Steps 2 and 5: the vector of the ANDs of each row. *)
Definition and_rows (expand : list Z) : Z :=
  foldl (fun tmp i => putbit tmp i (row_and expand i)) 0%Z (seq 0 NUMWAYS).

(** Step 3, for one way [i] whose access bit is set: row [i] to 0, then
    column [i] to 1, the diagonal left alone. *)
Definition touch (expand : list Z) (i : nat) : list Z :=
  let expand :=
    foldl (fun e j => if negb (i =? j) then mset e i j false else e)
          expand (seq 0 NUMWAYS) in
  foldl (fun e j => if negb (i =? j) then mset e j i true else e)
        expand (seq 0 NUMWAYS).

(** Step 3: update the matrix with the access vector. *)
Definition apply_access (access : Z) (expand : list Z) : list Z :=
  foldl (fun e i => if getbit access i then touch e i else e)
        expand (seq 0 NUMWAYS).

(** One iteration of the outer loop of step 4. *)
Definition pack_row (expand : list Z) (st : Z * nat) (i : nat) : Z * nat :=
  let '(tmp1, offset) := st in
  (foldl (fun t j => putbit t (offset + j - i - 1) (mget expand i j))
         tmp1 (seq (i + 1) (NUMWAYS - (i + 1))),
   offset + NUMWAYS - i - 1).

(** Step 4: copy the upper half of the matrix back. *)
Definition pack_matrix (expand : list Z) : Z :=
  fst (foldl (pack_row expand) (0%Z, 0) (seq 0 NUMWAYS)).

(** Outputs of the block. *)
Record lru_ports := { lru_pre : Z; update : Z; lru_post : option Z }.

(** [step_1] of the branch taken when [lru_post is not None]. *)
Definition step_1_post (current access : Z) : lru_ports :=
  let expand := fill_matrix current in
  let tmp0 := and_rows expand in
  let expand := apply_access access expand in
  let tmp1 := pack_matrix expand in
  let temp := and_rows expand in
  {| lru_pre := tmp0; update := tmp1; lru_post := Some temp |}.

(** [step_1] of the branch taken when [lru_post is None]. *)
Definition step_1_nopost (current access : Z) : lru_ports :=
  let expand := fill_matrix current in
  let tmp0 := and_rows expand in
  let expand := apply_access access expand in
  let tmp1 := pack_matrix expand in
  {| lru_pre := tmp0; update := tmp1; lru_post := None |}.

(** [CacheLRU]: the generated block depends on whether the [lru_post]
    signal is given. *)
Definition CacheLRU (with_lru_post : bool) (current access : Z) : lru_ports :=
  if with_lru_post then step_1_post current access
  else step_1_nopost current access.

(** *** The encoding, as the comments of the block describe it

    Offset of row [i] in the history vector, as the loops compute it. *)
Fixpoint row_offset (i : nat) : nat :=
  match i with
  | 0 => 0
  | S k => row_offset k + NUMWAYS - k - 1
  end.

(** Position of the pair [(i, j)], [i < j], in the history vector. *)
Definition pair_index (i j : nat) : nat := row_offset i + j - i - 1.

(** The matrix that the history vector [c] stands for. *)
Definition matrix_of (c : Z) (i j : nat) : bool :=
  if decide (i = j) then true
  else if decide (i < j) then getbit c (pair_index i j)
  else negb (getbit c (pair_index j i)).

End CacheLRU.

(** Width of the history vector, [NUMWAYS*(NUMWAYS-1)/2]. *)
Definition history_width (NUMWAYS : nat) : nat := NUMWAYS * (NUMWAYS - 1) / 2.

End LRU.

(** ** [ICache] ([Core/icache.py]) *)

Module ICache.

(** Modelled from the spec: [Core/memIO.py], which declares [MemOp], is
    not among the sources.  The operation of a request is a read, a
    write or none (section 6); the controller compares it with [M_RD]
    and the memory with [M_WR]. *)
Inductive MemOp := M_RD | M_WR | M_NONE.

Definition MemOp_eqb (a b : MemOp) : bool :=
  match a, b with
  | M_RD, M_RD | M_WR, M_WR | M_NONE, M_NONE => true
  | _, _ => false
  end.

(** The parameters of [ICache]. *)
Record config := {
  ENABLE : bool;
  D_WIDTH : Z;
  BLOCK_WIDTH : Z;
  SET_WIDTH : Z;
  WAYS : Z;
  LIMIT_WIDTH : Z
}.

(** The assertions at the head of [ICache], in order: the message of the
    first one that fails, or [None] when construction goes on. *)
Definition check_parameters (c : config) : option string :=
  if negb (D_WIDTH c =? 32)%Z
  then Some "Error: Unsupported D_WIDTH. Supported values: {32}"%string
  else if negb (0 <? BLOCK_WIDTH c)%Z
  then Some "Error: BLOCK_WIDTH must be a value > 0"%string
  else if negb (0 <? SET_WIDTH c)%Z
  then Some "Error: SET_WIDTH must be a value > 0"%string
  else if negb (Z.land (WAYS c) (WAYS c - 1) =? 0)%Z
  then Some "Error: WAYS must be a power of 2"%string
  else None.

(** The constraints as the specification words them: 32-bit words, a
    block size and a number of sets that are powers of two greater than
    0, a number of ways that is a power of two and at least 2.  The block
    size is [2^BLOCK_WIDTH] bytes and there are [2^SET_WIDTH] sets. *)
Definition power_of_two (n : Z) : Prop := ∃ k, (0 ≤ k)%Z ∧ n = (2 ^ k)%Z.

Definition spec_constraints (c : config) : Prop :=
  D_WIDTH c = 32%Z ∧
  (0 ≤ BLOCK_WIDTH c)%Z ∧ power_of_two (2 ^ BLOCK_WIDTH c) ∧
  (0 < 2 ^ BLOCK_WIDTH c)%Z ∧
  (0 ≤ SET_WIDTH c)%Z ∧ power_of_two (2 ^ SET_WIDTH c) ∧
  (0 < 2 ^ SET_WIDTH c)%Z ∧
  power_of_two (WAYS c) ∧ (2 ≤ WAYS c)%Z.

Inductive ic_states := CHECK | FETCH | WAIT | FLUSH | FLUSH_LAST.

Definition ic_states_eqb (a b : ic_states) : bool :=
  match a, b with
  | CHECK, CHECK | FETCH, FETCH | WAIT, WAIT | FLUSH, FLUSH
  | FLUSH_LAST, FLUSH_LAST => true
  | _, _ => false
  end.

(** The registers of the controller (the signals written in the
    [@always(clk.posedge)] blocks). *)
Record regs := {
  state : ic_states;
  valid_q : bool;
  refill_addr : Z;
  refill_valid : bool;
  flush : bool;
  flush_addr : Z;
  flush_we : bool
}.

(** The signals that the controller reads and does not drive: reset and
    invalidate, the CPU request, the response of the memory, and the
    read data of the tag and cache RAMs. *)
Record inputs := {
  rst : bool;
  invalidate : bool;
  cpu_addr : Z;
  cpu_fcn : MemOp;
  cpu_valid : bool;
  mem_ready : bool;
  mem_rdata : Z;
  mem_fault : bool;
  tag_data_o : Z;
  data_cache : list Z
}.

(** A write port of a RAM, as the controller drives it. *)
Record ram_port := { addr : Z; data_i : Z; we : bool }.

Section Cache.

Variable c : config.

Definition ways : nat := Z.to_nat (WAYS c).
Definition WAY_WIDTH : Z := BLOCK_WIDTH c + SET_WIDTH c.
Definition TAG_WIDTH : Z := LIMIT_WIDTH c - WAY_WIDTH.
Definition TAGMEM_WAY_WIDTH : Z := TAG_WIDTH + 1.
Definition TAGMEM_WAY_VALID : Z := TAGMEM_WAY_WIDTH - 1.
Definition TAG_LRU_WIDTH : Z := Z.shiftr (WAYS c * (WAYS c - 1)) 1.
Definition TAGMEM_WIDTH : Z := TAGMEM_WAY_WIDTH * WAYS c + TAG_LRU_WIDTH.

Variable r : regs.
Variable x : inputs.

(** [tag_rport], read side *)
Definition tag_out (i : nat) : Z :=
  slice (tag_data_o x) (TAGMEM_WAY_WIDTH * (Z.of_nat i + 1))
        (TAGMEM_WAY_WIDTH * Z.of_nat i).

Definition lru_out : Z :=
  slice (tag_data_o x) TAGMEM_WIDTH (TAGMEM_WAY_WIDTH * WAYS c).

(** the tag of the request, [cpu.addr[LIMIT_WIDTH:WAY_WIDTH]] *)
Definition request_tag : Z := slice (cpu_addr x) (LIMIT_WIDTH c) WAY_WIDTH.

(** [miss_check] *)
Definition miss_w : Z :=
  foldl (fun value i =>
           putbit value i
             (negb (Z.testbit (tag_out i) TAGMEM_WAY_VALID)
              || negb (slice (tag_out i) TAG_WIDTH 0 =? request_tag)%Z))
        0%Z (seq 0 ways).

(** [miss_check_2] *)
Definition miss_w_and : bool :=
  foldl (fun value i => value && getbit miss_w i) true (seq 0 ways).

(** [miss_check_3] *)
Definition miss : bool :=
  miss_w_and && MemOp_eqb (cpu_fcn x) M_RD && negb (flush r)
  && negb (invalidate x).

(** [mem_port_assign]: the request to the backing memory *)
Definition mem_addr : Z := refill_addr r.
Definition mem_wdata : Z := 0x0BADF00D.
Definition mem_wr : Z := 0.
Definition mem_fcn : MemOp := M_RD.
Definition mem_valid : bool := refill_valid r.

(** [assignments] *)
Definition final_fetch : bool :=
  (slice (refill_addr r) (BLOCK_WIDTH c) 0
   =? slice (Z.lnot 3) (BLOCK_WIDTH c) 0)%Z
  && mem_ready x && negb mem_valid.
Definition current_lru : Z := lru_out.
Definition access_lru : Z := Z.land (Z.lnot miss_w) (Z.ones (WAYS c)).
Definition busy : bool := negb (ic_states_eqb (state r) CHECK).
Definition final_flush : bool := (flush_addr r =? 0)%Z.

(** the [CacheLRU] instance [lru_m] *)
Definition lru_m : LRU.lru_ports := LRU.CacheLRU ways true current_lru access_lru.
Definition lru_pre : Z := LRU.lru_pre lru_m.
Definition update_lru : Z := LRU.update lru_m.
Definition lru_select : Z := lru_pre.

(** [next_state_logic] *)
Definition n_state : ic_states :=
  match state r with
  | CHECK =>
      if flush r || invalidate x then FLUSH
      else if miss then FETCH
      else CHECK
  | FETCH => if final_fetch then WAIT else state r
  | FLUSH => if final_flush then FLUSH_LAST else FLUSH
  | FLUSH_LAST => WAIT
  | WAIT => CHECK
  end.

(** [fetch_fsm]: the next refill address and request *)
Definition fetch_fsm : Z * bool :=
  let n_refill_addr := refill_addr r in
  let n_refill_valid := false in
  match state r with
  | CHECK =>
      if flush r || invalidate x then (n_refill_addr, false)
      else if miss
      then (concat (slice (cpu_addr x) (LIMIT_WIDTH c) (BLOCK_WIDTH c)) 0
                   (BLOCK_WIDTH c),
            true)
      else (n_refill_addr, n_refill_valid)
  | FETCH =>
      let n_refill_valid := negb (mem_ready x) in
      if negb (refill_valid r) && mem_ready x
      then if final_fetch then (0%Z, false)
           else (wrap (LIMIT_WIDTH c)
                      (refill_addr r + slice 4 (BLOCK_WIDTH c) 0),
                 n_refill_valid)
      else (n_refill_addr, n_refill_valid)
  | _ => (n_refill_addr, n_refill_valid)
  end.

Definition n_refill_addr : Z := fetch_fsm.1.
Definition n_refill_valid : bool := fetch_fsm.2.

(** [tag_write]: the tag of each way, the history word and the write
    enable that go to the tag RAM *)
Definition tag_in (i : nat) : Z :=
  let tag := tag_out i in
  match state r with
  | CHECK =>
      if miss
      then if getbit lru_select i
           then concat 1 request_tag TAG_WIDTH
           else tag
      else tag
  | _ => tag
  end.

Definition tag_we : bool :=
  let tag_we := false in
  match state r with
  | CHECK =>
      let tag_we := if flush r || invalidate x then false else tag_we in
      if miss then true else true
  | _ => tag_we
  end.

Definition lru_in : Z :=
  match state r with
  | CHECK => if miss then lru_out else update_lru
  | _ => lru_out
  end.

(** [temp[hi:lo] = v] for an [intbv] *)
Definition set_slice (temp hi lo v : Z) : Z :=
  Z.lor (Z.land temp (Z.lnot (Z.shiftl (Z.ones (hi - lo)) lo)))
        (Z.shiftl v lo).

(** [tag_rport], write side: the read/write port of the tag RAM *)
Definition tag_rw_port : ram_port :=
  let temp :=
    foldl (fun temp i =>
             set_slice temp (TAGMEM_WAY_WIDTH * (Z.of_nat i + 1))
                       (TAGMEM_WAY_WIDTH * Z.of_nat i) (tag_in i))
          0%Z (seq 0 ways) in
  let temp := set_slice temp TAGMEM_WIDTH (TAGMEM_WAY_WIDTH * WAYS c) lru_in in
  {| addr := slice (cpu_addr x) WAY_WIDTH (BLOCK_WIDTH c);
     data_i := temp;
     we := tag_we |}.

(** [flush_next_state]: next write enable, address and flush flag *)
Definition flush_next_state : bool * Z * bool :=
  let n_flush_we := false in
  let n_flush_addr := flush_addr r in
  let n_flush := flush r in
  match state r with
  | CHECK =>
      if flush r || invalidate x
      then (true, slice (-1) (SET_WIDTH c) 0, false)
      else (n_flush_we, n_flush_addr, n_flush)
  | FLUSH =>
      (true,
       wrap (SET_WIDTH c) (flush_addr r - slice 1 (SET_WIDTH c) 0),
       n_flush)
  | FLUSH_LAST => (false, n_flush_addr, n_flush)
  | _ => (n_flush_we, n_flush_addr, invalidate x)
  end.

Definition n_flush_we : bool := flush_next_state.1.1.
Definition n_flush_addr : Z := flush_next_state.1.2.
Definition n_flush : bool := flush_next_state.2.

(** [tag_port_assign]: the flush port of the tag RAM *)
Definition tag_flush_port : ram_port :=
  {| addr := flush_addr r;
     data_i := slice 0 TAGMEM_WAY_WIDTH 0;
     we := flush_we r |}.

(** [cpu_port_assign] *)
Definition cpu_rdata : Z :=
  foldl (fun temp i => if negb (getbit miss_w i) then data_cache x !!! i
                       else temp)
        0x12345678%Z (seq 0 ways).
Definition cpu_fault : bool := mem_fault x.

(** [cpu_ready_assign] *)
Definition cpu_ready : bool :=
  if busy then false
  else if MemOp_eqb (cpu_fcn x) M_RD then valid_q r && negb miss_w_and
  else false.

(** [cache_mem_r]: the read port of the cache RAM of way [i] *)
Definition cache_read_port (i : nat) : ram_port :=
  {| addr := slice (cpu_addr x) WAY_WIDTH 2;
     data_i := 0xAABBCCDD;
     we := false |}.

(** [cache_mem_update]: the update port of the cache RAM of way [i] *)
Definition cache_update_port (i : nat) : ram_port :=
  {| addr := slice (refill_addr r) WAY_WIDTH 2;
     data_i := mem_rdata x;
     we := getbit lru_select i && mem_ready x |}.

(** The clocked blocks [update_state], [reg_read], [update_fetch] and
    [update_flush]: the registers after the clock edge. *)
Definition clock : regs :=
  if rst x
  then {| state := FLUSH; valid_q := false;
          refill_addr := 0; refill_valid := false;
          flush := false; flush_addr := slice (-1) (SET_WIDTH c) 0;
          flush_we := false |}
  else {| state := n_state; valid_q := cpu_valid x;
          refill_addr := n_refill_addr; refill_valid := n_refill_valid;
          flush := n_flush; flush_addr := n_flush_addr;
          flush_we := n_flush_we |}.

End Cache.

(** The registers after [n] cycles under the inputs [xs 0], [xs 1], ... *)
Fixpoint run (c : config) (xs : nat → inputs) (n : nat) (r : regs) : regs :=
  match n with
  | 0 => r
  | S k => clock c (run c xs k r) (xs k)
  end.

(** The entry of way [i] in a line of the tag RAM, as [tag_rport] cuts
    it out. *)
Definition way_entry (c : config) (line : Z) (i : nat) : Z :=
  slice line (TAGMEM_WAY_WIDTH c * (Z.of_nat i + 1))
        (TAGMEM_WAY_WIDTH c * Z.of_nat i).

(** The cycles in which a refill completes: the last beat of [FETCH],
    and [WAIT]. *)
Definition refill_complete (c : config) (r : regs) (x : inputs) : bool :=
  match state r with
  | FETCH => final_fetch c r x
  | WAIT => true
  | _ => false
  end.

(** [ICache]: the cache, or the bypass when [ENABLE] is false
    ([no_cache] forwards the response of the memory to the CPU). *)
Definition ICache_cpu_ready (c : config) (r : regs) (x : inputs) : bool :=
  if ENABLE c then cpu_ready c r x else mem_ready x.

End ICache.

(** ** The RAM blocks *)

Module RAM.

(** Modelled from the spec: [Core/ram_dp.py] ([RAM_DP], [RAMIOPort]) is
    not among the sources.  The tag store and the data arrays are
    word-addressable storage written by the controller (sections 2 and
    3): at the clock edge a port whose write enable is high stores its
    data at its address.  How the read data follow the address is left
    open; the controller model takes them as inputs. *)
Definition write (ram : list Z) (p : ICache.ram_port) : list Z :=
  if ICache.we p then <[Z.to_nat (ICache.addr p) := ICache.data_i p]> ram
  else ram.

(** A dual-port RAM at the clock edge: port A, then port B. *)
Definition RAM_DP (ram : list Z) (portA portB : ICache.ram_port) : list Z :=
  write (write ram portA) portB.

(** The tag RAM [tag_mem] at the clock edge. *)
Definition tag_mem_clock (c : ICache.config) (r : ICache.regs)
    (x : ICache.inputs) (tag_mem : list Z) : list Z :=
  RAM_DP tag_mem (ICache.tag_rw_port c r x) (ICache.tag_flush_port c r).

End RAM.

(** ** The instruction port of [Memory] ([Simulation/core/memory.py]) *)

Module Memory.

Import ICache.

(** The request side of a [MemPortIO]. *)
Record request := {
  req_addr : Z; req_wdata : Z; req_wr : Z; req_fcn : MemOp; req_valid : bool
}.

(** [imem.ready], [imem.fault], [i_data_o] and the words of [_memory]. *)
Record mem_state := {
  imem_ready : bool;
  imem_fault : bool;
  i_data_o : Z;
  _memory : list Z
}.

(** The assertions at the head of [Memory.__init__], in order: the
    message of the first one that fails, or [None] when construction
    goes on.  [SIZE] and [BYTES_X_LINE] are integers and [HEX] is a
    string by their types here; [isfile] is the answer of
    [os.path.isfile(HEX)]. *)
Definition check_parameters (SIZE BYTES_X_LINE : Z) (HEX : string)
    (isfile : bool) : option string :=
  if negb (2 ^ 12 <=? SIZE)%Z
  then Some "Memory depth must be a positive number. Min value= 4 KB."%string
  else if negb (Z.land SIZE (SIZE - 1) =? 0)%Z
  then Some "Memory size must be a power of 2"%string
  else if negb (0 <? BYTES_X_LINE)%Z
  then Some "Number of bytes por line must be a positive number"%string
  else if negb (Z.land BYTES_X_LINE (BYTES_X_LINE - 1) =? 0)%Z
  then Some "Number of bytes por line must be a power of 2"%string
  else if negb (negb (String.length HEX =? 0))
  then Some "Please, indicate a valid name for the bin file."%string
  else if negb isfile
  then Some "HEX file does not exist. Please, indicate a valid name"%string
  else None.

Section Imem.

(** [self.aw], the address width of the memory *)
Variable aw : Z.

(** [assignment_addr] *)
Definition _imem_addr (q : request) : nat := Z.to_nat (slice (req_addr q) aw 2).

(** [assignment_data_o] *)
Definition imem_rdata (m : mem_state) : Z :=
  if imem_ready m then i_data_o m else 0xDEADF00D.

(** The byte lanes that [imem_rtl] stores on a write. *)
Definition store_word (q : request) (old : Z) : Z :=
  let lane (k : nat) (hi lo : Z) :=
    if getbit (req_wr q) k && req_valid q then slice (req_wdata q) hi lo
    else slice old hi lo in
  concat (concat (concat (lane 0 8%Z 0%Z) (lane 1 16%Z 8%Z) 8%Z) (lane 2 24%Z 16%Z) 8%Z)
         (lane 3 32%Z 24%Z) 8%Z.

(** [set_ready_signal], [set_fault] and [imem_rtl] at the clock edge. *)
Definition clock (rst : bool) (m : mem_state) (q : request) : mem_state :=
  let word := _memory m !!! _imem_addr q in
  {| imem_ready := if rst then false else req_valid q;
     imem_fault := false;
     i_data_o := if MemOp_eqb (req_fcn q) M_WR then req_wdata q else word;
     _memory := if MemOp_eqb (req_fcn q) M_WR
                then <[_imem_addr q := store_word q word]> (_memory m)
                else _memory m |}.

End Imem.

End Memory.

(** ** The cache with its data arrays and the memory behind it *)

Module System.

Import ICache.

(** What comes from outside in a cycle: reset and invalidate, the CPU
    request, and the read data of the tag and cache RAMs. *)
Record stimulus := {
  s_rst : bool;
  s_invalidate : bool;
  s_cpu_addr : Z;
  s_cpu_fcn : MemOp;
  s_cpu_valid : bool;
  s_tag_data_o : Z;
  s_data_cache : list Z
}.

(** The controller, the memory and the data array of each way. *)
Record system := {
  ctl : regs;
  mem : Memory.mem_state;
  cache_mem : list (list Z)
}.

Section Wiring.

Variable c : config.
Variable aw : Z.

(** The inputs of the controller in a cycle. *)
Definition inputs_of (s : system) (e : stimulus) : inputs :=
  {| rst := s_rst e;
     invalidate := s_invalidate e;
     cpu_addr := s_cpu_addr e;
     cpu_fcn := s_cpu_fcn e;
     cpu_valid := s_cpu_valid e;
     mem_ready := Memory.imem_ready (mem s);
     mem_rdata := Memory.imem_rdata (mem s);
     mem_fault := Memory.imem_fault (mem s);
     tag_data_o := s_tag_data_o e;
     data_cache := s_data_cache e |}.

(** The request that [mem_port_assign] puts on the memory port. *)
Definition request_of (r : regs) : Memory.request :=
  {| Memory.req_addr := mem_addr r;
     Memory.req_wdata := mem_wdata;
     Memory.req_wr := mem_wr;
     Memory.req_fcn := mem_fcn;
     Memory.req_valid := mem_valid r |}.

(** One clock edge of the whole. *)
Definition step (s : system) (e : stimulus) : system :=
  let x := inputs_of s e in
  {| ctl := clock c (ctl s) x;
     mem := Memory.clock aw (s_rst e) (mem s) (request_of (ctl s));
     cache_mem :=
       imap (fun i ram =>
               RAM.RAM_DP ram (cache_read_port c x i)
                          (cache_update_port c (ctl s) x i))
            (cache_mem s) |}.

(** The state after [n] cycles under the stimuli [e 0], [e 1], ... *)
Fixpoint run (e : nat → stimulus) (n : nat) (s : system) : system :=
  match n with
  | 0 => s
  | S k => step (run e k s) (e k)
  end.



End Wiring.

End System.

(** ** The refill of a line *)

Module Refill.

Import ICache System.

Section Line.

Variable c : config.
Variable aw : Z.

(** Words of 4 bytes in a block of [2^BLOCK_WIDTH] bytes. *)
Definition words_per_line : nat := Z.to_nat (2 ^ (BLOCK_WIDTH c - 2)).

(** The missed address with the block offset zeroed, as [fetch_fsm]
    forms it. *)
Definition line_base (a : Z) : Z :=
  concat (slice a (LIMIT_WIDTH c) (BLOCK_WIDTH c)) 0 (BLOCK_WIDTH c).

(** The address of word [k] of the line. *)
Definition word_addr (a : Z) (k : nat) : Z := (line_base a + 4 * Z.of_nat k)%Z.

(** Where [cache_mem_update] stores the word of address [a]. *)
Definition ram_index (a : Z) : nat := Z.to_nat (slice a (WAY_WIDTH c) 2).

(** The index of the first word of the line of [a] in a data array. *)
Definition ram_base (a : Z) : nat :=
  Z.to_nat (2 ^ (BLOCK_WIDTH c - 2)
            * (slice a (LIMIT_WIDTH c) (BLOCK_WIDTH c) mod 2 ^ SET_WIDTH c)).

(** Where the memory keeps the word of address [a]. *)
Definition mem_index (a : Z) : nat := Z.to_nat (slice a aw 2).

(** A data array after the first [k] words of the line of [a] were
    stored from the memory [M]. *)
Definition filled (M : list Z) (a : Z) (k : nat) (ram : list Z) : list Z :=
  foldl (fun ram j => <[ram_index (word_addr a j) := M !!! mem_index (word_addr a j)]> ram)
        ram (seq 0 k).

(** The data arrays of all ways then, the ways of [sel] being filled. *)
Definition arrays (M : list Z) (a : Z) (sel : Z) (k : nat)
    (rams : list (list Z)) : list (list Z) :=
  imap (fun i ram => if getbit sel i then filled M a k ram else ram) rams.

(** A point of the refill of word [k]: the controller state, the refill
    address and request, the answer of the memory, and the arrays with
    [done] words stored. *)
Definition phase (M : list Z) (a sel : Z) (rams : list (list Z))
    (st : ic_states) (k : nat) (addr : Z) (valid ready : bool) (done : nat)
    (s : system) : Prop :=
  state (ctl s) = st ∧
  refill_addr (ctl s) = addr ∧
  refill_valid (ctl s) = valid ∧
  Memory.imem_ready (mem s) = ready ∧
  (ready = true → Memory.i_data_o (mem s) = M !!! mem_index (word_addr a k)) ∧
  Memory._memory (mem s) = M ∧
  cache_mem s = arrays M a sel done rams.

End Line.

End Refill.

(** ** Histories and the order they encode *)

(** The history word that the controller stores after an access. *)
Definition next_history (W : nat) (h access : Z) : Z :=
  LRU.update (LRU.CacheLRU W true h access).

(** Access vectors the block is meant for: no access, or one way. *)
Definition one_hot_or_zero (W : nat) (access : Z) : Prop :=
  access = 0%Z ∨ ∃ w, w < W ∧ access = onehot w.

(** History words the controller can hold: the reset word, and what the
    block makes of them. *)
Inductive reachable (W : nat) : Z → Prop :=
  | reach_reset : reachable W 0
  | reach_access h access :
      reachable W h → one_hot_or_zero W access →
      reachable W (next_history W h access).

(** [older W h i j]: in the expanded matrix of [h], way [i] is older
    than way [j]. *)
Definition older (W : nat) (h : Z) (i j : nat) : Prop :=
  i ≠ j ∧ LRU.mget (LRU.fill_matrix W h) i j = true.

Record strict_total_order (W : nat) (R : nat → nat → Prop) : Prop := {
  sto_irrefl : ∀ i, i < W → ¬ R i i;
  sto_asym : ∀ i j, i < W → j < W → R i j → ¬ R j i;
  sto_trans : ∀ i j k, i < W → j < W → k < W → R i j → R j k → R i k;
  sto_total : ∀ i j, i < W → j < W → i ≠ j → R i j ∨ R j i
}.

Record history_invariant (W : nat) (h : Z) : Prop := {
  inv_diag : ∀ i, i < W → LRU.mget (LRU.fill_matrix W h) i i = true;
  inv_mirror : ∀ i j, i < W → j < W → i ≠ j →
    LRU.mget (LRU.fill_matrix W h) i j =
    negb (LRU.mget (LRU.fill_matrix W h) j i);
  inv_order : strict_total_order W (older W h)
}.

(** The history after the ways of [accs] were accessed in order, from
    the reset word. *)
Definition run_accesses (W : nat) (accs : list nat) : Z :=
  foldl (fun h a => next_history W h (onehot a)) 0%Z accs.

(** The reading of the specification: the evict mask is the one-hot
    vector of a way that is not among the accessed ones. *)
Definition selects_absent_way (W : nat) (accs : list nat) : Prop :=
  ∃ w, w < W ∧ (w ∉ accs) ∧
       LRU.lru_pre (LRU.CacheLRU W true (run_accesses W accs) 0) = onehot w.

(** Time of the last access of each way: [stamps t n accs] gives the
    times after the accesses [accs], made at times [n], [n+1], ...,
    to ways whose times were [t]. *)
Fixpoint stamps (t : nat → Z) (n : Z) (accs : list nat) : nat → Z :=
  match accs with
  | [] => t
  | a :: l => stamps (fun i => if decide (i = a) then n else t i) (n + 1) l
  end.

(** [h] orders the ways as the times [t] do: [i] is older than [j] when
    its last access is earlier. *)
Definition ordered_by (W : nat) (h : Z) (t : nat → Z) : Prop :=
  ∀ i j, i < W → j < W → i ≠ j →
         LRU.matrix_of W h i j = bool_decide (t i < t j)%Z.

(** Transitivity of the expanded matrix; with the shape of the matrix
    it makes the order strict and total. *)
Definition transitive_matrix (W : nat) (h : Z) : Prop :=
  ∀ i j k, i < W → j < W → k < W → i ≠ j → j ≠ k → i ≠ k →
           LRU.matrix_of W h i j = true → LRU.matrix_of W h j k = true →
           LRU.matrix_of W h i k = true.

(** ** The controller claims as the specification words them *)

(** The ready signal of the specification: the registered valid, no
    overall miss, not busy. *)
Definition spec_ready (c : ICache.config) (r : ICache.regs) (x : ICache.inputs) : bool :=
  ICache.valid_q r && negb (ICache.miss c r x) && negb (ICache.busy r).

(** The same with the AND of the per-way miss bits for the miss. *)
Definition spec_ready_ways (c : ICache.config) (r : ICache.regs) (x : ICache.inputs) : bool :=
  ICache.valid_q r && negb (ICache.miss_w_and c x) && negb (ICache.busy r).

(** The default parameters of [ICache]. *)
Definition default_config : ICache.config :=
  {| ICache.ENABLE := true; ICache.D_WIDTH := 32; ICache.BLOCK_WIDTH := 5;
     ICache.SET_WIDTH := 9; ICache.WAYS := 2; ICache.LIMIT_WIDTH := 32 |}.

(** Registers and inputs at rest, to build examples from. *)
Definition idle_regs : ICache.regs :=
  {| ICache.state := ICache.CHECK; ICache.valid_q := false;
     ICache.refill_addr := 0; ICache.refill_valid := false;
     ICache.flush := false; ICache.flush_addr := 0;
     ICache.flush_we := false |}.

Definition idle_inputs : ICache.inputs :=
  {| ICache.rst := false; ICache.invalidate := false;
     ICache.cpu_addr := 0; ICache.cpu_fcn := ICache.M_RD;
     ICache.cpu_valid := false; ICache.mem_ready := false;
     ICache.mem_rdata := 0; ICache.mem_fault := false;
     ICache.tag_data_o := 0; ICache.data_cache := [] |}.

(** A served request pending ([valid_q]) in [CHECK]. *)
Definition pending_regs : ICache.regs :=
  {| ICache.state := ICache.CHECK; ICache.valid_q := true;
     ICache.refill_addr := 0; ICache.refill_valid := false;
     ICache.flush := false; ICache.flush_addr := 0;
     ICache.flush_we := false |}.

(** A write request to address 0 while way 0 of the set holds a valid
    line with tag 0 (bit 18 is the valid bit of way 0). *)
Definition write_hit_inputs : ICache.inputs :=
  {| ICache.rst := false; ICache.invalidate := false;
     ICache.cpu_addr := 0; ICache.cpu_fcn := ICache.M_WR;
     ICache.cpu_valid := true; ICache.mem_ready := false;
     ICache.mem_rdata := 0; ICache.mem_fault := false;
     ICache.tag_data_o := 2 ^ 18; ICache.data_cache := [0%Z; 0%Z] |}.


Definition invalidate_inputs : ICache.inputs :=
  {| ICache.rst := false; ICache.invalidate := true;
     ICache.cpu_addr := 0; ICache.cpu_fcn := ICache.M_RD;
     ICache.cpu_valid := false; ICache.mem_ready := false;
     ICache.mem_rdata := 0; ICache.mem_fault := false;
     ICache.tag_data_o := 0; ICache.data_cache := [0%Z; 0%Z] |}.

(** A read request to address 0 while way 0 of the set holds a valid
    line with tag 0, the data arrays answering [0xAA] and [0xBB]. *)
Definition read_hit_inputs : ICache.inputs :=
  {| ICache.rst := false; ICache.invalidate := false;
     ICache.cpu_addr := 0; ICache.cpu_fcn := ICache.M_RD;
     ICache.cpu_valid := true; ICache.mem_ready := false;
     ICache.mem_rdata := 0; ICache.mem_fault := false;
     ICache.tag_data_o := 2 ^ 18; ICache.data_cache := [0xAA; 0xBB]%Z |}.


(** Reset asserted, nothing else. *)
Definition reset_inputs : ICache.inputs :=
  {| ICache.rst := true; ICache.invalidate := false;
     ICache.cpu_addr := 0; ICache.cpu_fcn := ICache.M_RD;
     ICache.cpu_valid := false; ICache.mem_ready := false;
     ICache.mem_rdata := 0; ICache.mem_fault := false;
     ICache.tag_data_o := 0; ICache.data_cache := [0%Z; 0%Z] |}.

(** A block of one byte, and a direct-mapped cache. *)
Definition one_byte_block_config : ICache.config :=
  {| ICache.ENABLE := true; ICache.D_WIDTH := 32; ICache.BLOCK_WIDTH := 0;
     ICache.SET_WIDTH := 9; ICache.WAYS := 2; ICache.LIMIT_WIDTH := 32 |}.

Definition one_way_config : ICache.config :=
  {| ICache.ENABLE := true; ICache.D_WIDTH := 32; ICache.BLOCK_WIDTH := 5;
     ICache.SET_WIDTH := 9; ICache.WAYS := 1; ICache.LIMIT_WIDTH := 32 |}.

(** The tag discipline of the specification: a tag entry changes on the
    read/write port only when a refill completes. *)
Definition tags_written_at_refill_completion (c : ICache.config) : Prop :=
  ∀ r x i, i < ICache.ways c → ICache.tag_we c r x = true →
           ICache.tag_in c r x i ≠ ICache.tag_out c x i →
           ICache.refill_complete c r x = true.

(** A small cache (blocks of 8 bytes, 2 sets, 2 ways, 8-bit addresses)
    behind a memory of 4 KB whose word [i] holds [1000 + i], with a read
    of address 8 that misses. *)
Definition small_config : ICache.config :=
  {| ICache.ENABLE := true; ICache.D_WIDTH := 32; ICache.BLOCK_WIDTH := 3;
     ICache.SET_WIDTH := 1; ICache.WAYS := 2; ICache.LIMIT_WIDTH := 8 |}.

Definition small_stimuli (t : nat) : System.stimulus :=
  {| System.s_rst := false; System.s_invalidate := false;
     System.s_cpu_addr := 8; System.s_cpu_fcn := ICache.M_RD;
     System.s_cpu_valid := true; System.s_tag_data_o := 0;
     System.s_data_cache := [0%Z; 0%Z] |}.

Definition small_system : System.system :=
  {| System.ctl := idle_regs;
     System.mem :=
       {| Memory.imem_ready := false; Memory.imem_fault := false;
          Memory.i_data_o := 0;
          Memory._memory := (fun i => (1000 + i)%Z) <$> seqZ 0 1024 |};
     System.cache_mem := [replicate 4 0%Z; replicate 4 0%Z] |}.




(** ** More about the history *)

(** A matrix as step 1 builds them and step 3 keeps them: one row per
    way, ones on the diagonal, the lower half the complement of the
    upper half. *)
Definition proper_matrix (W : nat) (e : list Z) : Prop :=
  length e = W ∧
  (∀ i, i < W → LRU.mget e i i = true) ∧
  (∀ i j, i < W → j < W → i ≠ j → LRU.mget e i j = negb (LRU.mget e j i)).

(** The ways whose bit is set in [access], accessed one after the other
    in the order of their numbers. *)
Definition sequential_accesses (W : nat) (h access : Z) : Z :=
  foldl (fun h i => if getbit access i then next_history W h (onehot i) else h)
        h (seq 0 W).

(** ** More about the memory *)

(** A 32-bit word with its four bytes in reverse order. *)
Definition byte_reverse (v : Z) : Z :=
  (v mod 2 ^ 8 * 2 ^ 24 + v / 2 ^ 8 mod 2 ^ 8 * 2 ^ 16
   + v / 2 ^ 16 mod 2 ^ 8 * 2 ^ 8 + v / 2 ^ 24 mod 2 ^ 8)%Z.

(** A write of [0x11223344] to word 1 with all byte lanes enabled, and a
    read of the same word. *)
Definition write_request : Memory.request :=
  {| Memory.req_addr := 4; Memory.req_wdata := 0x11223344;
     Memory.req_wr := 15; Memory.req_fcn := ICache.M_WR;
     Memory.req_valid := true |}.

Definition read_request : Memory.request :=
  {| Memory.req_addr := 4; Memory.req_wdata := 0;
     Memory.req_wr := 0; Memory.req_fcn := ICache.M_RD;
     Memory.req_valid := true |}.

Definition blank_memory : Memory.mem_state :=
  {| Memory.imem_ready := false; Memory.imem_fault := false;
     Memory.i_data_o := 0; Memory._memory := [0; 0; 0; 0]%Z |}.

(** ** The immediate generator [IMMGen] ([Core/imm_gen.py]) *)

Module IMMGen.

(** [concat] of one-bit values, the first one on top. *)
Definition concat_bits (l : list bool) : Z :=
  foldl (fun acc b => concat acc (Z.b2z b) 1) 0%Z l.

Section Select.

(** The codes [Consts.IMM_S], ... of the immediate types.  The block
    only compares [sel] with them; [Core/consts.py], which gives them
    their values, is not among the sources, so they are parameters. *)
Variables IMM_S IMM_SB IMM_U IMM_UJ IMM_I IMM_Z : Z.

Variable sel : Z.
Variable instruction : Z.

(** [_sign] *)
Definition sign : bool :=
  if (sel =? IMM_Z)%Z then false else Z.testbit instruction 31.

(** [rtl] *)
Definition b30_20 : Z :=
  if (sel =? IMM_U)%Z then slice instruction 31 20
  else concat_bits [sign; sign; sign; sign; sign; sign; sign; sign; sign;
                    sign; sign].

Definition b19_12 : Z :=
  if (sel =? IMM_U)%Z || (sel =? IMM_UJ)%Z then slice instruction 20 12
  else concat_bits [sign; sign; sign; sign; sign; sign; sign; sign].

Definition b11 : bool :=
  if (sel =? IMM_U)%Z || (sel =? IMM_Z)%Z then false
  else if (sel =? IMM_UJ)%Z then Z.testbit instruction 20
  else if (sel =? IMM_SB)%Z then Z.testbit instruction 7
  else sign.

Definition b10_5 : Z :=
  if (sel =? IMM_U)%Z || (sel =? IMM_Z)%Z then 0%Z
  else slice instruction 31 25.

Definition b4_1 : Z :=
  if (sel =? IMM_U)%Z then 0%Z
  else if (sel =? IMM_S)%Z || (sel =? IMM_SB)%Z then slice instruction 12 8
  else if (sel =? IMM_Z)%Z then slice instruction 20 16
  else slice instruction 25 21.

Definition b0 : bool :=
  if (sel =? IMM_S)%Z then Z.testbit instruction 7
  else if (sel =? IMM_I)%Z then Z.testbit instruction 20
  else if (sel =? IMM_Z)%Z then Z.testbit instruction 15
  else false.

(** [imm_concat] *)
Definition imm : Z :=
  concat (concat (concat (concat (concat (concat (Z.b2z sign) b30_20 11)
                                         b19_12 8)
                                 (Z.b2z b11) 1)
                         b10_5 6)
                 b4_1 4)
         (Z.b2z b0) 1.

End Select.

End IMMGen.

(** The codes 0 to 5 for the immediate types, to build examples from. *)
Definition example_imm (sel instruction : Z) : Z :=
  IMMGen.imm 0 1 2 3 4 5 sel instruction.

(** * Properties *)

(** Case analysis on the [decide]s of a goal, closing what arithmetic and
    equalities close. *)
Ltac split_cases :=
  repeat case_decide; destruct_and?; subst; try done; try lia;
  try (exfalso; intuition (congruence || lia)).

(** ** Bit-level facts *)

Section BitFacts.

Lemma getbit_putbit v i b j :
  getbit (putbit v i b) j = if decide (i = j) then b else getbit v j.
Proof.
  unfold getbit, putbit. destruct b.
  - rewrite Z.setbit_eqb by lia. case_decide as E.
    + subst. by rewrite Z.eqb_refl.
    + by replace (Z.of_nat i =? Z.of_nat j)%Z with false
        by (symmetry; apply Z.eqb_neq; lia).
  - rewrite Z.clearbit_eqb. case_decide as E.
    + subst. rewrite Z.eqb_refl. apply andb_false_r.
    + replace (Z.of_nat i =? Z.of_nat j)%Z with false
        by (symmetry; apply Z.eqb_neq; lia).
      apply andb_true_r.
Qed.

Lemma getbit_zero i : getbit 0 i = false.
Proof. apply Z.testbit_0_l. Qed.

Lemma getbit_onehot a i : getbit (onehot a) i = bool_decide (a = i).
Proof.
  unfold getbit, onehot. rewrite Z.shiftl_1_l, Z.pow2_bits_eqb by lia.
  case_bool_decide as E.
  - subst. apply Z.eqb_refl.
  - apply Z.eqb_neq. lia.
Qed.

Lemma getbit_ext a b : (∀ i, getbit a i = getbit b i) → a = b.
Proof.
  intros H. apply Z.bits_inj'. intros n Hn.
  specialize (H (Z.to_nat n)). unfold getbit in H.
  by rewrite Z2Nat.id in H.
Qed.

Lemma getbit_small v w i :
  (0 ≤ v < 2 ^ Z.of_nat w)%Z → w ≤ i → getbit v i = false.
Proof.
  intros [H0 H1] Hi. unfold getbit.
  destruct (decide (v = 0%Z)) as [->|Hv]; [apply Z.testbit_0_l|].
  apply Z.bits_above_log2; [done|].
  assert (Z.log2 v < Z.of_nat w)%Z by (apply Z.log2_lt_pow2; lia). lia.
Qed.


Lemma testbit_slice v hi lo n :
  (0 ≤ lo ≤ hi)%Z → (0 ≤ n)%Z →
  Z.testbit (slice v hi lo) n = Z.testbit v (n + lo) && (n <? hi - lo)%Z.
Proof.
  intros Hlo Hn. unfold slice.
  by rewrite Z.land_spec, Z.shiftr_spec, Z.testbit_ones_nonneg by lia.
Qed.

Lemma slice_range v hi lo :
  (0 ≤ lo ≤ hi)%Z → (0 ≤ slice v hi lo < 2 ^ (hi - lo))%Z.
Proof.
  intros H. unfold slice. rewrite Z.land_ones by lia.
  apply Z.mod_pos_bound. apply Z.pow_pos_nonneg; lia.
Qed.

Lemma slice_div_mod v hi lo :
  (0 ≤ lo ≤ hi)%Z → slice v hi lo = ((v / 2 ^ lo) mod 2 ^ (hi - lo))%Z.
Proof.
  intros H. unfold slice.
  by rewrite Z.land_ones, Z.shiftr_div_pow2 by lia.
Qed.

Lemma slice_zero hi lo : slice 0 hi lo = 0%Z.
Proof. unfold slice. by rewrite Z.shiftr_0_l, Z.land_0_l. Qed.

Lemma testbit_small v w n :
  (0 ≤ v < 2 ^ w)%Z → (w ≤ n)%Z → Z.testbit v n = false.
Proof.
  intros [H0 H1] Hn.
  destruct (decide (v = 0%Z)) as [->|Hv]; [apply Z.testbit_0_l|].
  apply Z.bits_above_log2; [done|].
  assert (0 ≤ w)%Z.
  { destruct (decide (0 ≤ w)%Z); [done|].
    rewrite Z.pow_neg_r in H1 by lia. lia. }
  assert (Z.log2 v < w)%Z by (apply Z.log2_lt_pow2; lia). lia.
Qed.

Lemma testbit_concat a b wb n :
  (0 ≤ wb)%Z → (0 ≤ n)%Z →
  Z.testbit (concat a b wb) n = Z.testbit a (n - wb) || Z.testbit b n.
Proof.
  intros Hw Hn. unfold concat. by rewrite Z.lor_spec, Z.shiftl_spec by lia.
Qed.

End BitFacts.

(** ** The matrix of [CacheLRU] *)

Section MatrixFacts.

Import LRU.

Variable W : nat.

Lemma length_mset e i j b : length (mset e i j b) = length e.
Proof. apply length_alter. Qed.

Lemma mget_mset e i j b i' j' :
  mget (mset e i j b) i' j' =
  if decide (i' = i ∧ j' = j ∧ i < length e) then b else mget e i' j'.
Proof.
  unfold mget, mset. rewrite list_lookup_total_alter.
  destruct (decide (i = i' ∧ i < length e)) as [[-> Hl]|Hn].
  - rewrite getbit_putbit. split_cases.
  - split_cases.
Qed.

(** Writing the bits [g j] into the columns [a .. a+n-1] of row [i]. *)
Lemma foldl_row_write (g : nat → bool) i a n e :
  i < length e →
  let e' := foldl (fun e j => mset e i j (g j)) e (seq a n) in
  length e' = length e ∧
  ∀ i' j', mget e' i' j' =
           if decide (i' = i ∧ a ≤ j' < a + n) then g j' else mget e i' j'.
Proof.
  intros Hi. induction n as [|n [IHl IH]].
  - simpl. split; [done|]. intros. case_decide; [lia|done].
  - rewrite seq_S, foldl_snoc. split; [by rewrite length_mset|].
    intros i' j'. rewrite mget_mset, IH, IHl.
    split_cases.
Qed.

(** The mirror loop of step 1: below the diagonal, row [i] receives the
    complement of column [i] of the rows above. *)
Lemma foldl_row_mirror i n e :
  i < length e → n ≤ i →
  let e' := foldl (fun e j => mset e i j (negb (mget e j i))) e (seq 0 n) in
  length e' = length e ∧
  ∀ i' j', mget e' i' j' =
           if decide (i' = i ∧ j' < n) then negb (mget e j' i) else mget e i' j'.
Proof.
  intros Hi Hn. induction n as [|n IHn].
  - simpl. split; [done|]. intros. case_decide; [lia|done].
  - destruct IHn as [IHl IH]; [lia|].
    rewrite seq_S, foldl_snoc. split; [by rewrite length_mset|].
    intros i' j'. simpl. rewrite mget_mset, !IH, IHl.
    split_cases.
Qed.

Lemma fill_row_spec c e off i :
  length e = W → i < W →
  let st := fill_row W c (e, off) i in
  length st.1 = W ∧ st.2 = off + W - i - 1 ∧
  ∀ i' j', mget st.1 i' j' =
    if decide (i' = i)
    then if decide (j' = i) then true
         else if decide (i < j' < W) then getbit c (off + j' - i - 1)
         else if decide (j' < i) then negb (mget e j' i)
         else mget e i' j'
    else mget e i' j'.
Proof.
  intros Hl Hi. unfold fill_row.
  set (e1 := mset e i i true).
  assert (Hl1 : length e1 = W) by (unfold e1; by rewrite length_mset).
  destruct (foldl_row_write (fun j => getbit c (off + j - i - 1)) i (i + 1)
              (W - (i + 1)) e1) as [Hl2 H2]; [lia|].
  set (e2 := foldl _ e1 _) in *.
  destruct (foldl_row_mirror i i e2) as [Hl3 H3]; [lia|lia|].
  set (e3 := foldl _ e2 _) in *. simpl.
  split; [lia|]. split; [done|]. intros i' j'.
  rewrite H3, !H2. unfold e1. rewrite !mget_mset.
  repeat case_decide; try done; try lia; naive_solver lia.
Qed.

Lemma fill_rows_spec c k :
  k ≤ W →
  let st := foldl (fill_row W c) (replicate W 0%Z, 0) (seq 0 k) in
  length st.1 = W ∧ st.2 = row_offset W k ∧
  ∀ i j, i < k → j < W → mget st.1 i j = matrix_of W c i j.
Proof.
  induction k as [|k IHk]; intros Hk.
  - simpl. split; [apply length_replicate|]. split; [done|]. intros; lia.
  - destruct IHk as (IHl & IHo & IH); [lia|].
    rewrite seq_S, foldl_snoc. change (0 + k) with k.
    destruct (foldl (fill_row W c) (replicate W 0%Z, 0) (seq 0 k)) as [e off].
    cbn [fst snd] in IHl, IHo, IH. subst off.
    destruct (fill_row_spec c e (row_offset W k) k) as (Hl & Ho & H); [done|lia|].
    split; [done|]. split; [rewrite Ho; simpl; lia|].
    intros i j Hi Hj. rewrite H. unfold matrix_of, pair_index.
    destruct (decide (i = k)) as [->|Hne].
    + repeat case_decide; try done; try lia.
      rewrite IH by lia. unfold matrix_of, pair_index.
      repeat case_decide; try done; lia.
    + rewrite IH by lia. done.
Qed.

(** Step 1 builds the matrix that the history vector stands for. *)
Lemma fill_matrix_spec c i j :
  i < W → j < W → mget (fill_matrix W c) i j = matrix_of W c i j.
Proof.
  intros. unfold fill_matrix. by apply (fill_rows_spec c W).
Qed.

Lemma length_fill_matrix c : length (fill_matrix W c) = W.
Proof. unfold fill_matrix. by apply (fill_rows_spec c W). Qed.

(** *** Steps 2 and 5 *)

Lemma foldl_andb (f : nat → bool) n b :
  foldl (fun value j => value && f j) b (seq 0 n) = true ↔
  b = true ∧ ∀ j, j < n → f j = true.
Proof.
  induction n as [|n IH].
  - simpl. split; [intros; split; [done|intros; lia]|by intros [? _]].
  - rewrite seq_S, foldl_snoc, andb_true_iff, IH. simpl. split.
    + intros [[Hb Hn] Hf]. split; [done|]. intros j Hj.
      destruct (decide (j = n)) as [->|]; [done|]. apply Hn. lia.
    + intros [Hb Hf]. split; [split; [done|]|]; intros; apply Hf; lia.
Qed.

Lemma row_and_true e i :
  row_and W e i = true ↔ ∀ j, j < W → mget e i j = true.
Proof.
  unfold row_and. rewrite foldl_andb. split; [by intros [_ H]|done].
Qed.

(** Writing the bits [g j] at the positions [pos j], [a ≤ j < a+n]. *)
Lemma foldl_putbit (pos : nat → nat) (g : nat → bool) a n t :
  (∀ j j', a ≤ j < a + n → a ≤ j' < a + n → pos j = pos j' → j = j') →
  let t' := foldl (fun t j => putbit t (pos j) (g j)) t (seq a n) in
  (∀ j, a ≤ j < a + n → getbit t' (pos j) = g j) ∧
  (∀ k, (∀ j, a ≤ j < a + n → pos j ≠ k) → getbit t' k = getbit t k).
Proof.
  induction n as [|n IHn]; intros Hinj.
  - simpl. split; [intros; lia|done].
  - destruct IHn as [IH1 IH2]; [intros; apply Hinj; lia|].
    rewrite seq_S, foldl_snoc. simpl. split.
    + intros j Hj. rewrite getbit_putbit. case_decide as E.
      * apply Hinj in E; [by subst|lia|lia].
      * apply IH1. destruct (decide (j = a + n)); [by subst|lia].
    + intros k Hk. rewrite getbit_putbit. case_decide as E.
      * exfalso. apply (Hk (a + n)); [lia|done].
      * apply IH2. intros; apply Hk; lia.
Qed.

Lemma and_rows_spec e i :
  getbit (and_rows W e) i = if decide (i < W) then row_and W e i else false.
Proof.
  unfold and_rows.
  destruct (foldl_putbit (fun i => i) (row_and W e) 0 W 0) as [H1 H2]; [done|].
  case_decide.
  - apply H1. lia.
  - rewrite H2; [apply getbit_zero|]. intros; lia.
Qed.

(** *** Step 3 *)

Lemma touch_clear_row i n e :
  i < length e →
  let e' := foldl (fun e j => if negb (i =? j) then mset e i j false else e)
                  e (seq 0 n) in
  length e' = length e ∧
  ∀ i' j', mget e' i' j' =
           if decide (i' = i ∧ j' < n ∧ j' ≠ i) then false else mget e i' j'.
Proof.
  intros Hi. induction n as [|n [IHl IH]].
  - simpl. split; [done|]. intros. case_decide; [lia|done].
  - rewrite seq_S, foldl_snoc. simpl.
    destruct (Nat.eqb_spec i n) as [->|Hne]; simpl.
    + split; [done|]. intros. rewrite IH. split_cases.
    + split; [by rewrite length_mset|]. intros.
      rewrite mget_mset, IH, IHl. split_cases.
Qed.

Lemma touch_set_column i n e :
  n ≤ length e →
  let e' := foldl (fun e j => if negb (i =? j) then mset e j i true else e)
                  e (seq 0 n) in
  length e' = length e ∧
  ∀ i' j', mget e' i' j' =
           if decide (j' = i ∧ i' < n ∧ i' ≠ i) then true else mget e i' j'.
Proof.
  intros Hn. induction n as [|n IHn].
  - simpl. split; [done|]. intros. case_decide; [lia|done].
  - destruct IHn as [IHl IH]; [lia|].
    rewrite seq_S, foldl_snoc. simpl.
    destruct (Nat.eqb_spec i n) as [->|Hne]; simpl.
    + split; [done|]. intros. rewrite IH. split_cases.
    + split; [by rewrite length_mset|]. intros.
      rewrite mget_mset, IH, IHl. split_cases.
Qed.

(** An access to way [a] makes it the youngest: its row is cleared, its
    column is set, and the diagonal stays. *)
Lemma touch_spec e a i j :
  length e = W → a < W → i < W → j < W →
  mget (touch W e a) i j =
  if decide (i = j) then mget e i j
  else if decide (i = a) then false
  else if decide (j = a) then true
  else mget e i j.
Proof.
  intros Hl Ha Hi Hj. unfold touch.
  destruct (touch_clear_row a W e) as [Hl1 H1]; [lia|].
  set (e1 := foldl _ e _) in *.
  destruct (touch_set_column a W e1) as [Hl2 H2]; [lia|].
  rewrite H2, H1. split_cases.
Qed.

Lemma length_touch e a : length e = W → a < W → length (touch W e a) = W.
Proof.
  intros Hl Ha. unfold touch.
  destruct (touch_clear_row a W e) as [Hl1 H1]; [lia|].
  set (e1 := foldl _ e _) in *.
  destruct (touch_set_column a W e1) as [Hl2 H2]; [lia|]. lia.
Qed.

Lemma apply_access_none access e l :
  (∀ i, i ∈ l → getbit access i = false) →
  foldl (fun e i => if getbit access i then touch W e i else e) e l = e.
Proof.
  revert e. induction l as [|x l IH]; intros e H; [done|].
  simpl. rewrite H by (by left). apply IH. intros; apply H. by right.
Qed.

(** The all-zero access vector leaves the matrix as it is. *)
Lemma apply_access_zero e : apply_access W 0 e = e.
Proof. apply apply_access_none. intros; apply getbit_zero. Qed.

(** A one-hot access vector touches exactly its way. *)
Lemma apply_access_onehot e a :
  a < W → apply_access W (onehot a) e = touch W e a.
Proof.
  intros Ha. unfold apply_access.
  replace W with (a + S (W - S a)) at 1 by lia.
  rewrite seq_app, foldl_app. simpl.
  rewrite (apply_access_none _ e (seq 0 a)).
  2:{ intros i Hi. apply elem_of_seq in Hi. rewrite getbit_onehot.
      apply bool_decide_eq_false. lia. }
  rewrite getbit_onehot, bool_decide_eq_true_2 by done.
  apply apply_access_none.
  intros i Hi. apply elem_of_seq in Hi. rewrite getbit_onehot.
  apply bool_decide_eq_false. lia.
Qed.

(** *** Step 4 and the layout of the history vector *)

Lemma row_offset_S k :
  k < W → row_offset W (S k) = row_offset W k + (W - k - 1).
Proof. intros. simpl. lia. Qed.

Lemma row_offset_le i r : i ≤ r → r ≤ W → row_offset W i ≤ row_offset W r.
Proof.
  induction r as [|r IH]; intros Hi Hr.
  - by replace i with 0 by lia.
  - destruct (decide (i = S r)) as [->|]; [done|].
    rewrite row_offset_S by lia. etrans; [apply IH; lia|lia].
Qed.

Lemma pair_index_lt i j :
  i < j → j < W → pair_index W i j < row_offset W (S i).
Proof. intros. unfold pair_index. rewrite row_offset_S by lia. lia. Qed.

Lemma pair_index_ge i j : i < j → row_offset W i ≤ pair_index W i j.
Proof. intros. unfold pair_index. lia. Qed.

(** Every position of the history vector is the position of a pair. *)
Lemma pair_index_surj r k :
  r ≤ W → k < row_offset W r →
  ∃ i j, i < r ∧ i < j ∧ j < W ∧ k = pair_index W i j.
Proof.
  induction r as [|r IH]; intros Hr Hk; [simpl in Hk; lia|].
  rewrite row_offset_S in Hk by lia.
  destruct (decide (k < row_offset W r)) as [Hlt|Hge].
  - destruct IH as (i & j & ? & ? & ? & ?); [lia|done|].
    exists i, j. repeat split; [lia|done..].
  - exists r, (k - row_offset W r + r + 1). unfold pair_index.
    repeat split; lia.
Qed.

Lemma row_offset_closed r :
  r ≤ W → 2 * row_offset W r + r * (r + 1) = 2 * r * W.
Proof.
  induction r as [|r IH]; intros Hr; [done|].
  rewrite row_offset_S by lia. specialize (IH ltac:(lia)). nia.
Qed.

Lemma history_width_row_offset : history_width W = row_offset W W.
Proof.
  unfold history_width. pose proof (row_offset_closed W ltac:(lia)) as H.
  assert (W * (W - 1) = 2 * row_offset W W) as -> by nia.
  rewrite Nat.mul_comm. by rewrite Nat.div_mul.
Qed.

Lemma pack_rows_spec e r :
  r ≤ W →
  let st := foldl (pack_row W e) (0%Z, 0) (seq 0 r) in
  st.2 = row_offset W r ∧
  (∀ i j, i < r → i < j → j < W →
          getbit st.1 (pair_index W i j) = mget e i j) ∧
  (∀ k, row_offset W r ≤ k → getbit st.1 k = false).
Proof.
  induction r as [|r IHr]; intros Hr.
  - simpl. split; [done|]. split; [intros; lia|]. intros; apply getbit_zero.
  - destruct IHr as (IHo & IH1 & IH2); [lia|].
    rewrite seq_S, foldl_snoc. change (0 + r) with r.
    destruct (foldl (pack_row W e) (0%Z, 0) (seq 0 r)) as [t off].
    cbn [fst snd] in IHo, IH1, IH2. subst off. unfold pack_row.
    destruct (foldl_putbit (fun j => row_offset W r + j - r - 1)
                (fun j => mget e r j) (r + 1) (W - (r + 1)) t) as [H1 H2].
    { intros; lia. }
    cbn [fst snd]. split; [rewrite row_offset_S by lia; lia|]. split.
    + intros i j Hi Hij Hj. destruct (decide (i = r)) as [->|Hne].
      * unfold pair_index. apply H1. lia.
      * rewrite H2; [apply IH1; lia|].
        intros j' Hj'. pose proof (pair_index_lt i j Hij Hj).
        pose proof (row_offset_le (S i) r ltac:(lia) ltac:(lia)). lia.
    + intros k Hk. rewrite row_offset_S in Hk by lia.
      rewrite H2; [apply IH2; lia|]. intros; lia.
Qed.

(** Step 4 stores the upper half of the matrix, and nothing else. *)
Lemma pack_matrix_spec e i j :
  i < j → j < W → getbit (pack_matrix W e) (pair_index W i j) = mget e i j.
Proof.
  intros. unfold pack_matrix.
  destruct (pack_rows_spec e W) as (_ & H1 & _); [done|]. apply H1; lia.
Qed.

Lemma pack_matrix_high e k :
  row_offset W W ≤ k → getbit (pack_matrix W e) k = false.
Proof.
  intros. unfold pack_matrix.
  destruct (pack_rows_spec e W) as (_ & _ & H2); [done|]. by apply H2.
Qed.

(** Packing the matrix of a history vector gives the vector back. *)
Lemma pack_fill c :
  (0 ≤ c < 2 ^ Z.of_nat (history_width W))%Z →
  pack_matrix W (fill_matrix W c) = c.
Proof.
  intros Hc. apply getbit_ext. intros k.
  destruct (decide (k < row_offset W W)) as [Hk|Hk].
  - destruct (pair_index_surj W k) as (i & j & Hi & Hij & Hj & ->); [done..|].
    rewrite pack_matrix_spec, fill_matrix_spec by lia.
    unfold matrix_of. split_cases.
  - rewrite pack_matrix_high by lia. symmetry.
    eapply getbit_small; [done|]. rewrite history_width_row_offset. lia.
Qed.

(** The matrix of a history vector has ones on the diagonal and is the
    complement of its mirror image elsewhere, whatever the vector. *)
Lemma matrix_of_diag c i : matrix_of W c i i = true.
Proof. unfold matrix_of. split_cases. Qed.

Lemma matrix_of_mirror c i j :
  i ≠ j → matrix_of W c i j = negb (matrix_of W c j i).
Proof.
  intros. unfold matrix_of. split_cases. by rewrite negb_involutive.
Qed.

(** The matrix of the updated history, for an access to way [a]. *)
Lemma matrix_of_update c a i j :
  a < W → i < W → j < W → i ≠ j →
  matrix_of W (pack_matrix W (touch W (fill_matrix W c) a)) i j =
  if decide (i = a) then false
  else if decide (j = a) then true
  else matrix_of W c i j.
Proof.
  intros Ha Hi Hj Hij.
  pose proof (length_fill_matrix c) as Hl.
  destruct (decide (i < j)) as [Hlt|Hge].
  - unfold matrix_of at 1. rewrite decide_False, decide_True by done.
    rewrite pack_matrix_spec, touch_spec, fill_matrix_spec by lia.
    split_cases.
  - unfold matrix_of at 1. rewrite decide_False, decide_False by done.
    rewrite pack_matrix_spec, touch_spec, fill_matrix_spec by lia.
    rewrite (matrix_of_mirror c i j) by done. split_cases.
Qed.

End MatrixFacts.

(** ** The history invariant *)

Section HistoryInvariant.

Import LRU.

Variable W : nat.

Lemma invariant_of_transitive h : transitive_matrix W h → history_invariant W h.
Proof.
  intros Ht. split.
  - intros i Hi. rewrite fill_matrix_spec by done. apply matrix_of_diag.
  - intros i j Hi Hj Hij. rewrite !fill_matrix_spec by done.
    by apply matrix_of_mirror.
  - split.
    + intros i Hi [Hne _]. done.
    + intros i j Hi Hj [Hne H1] [_ H2].
      rewrite fill_matrix_spec in H1, H2 by done.
      rewrite (matrix_of_mirror W h i j) in H1 by done.
      rewrite H2 in H1. done.
    + intros i j k Hi Hj Hk [Hij H1] [Hjk H2].
      rewrite fill_matrix_spec in H1, H2 by done.
      assert (i ≠ k) as Hik.
      { intros ->. rewrite (matrix_of_mirror W h k j) in H1 by done.
        rewrite H2 in H1. done. }
      split; [done|]. rewrite fill_matrix_spec by done. eauto.
    + intros i j Hi Hj Hij. unfold older. rewrite !fill_matrix_spec by done.
      rewrite (matrix_of_mirror W h j i) by done.
      destruct (matrix_of W h i j); [left|right]; done.
Qed.

Lemma transitive_of_invariant h : history_invariant W h → transitive_matrix W h.
Proof.
  intros [_ _ [_ _ Htr _]] i j k Hi Hj Hk Hij Hjk Hik H1 H2.
  destruct (Htr i j k Hi Hj Hk) as [_ H]; try (split; [done|]).
  - by rewrite fill_matrix_spec.
  - by rewrite fill_matrix_spec.
  - by rewrite fill_matrix_spec in H.
Qed.

Lemma next_history_zero h :
  next_history W h 0 = pack_matrix W (fill_matrix W h).
Proof.
  unfold next_history, CacheLRU, step_1_post. simpl.
  by rewrite apply_access_zero.
Qed.

Lemma next_history_onehot h a :
  a < W →
  next_history W h (onehot a) = pack_matrix W (touch W (fill_matrix W h) a).
Proof.
  intros. unfold next_history, CacheLRU, step_1_post. simpl.
  by rewrite apply_access_onehot.
Qed.

Lemma matrix_of_noop h i j :
  i < W → j < W →
  matrix_of W (pack_matrix W (fill_matrix W h)) i j = matrix_of W h i j.
Proof.
  intros Hi Hj. unfold matrix_of at 1.
  destruct (decide (i = j)) as [->|Hij]; [by rewrite matrix_of_diag|].
  case_decide.
  - by rewrite pack_matrix_spec, fill_matrix_spec by lia.
  - rewrite pack_matrix_spec, fill_matrix_spec by lia.
    symmetry. by apply matrix_of_mirror.
Qed.

Lemma transitive_reset : transitive_matrix W 0.
Proof.
  intros i j k Hi Hj Hk Hij Hjk Hik. unfold matrix_of.
  rewrite !getbit_zero. split_cases.
Qed.

Lemma transitive_next h access :
  one_hot_or_zero W access → transitive_matrix W h →
  transitive_matrix W (next_history W h access).
Proof.
  intros [->|(a & Ha & ->)] Ht i j k Hi Hj Hk Hij Hjk Hik.
  - rewrite next_history_zero, !matrix_of_noop by done. by apply Ht.
  - rewrite next_history_onehot, !matrix_of_update by done.
    specialize (Ht i j k Hi Hj Hk Hij Hjk Hik). split_cases.
Qed.

Lemma reachable_transitive h : reachable W h → transitive_matrix W h.
Proof.
  induction 1 as [|h access _ IH Ha].
  - apply transitive_reset.
  - by apply transitive_next.
Qed.

End HistoryInvariant.

(** C2 -- History invariant.  For every number of ways [W], every history
    word [h] reachable from the reset word by one-hot-or-zero accesses
    expands to a matrix with ones on the diagonal and [M[i][j] = NOT
    M[j][i]] off it, whose older-than relation is a strict total order
    (irreflexive, asymmetric, transitive, total); the update of
    [CacheLRU] keeps this, from [h] and from any other word [h0] that
    has the property. *)
Theorem history_invariant_reachable W h access :
  reachable W h → one_hot_or_zero W access →
  history_invariant W h ∧
  history_invariant W (next_history W h access) ∧
  (∀ h0, history_invariant W h0 →
         history_invariant W (next_history W h0 access)).
Proof.
  intros Hr Ha. split; [|split].
  - by apply invariant_of_transitive, reachable_transitive.
  - apply invariant_of_transitive, transitive_next; [done|].
    by apply reachable_transitive.
  - intros h0 H0. apply invariant_of_transitive, transitive_next; [done|].
    by apply transitive_of_invariant.
Qed.

Lemma history_invariant_reachable_witness :
  history_invariant 4 (next_history 4 0 (onehot 3)) ∧
  history_invariant 4 (next_history 4 (next_history 4 0 (onehot 3)) (onehot 0)).
Proof.
  destruct (history_invariant_reachable 4 (next_history 4 0 (onehot 3))
              (onehot 0)) as (H1 & H2 & _).
  - apply reach_access; [apply reach_reset|].
    right. exists 3. split; [lia|reflexivity].
  - right. exists 0. split; [lia|reflexivity].
  - split; assumption.
Defined.

(** C3 -- No-op idempotence.  For every history word [current] (a vector
    of [NUMWAYS*(NUMWAYS-1)/2] bits) and the all-zero access vector, the
    update that [CacheLRU] produces is [current] itself, on both code
    paths, and [lru_post] equals [lru_pre]. *)
Theorem noop_access_idempotent W current :
  (0 ≤ current < 2 ^ Z.of_nat (LRU.history_width W))%Z →
  LRU.update (LRU.CacheLRU W true current 0) = current ∧
  LRU.update (LRU.CacheLRU W false current 0) = current ∧
  LRU.lru_post (LRU.CacheLRU W true current 0) =
  Some (LRU.lru_pre (LRU.CacheLRU W true current 0)).
Proof.
  intros Hc. simpl. rewrite apply_access_zero, pack_fill by done. done.
Qed.

Lemma noop_access_idempotent_witness :
  LRU.update (LRU.CacheLRU 4 true 52 0) = 52%Z ∧
  LRU.update (LRU.CacheLRU 4 false 52 0) = 52%Z ∧
  LRU.lru_post (LRU.CacheLRU 4 true 52 0) =
  Some (LRU.lru_pre (LRU.CacheLRU 4 true 52 0)).
Proof.
  apply (noop_access_idempotent 4 52). vm_compute.
  split; [discriminate|reflexivity].
Defined.

(** C10 -- The two code paths of [CacheLRU], with and without the
    [lru_post] signal, give the same [lru_pre] and the same [update] for
    every history word and every access vector. *)
Theorem lru_paths_agree W current access :
  LRU.lru_pre (LRU.CacheLRU W true current access) =
  LRU.lru_pre (LRU.CacheLRU W false current access) ∧
  LRU.update (LRU.CacheLRU W true current access) =
  LRU.update (LRU.CacheLRU W false current access).
Proof. split; reflexivity. Qed.

(** ** The evicted way after a run of accesses *)

Section Recency.

Import LRU.

Variable W : nat.

Lemma lru_pre_and_rows b h x :
  lru_pre (CacheLRU W b h x) = and_rows W (fill_matrix W h).
Proof. by destruct b. Qed.

(** After reset the ways are ordered by their number, the last one
    being the oldest. *)
Lemma ordered_by_reset : ordered_by W 0 (fun i => (- Z.of_nat i)%Z).
Proof.
  intros i j Hi Hj Hij. unfold matrix_of. rewrite !getbit_zero.
  destruct (decide (i = j)); [done|].
  destruct (decide (i < j)); simpl; symmetry.
  - apply bool_decide_eq_false. lia.
  - apply bool_decide_eq_true. lia.
Qed.

Lemma ordered_by_access h t n a :
  ordered_by W h t → a < W → (∀ i, i < W → (t i < n)%Z) →
  ordered_by W (next_history W h (onehot a))
             (fun i => if decide (i = a) then n else t i).
Proof.
  intros Ho Ha Hn i j Hi Hj Hij.
  rewrite next_history_onehot, matrix_of_update by done.
  pose proof (Hn i Hi). pose proof (Hn j Hj). specialize (Ho i j Hi Hj Hij).
  destruct (decide (i = a)) as [->|Hia], (decide (j = a)) as [->|Hja];
    try done.
  - symmetry. apply bool_decide_eq_false. lia.
  - symmetry. apply bool_decide_eq_true. lia.
Qed.

Lemma ordered_by_run accs : ∀ h t n,
  ordered_by W h t → (∀ i, i < W → (t i < n)%Z) →
  Forall (λ a, a < W) accs →
  ordered_by W (foldl (fun h a => next_history W h (onehot a)) h accs)
             (stamps t n accs).
Proof.
  induction accs as [|a l IH]; intros h t n Ho Hn Hf; [done|]. simpl.
  apply Forall_cons in Hf as [Ha Hf].
  apply IH; [by apply ordered_by_access| |done].
  intros i Hi. specialize (Hn i Hi). case_decide; lia.
Qed.

Lemma stamps_absent accs : ∀ t n i, i ∉ accs → stamps t n accs i = t i.
Proof.
  induction accs as [|a l IH]; intros t n i Hi; [done|]. simpl.
  apply not_elem_of_cons in Hi as [Hne Hi]. rewrite IH by done.
  by rewrite decide_False.
Qed.

Lemma stamps_present accs : ∀ t n i, i ∈ accs → (n ≤ stamps t n accs i)%Z.
Proof.
  induction accs as [|a l IH]; intros t n i Hi; [by apply elem_of_nil in Hi|].
  simpl. destruct (decide (i ∈ l)) as [Hl|Hl].
  - specialize (IH (fun i => if decide (i = a) then n else t i) (n + 1)%Z i Hl).
    lia.
  - apply elem_of_cons in Hi as [->|Hi]; [|done].
    rewrite stamps_absent by done. by rewrite decide_True.
Qed.

(** The evict mask is the one-hot vector of the way accessed longest
    ago. *)
Lemma evict_of_oldest h t w b x :
  ordered_by W h t → w < W → (∀ j, j < W → j ≠ w → (t w < t j)%Z) →
  lru_pre (CacheLRU W b h x) = onehot w.
Proof.
  intros Ho Hw Hmin. rewrite lru_pre_and_rows. apply getbit_ext. intros i.
  rewrite and_rows_spec, getbit_onehot. case_decide as Hi.
  - destruct (decide (i = w)) as [->|Hne].
    + rewrite bool_decide_eq_true_2 by done. apply row_and_true.
      intros j Hj. rewrite fill_matrix_spec by done.
      destruct (decide (w = j)) as [->|Hwj]; [apply matrix_of_diag|].
      rewrite Ho by done. apply bool_decide_eq_true. apply Hmin; [done|].
      by intros ->.
    + rewrite bool_decide_eq_false_2 by (by intros ->).
      destruct (row_and W (fill_matrix W h) i) eqn:E; [|done].
      rewrite row_and_true in E. specialize (E w Hw).
      rewrite fill_matrix_spec, Ho in E by done.
      apply bool_decide_eq_true in E. specialize (Hmin i Hi Hne). lia.
  - symmetry. apply bool_decide_eq_false. lia.
Qed.

(** Among the ways below [n], either all were accessed or there is a
    highest one that was not. *)
Lemma highest_absent (accs : list nat) n :
  (∀ v, v < n → v ∈ accs) ∨
  ∃ w, w < n ∧ (w ∉ accs) ∧ ∀ v, v < n → v ∉ accs → v ≤ w.
Proof.
  induction n as [|n IH].
  - left. intros; lia.
  - destruct (decide (n ∈ accs)) as [Hn|Hn].
    + destruct IH as [IH|(w & Hw & Hwa & Hmax)].
      * left. intros v Hv. destruct (decide (v = n)) as [->|]; [done|].
        apply IH. lia.
      * right. exists w. split; [lia|]. split; [done|].
        intros v Hv Hva. destruct (decide (v = n)) as [->|]; [done|].
        apply Hmax; [lia|done].
    + right. exists n. split; [lia|]. split; [done|]. intros; lia.
Qed.

Lemma all_accessed (accs : list nat) :
  NoDup accs → Forall (λ a, a < W) accs → length accs = W →
  ∀ v, v < W → v ∈ accs.
Proof.
  intros Hnd Hf Hl v Hv.
  assert (accs ⊆+ seq 0 W) as Hsub.
  { apply NoDup_submseteq; [done|]. intros x Hx. apply elem_of_seq.
    rewrite Forall_forall in Hf. specialize (Hf x Hx). lia. }
  apply submseteq_length_Permutation in Hsub; [|rewrite length_seq; lia].
  rewrite Hsub. apply elem_of_seq. lia.
Qed.

End Recency.

(** C1 (as amended) -- Pseudo-LRU correctness.  After accesses, from the
    reset history, to the distinct ways [accs] of a [W]-way set, the
    evict mask computed before any further access is one-hot; when fewer
    than [W] ways were accessed it selects the highest-numbered way that
    is not among them (the only such way when [W-1] were accessed), and
    when all [W] ways were accessed it selects the first of them.  For
    [NUMWAYS = 4], history [0b110100] and an access to way 2 give
    [lru_pre = one-hot(2)], [update = 0b011110] and
    [lru_post = one-hot(1)]. *)
Theorem lru_victim_after_accesses W accs access :
  NoDup accs → Forall (λ a, a < W) accs →
  (length accs < W →
   ∃ w, w < W ∧ (w ∉ accs) ∧ (∀ v, v < W → v ∉ accs → v ≤ w) ∧
        LRU.lru_pre (LRU.CacheLRU W true (run_accesses W accs) access) =
        onehot w) ∧
  (∀ a l, accs = a :: l → length accs = W →
          LRU.lru_pre (LRU.CacheLRU W true (run_accesses W accs) access) =
          onehot a) ∧
  LRU.CacheLRU 4 true 52 (onehot 2) =
  {| LRU.lru_pre := onehot 2; LRU.update := 30;
     LRU.lru_post := Some (onehot 1) |}.
Proof.
  intros Hnd Hf.
  assert (ordered_by W (run_accesses W accs)
            (stamps (fun i => (- Z.of_nat i)%Z) 1 accs)) as Ho.
  { apply ordered_by_run; [apply ordered_by_reset| |done]. intros; lia. }
  split; [|split].
  - intros Hlen. destruct (highest_absent accs W) as [Hall|(w & Hw & Hwa & Hmax)].
    + exfalso. assert (seq 0 W ⊆+ accs) as Hsub.
      { apply NoDup_submseteq; [apply NoDup_seq|]. intros x Hx.
        apply elem_of_seq in Hx. apply Hall. lia. }
      apply submseteq_length in Hsub. rewrite length_seq in Hsub. lia.
    + exists w. do 3 (split; [done|]).
      eapply evict_of_oldest; [done..|]. intros j Hj Hne.
      rewrite (stamps_absent accs _ _ w) by done.
      destruct (decide (j ∈ accs)) as [Hja|Hja].
      * pose proof (stamps_present accs (fun i => (- Z.of_nat i)%Z) 1 j Hja). lia.
      * rewrite stamps_absent by done. specialize (Hmax j Hj Hja). lia.
  - intros a l -> Hlen.
    apply NoDup_cons in Hnd as Hnd'. destruct Hnd' as [Ha Hndl].
    apply Forall_cons in Hf as Hf'. destruct Hf' as [HaW Hfl].
    eapply evict_of_oldest; [done..|]. intros j Hj Hne. simpl.
    rewrite (stamps_absent l _ _ a) by done. rewrite decide_True by done.
    assert (j ∈ l) as Hjl.
    { pose proof (all_accessed W (a :: l) Hnd Hf Hlen j Hj) as Hin.
      apply elem_of_cons in Hin as [->|]; done. }
    pose proof (stamps_present l
      (fun i => if decide (i = a) then 1%Z else (- Z.of_nat i)%Z)
      (1 + 1) j Hjl). lia.
  - vm_compute. reflexivity.
Qed.

Lemma lru_victim_after_accesses_witness :
  (∃ w, w < 4 ∧ (w ∉ [3; 0; 1]) ∧ (∀ v, v < 4 → v ∉ [3; 0; 1] → v ≤ w) ∧
        LRU.lru_pre (LRU.CacheLRU 4 true (run_accesses 4 [3; 0; 1]) 0) =
        onehot w).
Proof.
  destruct (lru_victim_after_accesses 4 [3; 0; 1] 0) as (H & _).
  - apply (bool_decide_unpack _). vm_compute. exact I.
  - repeat (apply Forall_cons_2; [lia|]). apply Forall_nil_2.
  - apply H. simpl. lia.
Defined.

(** C1, as the specification states it, fails on the code: in a 2-way
    set, after accesses to way 0 and then way 1, the evict mask selects
    way 0, which was accessed; no way is absent from the accesses. *)
Lemma lru_selects_accessed_way :
  LRU.lru_pre (LRU.CacheLRU 2 true (run_accesses 2 [0; 1]) 0) = onehot 0 ∧
  ¬ selects_absent_way 2 [0; 1].
Proof.
  split; [vm_compute; reflexivity|].
  intros (w & Hw & Hwa & _). apply Hwa.
  destruct w as [|[|w]]; [repeat constructor..|lia].
Qed.

(** ** The cache controller *)

Section Controller.

Import ICache.

Variable c : config.

Lemma miss_w_spec x i :
  getbit (miss_w c x) i =
  if decide (i < ways c)
  then negb (Z.testbit (tag_out c x i) (TAGMEM_WAY_VALID c)
             && (slice (tag_out c x i) (TAG_WIDTH c) 0 =? request_tag c x)%Z)
  else false.
Proof.
  unfold miss_w.
  destruct (foldl_putbit (fun i => i)
    (fun i => negb (Z.testbit (tag_out c x i) (TAGMEM_WAY_VALID c))
              || negb (slice (tag_out c x i) (TAG_WIDTH c) 0 =? request_tag c x)%Z)
    0 (ways c) 0) as [H1 H2]; [done|].
  case_decide.
  - rewrite negb_andb. apply H1. lia.
  - rewrite H2; [apply getbit_zero|]. intros; lia.
Qed.

Lemma miss_w_and_true x :
  miss_w_and c x = true ↔ ∀ i, i < ways c → getbit (miss_w c x) i = true.
Proof.
  unfold miss_w_and. rewrite foldl_andb. split; [by intros [_ H]|done].
Qed.

Lemma MemOp_eqb_eq a b : MemOp_eqb a b = true ↔ a = b.
Proof. destruct a, b; simpl; split; done. Qed.

Lemma miss_true r x :
  miss c r x = true ↔
  (∀ i, i < ways c → getbit (miss_w c x) i = true) ∧
  cpu_fcn x = M_RD ∧ flush r = false ∧ invalidate x = false.
Proof.
  unfold miss. rewrite !andb_true_iff, !negb_true_iff, miss_w_and_true,
    MemOp_eqb_eq. tauto.
Qed.

End Controller.

(** C5 -- Miss detection and the transitions out of [CHECK].  In state
    [CHECK], for each way [i] the miss bit is
    [NOT (valid[i] AND tag[i] == requestTag)]; the overall miss is the AND
    of the miss bits of all ways, AND the operation is a read, AND NOT
    flushing, AND NOT invalidate; the next state is [FLUSH] when flush or
    invalidate is pending, else [FETCH] on a miss, else [CHECK]. *)
Theorem miss_detection c r x :
  ICache.state r = ICache.CHECK →
  (∀ i, i < ICache.ways c →
        getbit (ICache.miss_w c x) i =
        negb (Z.testbit (ICache.tag_out c x i) (ICache.TAGMEM_WAY_VALID c)
              && (slice (ICache.tag_out c x i) (ICache.TAG_WIDTH c) 0
                  =? ICache.request_tag c x)%Z)) ∧
  (ICache.miss c r x = true ↔
   (∀ i, i < ICache.ways c → getbit (ICache.miss_w c x) i = true) ∧
   ICache.cpu_fcn x = ICache.M_RD ∧ ICache.flush r = false ∧
   ICache.invalidate x = false) ∧
  ICache.n_state c r x =
  (if ICache.flush r || ICache.invalidate x then ICache.FLUSH
   else if ICache.miss c r x then ICache.FETCH
   else ICache.CHECK).
Proof.
  intros Hs. split; [|split].
  - intros i Hi. rewrite miss_w_spec. by rewrite decide_True.
  - apply miss_true.
  - unfold ICache.n_state. by rewrite Hs.
Qed.

Lemma miss_detection_witness :
  ICache.miss default_config idle_regs idle_inputs = true ∧
  ICache.n_state default_config idle_regs idle_inputs = ICache.FETCH.
Proof.
  destruct (miss_detection default_config idle_regs idle_inputs) as (_ & _ & H).
  - reflexivity.
  - split; [vm_compute; reflexivity|]. rewrite H. vm_compute. reflexivity.
Defined.

(** C4 (as amended) -- Hit latency.  With the cache enabled, [cpu.ready]
    is [valid_q AND NOT miss_w_and AND NOT busy AND (cpu.fcn == M_RD)],
    where [valid_q] is [cpu.valid] registered one cycle earlier,
    [miss_w_and] is the AND of the miss bits of the ways and busy means
    that the state is not [CHECK]; hence a read request to a resident
    address is answered with ready in the cycle after valid when the
    controller is in [CHECK] then, whatever the numbers of ways and
    sets, and ready is low in a cycle that follows no valid. *)
Theorem cpu_ready_one_cycle c r x :
  ICache.ENABLE c = true →
  ICache.ICache_cpu_ready c r x =
  (ICache.valid_q r && negb (ICache.miss_w_and c x) && negb (ICache.busy r)
   && ICache.MemOp_eqb (ICache.cpu_fcn x) ICache.M_RD) ∧
  (ICache.busy r = negb (ICache.ic_states_eqb (ICache.state r) ICache.CHECK)) ∧
  (ICache.rst x = false → ICache.valid_q (ICache.clock c r x) = ICache.cpu_valid x) ∧
  (∀ x', ICache.rst x = false → ICache.cpu_valid x = true →
         ICache.state (ICache.clock c r x) = ICache.CHECK →
         ICache.cpu_fcn x' = ICache.M_RD → ICache.miss_w_and c x' = false →
         ICache.ICache_cpu_ready c (ICache.clock c r x) x' = true) ∧
  (ICache.valid_q r = false → ICache.ICache_cpu_ready c r x = false).
Proof.
  intros He. unfold ICache.ICache_cpu_ready. rewrite He.
  assert (∀ r x, ICache.cpu_ready c r x =
    (ICache.valid_q r && negb (ICache.miss_w_and c x) && negb (ICache.busy r)
     && ICache.MemOp_eqb (ICache.cpu_fcn x) ICache.M_RD)) as Hrdy.
  { intros r0 x0. unfold ICache.cpu_ready.
    destruct (ICache.busy r0), (ICache.MemOp_eqb _ _),
      (ICache.valid_q r0), (ICache.miss_w_and c x0); done. }
  split; [apply Hrdy|]. split; [done|]. split; [|split].
  - intros Hr. unfold ICache.clock. by rewrite Hr.
  - intros x' Hr Hv Hs Hf Hm. rewrite Hrdy, Hm. unfold ICache.busy.
    rewrite Hs, Hf. unfold ICache.clock. rewrite Hr. simpl. by rewrite Hv.
  - intros Hv. rewrite Hrdy, Hv. done.
Qed.

Lemma cpu_ready_one_cycle_witness :
  ICache.ICache_cpu_ready default_config pending_regs write_hit_inputs =
  (ICache.valid_q pending_regs
   && negb (ICache.miss_w_and default_config write_hit_inputs)
   && negb (ICache.busy pending_regs)
   && ICache.MemOp_eqb (ICache.cpu_fcn write_hit_inputs) ICache.M_RD).
Proof.
  destruct (cpu_ready_one_cycle default_config pending_regs write_hit_inputs)
    as [H _]; [reflexivity|exact H].
Defined.

(** C4, as the specification states it, fails on the code.  For a write
    request that hits, in [CHECK] and a cycle after valid, the formula of
    the specification is true (with either reading of the miss) while
    [cpu.ready] is low.  For a read request that no way holds, with
    invalidate pending, the overall miss is off, so the formula is true,
    while [cpu.ready] is low. *)
Lemma cpu_ready_not_spec_ready :
  ICache.ICache_cpu_ready default_config pending_regs write_hit_inputs = false ∧
  spec_ready default_config pending_regs write_hit_inputs = true ∧
  spec_ready_ways default_config pending_regs write_hit_inputs = true ∧
  ICache.cpu_fcn invalidate_inputs = ICache.M_RD ∧
  ICache.ICache_cpu_ready default_config pending_regs invalidate_inputs = false ∧
  spec_ready default_config pending_regs invalidate_inputs = true.
Proof. vm_compute. done. Qed.

(** *** The flush loop *)

Section FlushLoop.

Import ICache.

Variable c : config.

Lemma clock_no_reset r x :
  rst x = false →
  state (clock c r x) = n_state c r x ∧
  flush (clock c r x) = n_flush c r x ∧
  flush_addr (clock c r x) = n_flush_addr c r x.
Proof. intros H. unfold clock. by rewrite H. Qed.


Lemma busy_not_ready r x : state r ≠ CHECK → cpu_ready c r x = false.
Proof.
  intros H. unfold cpu_ready, busy. by destruct (state r).
Qed.


Lemma flush_top : (1 ≤ SET_WIDTH c)%Z →
  slice (-1) (SET_WIDTH c) 0 = (2 ^ SET_WIDTH c - 1)%Z.
Proof.
  intros H. rewrite slice_div_mod by lia.
  rewrite Z.pow_0_r, Z.div_1_r, Z.sub_0_r.
  assert (0 < 2 ^ SET_WIDTH c)%Z by (apply Z.pow_pos_nonneg; lia).
  replace (-1)%Z with (2 ^ SET_WIDTH c - 1 + -1 * 2 ^ SET_WIDTH c)%Z by lia.
  rewrite Z_mod_plus_full. apply Z.mod_small. lia.
Qed.

Lemma flush_down k : (1 ≤ SET_WIDTH c)%Z →
  (0 ≤ k < 2 ^ SET_WIDTH c)%Z →
  wrap (SET_WIDTH c) (k + 1 - slice 1 (SET_WIDTH c) 0) = k.
Proof.
  intros H Hk. rewrite slice_div_mod by lia.
  rewrite Z.pow_0_r, Z.div_1_r, Z.sub_0_r.
  assert (2 ≤ 2 ^ SET_WIDTH c)%Z.
  { replace (SET_WIDTH c) with (1 + (SET_WIDTH c - 1))%Z by lia.
    rewrite Z.pow_add_r by lia.
    assert (0 < 2 ^ (SET_WIDTH c - 1))%Z by (apply Z.pow_pos_nonneg; lia).
    lia. }
  rewrite (Z.mod_small 1) by lia. unfold wrap.
  replace (k + 1 - 1)%Z with k by lia. apply Z.mod_small. lia.
Qed.

Variable xs : nat → inputs.

Hypothesis set_width : (1 ≤ SET_WIDTH c)%Z.
Hypothesis no_reset : ∀ t, rst (xs t) = false.

(** A sweep counts the flush address down to zero and ends in
    [FLUSH_LAST]. *)
Lemma sweep_runs r0 t k :
  state (run c xs t r0) = FLUSH →
  flush_addr (run c xs t r0) = Z.of_nat k →
  (Z.of_nat k < 2 ^ SET_WIDTH c)%Z →
  (∀ j, j ≤ k → state (run c xs (t + j) r0) = FLUSH ∧
                flush_addr (run c xs (t + j) r0) = Z.of_nat (k - j)) ∧
  state (run c xs (t + S k) r0) = FLUSH_LAST.
Proof.
  intros Hs Ha Hk.
  assert (∀ j, j ≤ k → state (run c xs (t + j) r0) = FLUSH ∧
                       flush_addr (run c xs (t + j) r0) = Z.of_nat (k - j))
    as Hinv.
  { induction j as [|j IH]; intros Hj.
    - rewrite Nat.add_0_r, Nat.sub_0_r. done.
    - destruct IH as [IHs IHa]; [lia|].
      replace (t + S j) with (S (t + j)) by lia. cbn [run].
      destruct (clock_no_reset (run c xs (t + j) r0) (xs (t + j))
                  (no_reset _)) as (E1 & _ & E3).
      rewrite E1, E3. unfold n_state, n_flush_addr, flush_next_state,
        final_flush. rewrite IHs, IHa. cbn [fst snd].
      replace (Z.of_nat (k - j) =? 0)%Z with false
        by (symmetry; apply Z.eqb_neq; lia).
      split; [done|].
      replace (Z.of_nat (k - j)) with (Z.of_nat (k - S j) + 1)%Z by lia.
      apply flush_down; [done|lia]. }
  split; [done|].
  destruct (Hinv k ltac:(lia)) as [Es Ea].
  replace (t + S k) with (S (t + k)) by lia. cbn [run].
  destruct (clock_no_reset (run c xs (t + k) r0) (xs (t + k)) (no_reset _))
    as (E1 & _). rewrite E1. unfold n_state, final_flush.
  rewrite Es, Ea. by replace (k - k) with 0 by lia.
Qed.

Hypothesis held : ∀ t, invalidate (xs t) = true.




End FlushLoop.




(** ** Validation of the parameters *)

(** [n & (n - 1)] is zero for the powers of two, and for zero. *)
Lemma land_pred_zero (n : Z) :
  n ≠ 0%Z → Z.land n (n - 1) = 0%Z ↔ ICache.power_of_two n.
Proof.
  intros Hn. split.
  - intros Hl. destruct (decide (n < 0)%Z) as [Hneg|Hpos].
    + exfalso. assert (Z.land n (n - 1) < 0)%Z by (apply Z.land_neg; lia). lia.
    + exists (Z.log2 n). split; [apply Z.log2_nonneg|].
      destruct (Z.log2_spec n ltac:(lia)) as [Hlo Hhi].
      destruct (decide (n = 2 ^ Z.log2 n)%Z) as [|Hne]; [done|]. exfalso.
      assert (Z.log2 (n - 1) = Z.log2 n) as Hlog.
      { apply Z.log2_unique; [apply Z.log2_nonneg|lia]. }
      assert (Z.testbit (Z.land n (n - 1)) (Z.log2 n) = true) as Hb.
      { rewrite Z.land_spec, Z.bit_log2 by lia. rewrite <- Hlog.
        rewrite Z.bit_log2; [done|].
        pose proof (Z.pow_pos_nonneg 2 (Z.log2 n) ltac:(lia)
                      (Z.log2_nonneg n)). lia. }
      rewrite Hl, Z.testbit_0_l in Hb. done.
  - intros (k & Hk & ->).
    replace (2 ^ k - 1)%Z with (Z.ones k) by (rewrite Z.ones_equiv; lia).
    rewrite Z.land_ones by done. apply Z_mod_same_full.
Qed.

Lemma check_parameters_None c :
  ICache.check_parameters c = None ↔
  ICache.D_WIDTH c = 32%Z ∧ (0 < ICache.BLOCK_WIDTH c)%Z ∧
  (0 < ICache.SET_WIDTH c)%Z ∧
  Z.land (ICache.WAYS c) (ICache.WAYS c - 1) = 0%Z.
Proof.
  unfold ICache.check_parameters.
  destruct (Z.eqb_spec (ICache.D_WIDTH c) 32),
    (Z.ltb_spec 0 (ICache.BLOCK_WIDTH c)),
    (Z.ltb_spec 0 (ICache.SET_WIDTH c)),
    (Z.eqb_spec (Z.land (ICache.WAYS c) (ICache.WAYS c - 1)) 0);
    simpl; split; try done; intros (? & ? & ? & ?); try done; lia.
Qed.

(** C8 (as amended) -- Construction-time validation.  The assertions at
    the head of [ICache] let a configuration pass only if the word width
    is 32, [BLOCK_WIDTH] and [SET_WIDTH] are at least 1 (blocks of
    [2^BLOCK_WIDTH >= 2] bytes, [2^SET_WIDTH >= 2] sets) and the number
    of ways, when it is not zero, is a power of two; they fail before
    anything is built otherwise.  Every configuration with 32-bit words,
    [BLOCK_WIDTH >= 1], [SET_WIDTH >= 1] and a number of ways that is a
    power of two and at least 2 passes. *)
Theorem construction_validation c :
  (ICache.check_parameters c = None →
   ICache.D_WIDTH c = 32%Z ∧ (1 ≤ ICache.BLOCK_WIDTH c)%Z ∧
   (1 ≤ ICache.SET_WIDTH c)%Z ∧
   (ICache.WAYS c ≠ 0%Z → ICache.power_of_two (ICache.WAYS c))) ∧
  (ICache.D_WIDTH c = 32%Z → (1 ≤ ICache.BLOCK_WIDTH c)%Z →
   (1 ≤ ICache.SET_WIDTH c)%Z → ICache.power_of_two (ICache.WAYS c) →
   (2 ≤ ICache.WAYS c)%Z →
   ICache.check_parameters c = None).
Proof.
  split.
  - intros (Hd & Hb & Hs & Hw)%check_parameters_None.
    split; [done|]. split; [lia|]. split; [lia|].
    intros Hn. by apply land_pred_zero.
  - intros Hd Hb Hs Hp Hw. apply check_parameters_None.
    split; [done|]. split; [lia|]. split; [lia|].
    apply land_pred_zero; [lia|done].
Qed.

Lemma construction_validation_witness :
  ICache.check_parameters default_config = None.
Proof.
  destruct (construction_validation default_config) as [_ H].
  apply H; [reflexivity|simpl; lia|simpl; lia| |simpl; lia].
  exists 1%Z. split; [lia|reflexivity].
Defined.

(** C8, as the specification states it, fails on the code in both
    directions: a block of one byte ([2^0], a power of two greater than
    0) meets the constraints and is rejected, and a single way, which
    does not meet them, passes the assertions. *)
Lemma validation_differs_from_spec :
  ICache.spec_constraints one_byte_block_config ∧
  ICache.check_parameters one_byte_block_config =
  Some "Error: BLOCK_WIDTH must be a value > 0"%string ∧
  ¬ ICache.spec_constraints one_way_config ∧
  ICache.check_parameters one_way_config = None.
Proof.
  split; [|split; [reflexivity|split; [|reflexivity]]].
  - unfold ICache.spec_constraints. simpl.
    repeat split; try lia; try done.
    + exists 0%Z. split; [lia|reflexivity].
    + exists 9%Z. split; [lia|reflexivity].
    + exists 1%Z. split; [lia|reflexivity].
  - intros (_ & _ & _ & _ & _ & _ & _ & _ & H). simpl in H. lia.
Qed.

(** ** The tag store *)

Section TagStore.

Import ICache.

Lemma testbit_set_slice temp hi lo v n :
  (0 ≤ lo ≤ hi)%Z → (0 ≤ n)%Z →
  Z.testbit (set_slice temp hi lo v) n =
  Z.testbit temp n && negb ((lo <=? n)%Z && (n <? hi)%Z)
  || Z.testbit v (n - lo).
Proof.
  intros Hlo Hn. unfold set_slice.
  rewrite Z.lor_spec, Z.land_spec, Z.lnot_spec, !Z.shiftl_spec by lia.
  rewrite Z.testbit_ones by lia. do 2 f_equal. f_equal.
  destruct (Z.leb_spec lo n), (Z.leb_spec 0 (n - lo)),
    (Z.ltb_spec n hi), (Z.ltb_spec (n - lo) (hi - lo)); simpl; lia.
Qed.

Lemma slice_set_slice_same temp hi lo v :
  (0 ≤ lo ≤ hi)%Z → (0 ≤ v < 2 ^ (hi - lo))%Z →
  slice (set_slice temp hi lo v) hi lo = v.
Proof.
  intros Hlo Hv. apply Z.bits_inj'. intros n Hn.
  rewrite testbit_slice, testbit_set_slice by lia.
  replace (n + lo - lo)%Z with n by lia.
  destruct (Z.ltb_spec n (hi - lo)).
  - rewrite andb_true_r.
    replace ((lo <=? n + lo)%Z && (n + lo <? hi)%Z) with true; [|symmetry].
    + by rewrite andb_false_r.
    + apply andb_true_iff. split; [apply Z.leb_le|apply Z.ltb_lt]; lia.
  - rewrite andb_false_r. symmetry. eapply testbit_small; [done|lia].
Qed.

Lemma slice_set_slice_below temp hi lo v hi' lo' :
  (0 ≤ lo ≤ hi)%Z → (0 ≤ lo' ≤ hi')%Z → (hi' ≤ lo)%Z →
  slice (set_slice temp hi lo v) hi' lo' = slice temp hi' lo'.
Proof.
  intros Hlo Hlo' Hd. apply Z.bits_inj'. intros n Hn.
  rewrite !testbit_slice, testbit_set_slice by lia.
  destruct (Z.ltb_spec n (hi' - lo')); [|by rewrite !andb_false_r].
  rewrite !andb_true_r, (Z.testbit_neg_r v) by lia.
  replace (lo <=? n + lo')%Z with false by (symmetry; apply Z.leb_gt; lia).
  simpl. by rewrite andb_true_r, orb_false_r.
Qed.

(** The loop of [tag_rport] that packs the entries of the ways. *)
Lemma pack_entries (f : nat → Z) w k :
  (0 ≤ w)%Z → (∀ i, 0 ≤ f i < 2 ^ w)%Z →
  ∀ i, i < k →
       slice (foldl (fun temp i =>
                       set_slice temp (w * (Z.of_nat i + 1)) (w * Z.of_nat i)
                                 (f i)) 0%Z (seq 0 k))
             (w * (Z.of_nat i + 1)) (w * Z.of_nat i) = f i.
Proof.
  intros Hw Hf. induction k as [|k IH]; intros i Hi; [lia|].
  rewrite seq_S, foldl_snoc. change (0 + k) with k.
  destruct (decide (i = k)) as [->|Hne].
  - apply slice_set_slice_same; [nia|].
    replace (w * (Z.of_nat k + 1) - w * Z.of_nat k)%Z with w by lia. done.
  - rewrite slice_set_slice_below by nia. apply IH. lia.
Qed.

Variable c : config.

Hypothesis widths : (0 ≤ WAY_WIDTH c ≤ LIMIT_WIDTH c)%Z.

Lemma TAG_WIDTH_nonneg : (0 ≤ TAG_WIDTH c)%Z.
Proof. unfold TAG_WIDTH. lia. Qed.

Lemma request_tag_range x : (0 ≤ request_tag c x < 2 ^ TAG_WIDTH c)%Z.
Proof. unfold request_tag, TAG_WIDTH. by apply slice_range. Qed.

Lemma tag_out_range x i : (0 ≤ tag_out c x i < 2 ^ TAGMEM_WAY_WIDTH c)%Z.
Proof.
  pose proof TAG_WIDTH_nonneg. unfold tag_out.
  assert (0 ≤ TAGMEM_WAY_WIDTH c)%Z by (unfold TAGMEM_WAY_WIDTH; lia).
  pose proof (slice_range (tag_data_o x)
    (TAGMEM_WAY_WIDTH c * (Z.of_nat i + 1)) (TAGMEM_WAY_WIDTH c * Z.of_nat i)
    ltac:(nia)) as Hs.
  by replace (TAGMEM_WAY_WIDTH c * (Z.of_nat i + 1)
              - TAGMEM_WAY_WIDTH c * Z.of_nat i)%Z
    with (TAGMEM_WAY_WIDTH c) in Hs by lia.
Qed.

(** The entry written on a miss: valid bit and request tag together. *)
Lemma new_entry_valid x :
  Z.testbit (concat 1 (request_tag c x) (TAG_WIDTH c)) (TAGMEM_WAY_VALID c)
  = true.
Proof.
  pose proof TAG_WIDTH_nonneg. unfold TAGMEM_WAY_VALID, TAGMEM_WAY_WIDTH.
  rewrite testbit_concat by lia.
  by replace (TAG_WIDTH c + 1 - 1 - TAG_WIDTH c)%Z with 0%Z by lia.
Qed.

Lemma new_entry_tag x :
  slice (concat 1 (request_tag c x) (TAG_WIDTH c)) (TAG_WIDTH c) 0
  = request_tag c x.
Proof.
  pose proof TAG_WIDTH_nonneg. pose proof (request_tag_range x).
  apply Z.bits_inj'. intros n Hn.
  rewrite testbit_slice, testbit_concat by lia.
  rewrite Z.add_0_r, Z.sub_0_r. destruct (Z.ltb_spec n (TAG_WIDTH c)).
  - rewrite Z.testbit_neg_r by lia. simpl. apply andb_true_r.
  - rewrite andb_false_r. symmetry. eapply testbit_small; [done|lia].
Qed.

Lemma new_entry_range x :
  (0 ≤ concat 1 (request_tag c x) (TAG_WIDTH c) < 2 ^ TAGMEM_WAY_WIDTH c)%Z.
Proof.
  pose proof TAG_WIDTH_nonneg. pose proof (request_tag_range x).
  unfold concat, TAGMEM_WAY_WIDTH. rewrite Z.shiftl_1_l.
  assert (Z.lor (2 ^ TAG_WIDTH c) (request_tag c x)
          = 2 ^ TAG_WIDTH c + request_tag c x)%Z as ->.
  { assert (Z.land (2 ^ TAG_WIDTH c) (request_tag c x) = 0%Z) as Hl.
    { apply Z.bits_inj'; intros n Hn.
      rewrite Z.land_spec, Z.pow2_bits_eqb, Z.testbit_0_l by lia.
      destruct (Z.eqb_spec (TAG_WIDTH c) n) as [<-|]; [|done].
      simpl. eapply testbit_small; [done|lia]. }
    by rewrite <- (Z.lxor_lor _ _ Hl), <- (Z.add_nocarry_lxor _ _ Hl). }
  rewrite Z.pow_add_r by lia. lia.
Qed.

Lemma tag_in_range r x i : (0 ≤ tag_in c r x i < 2 ^ TAGMEM_WAY_WIDTH c)%Z.
Proof.
  unfold tag_in.
  destruct (state r); try apply tag_out_range.
  destruct (miss c r x); [|apply tag_out_range].
  destruct (getbit _ i); [apply new_entry_range|apply tag_out_range].
Qed.

Lemma TAG_LRU_WIDTH_nonneg : (0 ≤ TAG_LRU_WIDTH c)%Z.
Proof. unfold TAG_LRU_WIDTH. apply Z.shiftr_nonneg. nia. Qed.

(** The word on the read/write port carries [tag_in] in its entries. *)
Lemma tag_rw_port_entry r x i :
  i < ways c → way_entry c (data_i (tag_rw_port c r x)) i = tag_in c r x i.
Proof.
  intros Hi. pose proof TAG_WIDTH_nonneg. pose proof TAG_LRU_WIDTH_nonneg.
  assert (0 ≤ TAGMEM_WAY_WIDTH c)%Z by (unfold TAGMEM_WAY_WIDTH; lia).
  assert (Z.of_nat i + 1 ≤ WAYS c)%Z by (unfold ways in Hi; lia).
  unfold way_entry, tag_rw_port. cbn [data_i].
  rewrite slice_set_slice_below; [| unfold TAGMEM_WIDTH; nia | nia | nia].
  apply (pack_entries (tag_in c r x)); [done| |done].
  intros. apply tag_in_range.
Qed.

Lemma way_entry_zero i : way_entry c 0 i = 0%Z.
Proof. apply slice_zero. Qed.

Lemma tag_we_check r x : tag_we c r x = true ↔ state r = CHECK.
Proof.
  unfold tag_we. destruct (state r); try done.
  by destruct (miss c r x).
Qed.

Lemma tag_in_changes r x i :
  tag_in c r x i ≠ tag_out c x i →
  state r = CHECK ∧ miss c r x = true ∧ getbit (lru_select c x) i = true ∧
  tag_in c r x i = concat 1 (request_tag c x) (TAG_WIDTH c).
Proof.
  unfold tag_in. destruct (state r); try done.
  destruct (miss c r x); [|done]. destruct (getbit _ i); done.
Qed.

Lemma length_ram_write (ram : list Z) p :
  length (RAM.write ram p) = length ram.
Proof. unfold RAM.write. destruct (we p); [apply length_insert|done]. Qed.

Lemma ram_write_lookup (ram : list Z) p s :
  s < length ram →
  RAM.write ram p !!! s =
  if we p && bool_decide (s = Z.to_nat (addr p)) then data_i p
  else ram !!! s.
Proof.
  intros Hs. unfold RAM.write. destruct (we p); [|done]. simpl.
  case_bool_decide as E.
  - subst. by rewrite list_lookup_total_insert_eq.
  - by rewrite list_lookup_total_insert_ne.
Qed.

Lemma RAM_DP_lookup (ram : list Z) pa pb s :
  s < length ram →
  RAM.RAM_DP ram pa pb !!! s =
  if we pb && bool_decide (s = Z.to_nat (addr pb)) then data_i pb
  else if we pa && bool_decide (s = Z.to_nat (addr pa)) then data_i pa
  else ram !!! s.
Proof.
  intros Hs. unfold RAM.RAM_DP.
  rewrite ram_write_lookup by (by rewrite length_ram_write).
  by rewrite ram_write_lookup by done.
Qed.

(** The tag RAM over one clock edge, entry by entry. *)
Lemma tag_mem_frame r x (tag_mem : list Z) s i :
  i < ways c →
  tag_data_o x = tag_mem !!! Z.to_nat (addr (tag_rw_port c r x)) →
  s < length tag_mem →
  way_entry c (RAM.tag_mem_clock c r x tag_mem !!! s) i
  = way_entry c (tag_mem !!! s) i
  ∨ (flush_we r = true ∧ s = Z.to_nat (flush_addr r) ∧
     way_entry c (RAM.tag_mem_clock c r x tag_mem !!! s) i = 0%Z)
  ∨ (state r = CHECK ∧ miss c r x = true ∧
     getbit (lru_select c x) i = true ∧
     s = Z.to_nat (addr (tag_rw_port c r x)) ∧
     way_entry c (RAM.tag_mem_clock c r x tag_mem !!! s) i
     = concat 1 (request_tag c x) (TAG_WIDTH c)).
Proof.
  intros Hi Hread Hs. unfold RAM.tag_mem_clock.
  rewrite RAM_DP_lookup by done.
  destruct (we (tag_flush_port c r) && _) eqn:Eb.
  { apply andb_true_iff in Eb as [Eb Es%bool_decide_eq_true].
    right. left. split; [exact Eb|]. split; [exact Es|].
    cbn [data_i tag_flush_port]. rewrite slice_zero. apply way_entry_zero. }
  destruct (we (tag_rw_port c r x) && _) eqn:Ea; [|by left].
  apply andb_true_iff in Ea as [Ea Es%bool_decide_eq_true].
  rewrite tag_rw_port_entry by done.
  destruct (decide (tag_in c r x i = tag_out c x i)) as [E|E].
  - left. rewrite E. unfold tag_out, way_entry. by rewrite Hread, Es.
  - right. right. apply tag_in_changes in E as (? & ? & ? & ->). done.
Qed.

End TagStore.

(** C7 (as amended) -- Tag entry mutation discipline.  The controller
    writes the tag RAM through the read/write port only in [CHECK], and
    never in the cycles that complete a refill.  The [{valid, tag}] entry
    of a way changes there only on a miss, for a way selected by
    [lru_select], and then valid and the request tag are set together:
    the miss is taken in [CHECK], before the first beat of the refill.
    The port never clears a valid bit; a hit (or an idle [CHECK] cycle)
    writes the entries back as read and stores only the new history
    word.  The flush port writes a zero line, and is enabled only by a
    sweep; reset starts a sweep.  The controller writes back what it
    reads: provided the read data of the read/write port are the line
    that [cpu.addr] addresses, an entry of the tag RAM, over a clock
    edge, either stays, or is zeroed by the flush port, or becomes
    [{1, request tag}] on a miss. *)
Theorem tag_entry_discipline c r x :
  (0 ≤ ICache.WAY_WIDTH c ≤ ICache.LIMIT_WIDTH c)%Z →
  (ICache.tag_we c r x = true ↔ ICache.state r = ICache.CHECK) ∧
  (ICache.refill_complete c r x = true → ICache.tag_we c r x = false) ∧
  (∀ i, ICache.tag_in c r x i ≠ ICache.tag_out c x i →
        ICache.state r = ICache.CHECK ∧ ICache.miss c r x = true ∧
        getbit (ICache.lru_select c x) i = true ∧
        Z.testbit (ICache.tag_in c r x i) (ICache.TAGMEM_WAY_VALID c) = true ∧
        slice (ICache.tag_in c r x i) (ICache.TAG_WIDTH c) 0
        = ICache.request_tag c x) ∧
  (∀ i, Z.testbit (ICache.tag_out c x i) (ICache.TAGMEM_WAY_VALID c) = true →
        Z.testbit (ICache.tag_in c r x i) (ICache.TAGMEM_WAY_VALID c) = true) ∧
  (ICache.state r = ICache.CHECK → ICache.miss c r x = false →
   (∀ i, ICache.tag_in c r x i = ICache.tag_out c x i) ∧
   ICache.lru_in c r x = ICache.update_lru c x) ∧
  (∀ i, i < ICache.ways c →
        ICache.way_entry c (ICache.data_i (ICache.tag_rw_port c r x)) i
        = ICache.tag_in c r x i) ∧
  (∀ i, ICache.way_entry c (ICache.data_i (ICache.tag_flush_port c r)) i
        = 0%Z) ∧
  (ICache.rst x = true → ICache.state (ICache.clock c r x) = ICache.FLUSH) ∧
  (ICache.rst x = false →
   (ICache.flush_we (ICache.clock c r x) = true ↔
    (ICache.state r = ICache.CHECK ∧
     ICache.flush r || ICache.invalidate x = true)
    ∨ ICache.state r = ICache.FLUSH)) ∧
  (∀ (tag_mem : list Z) s i,
     i < ICache.ways c →
     ICache.tag_data_o x
     = tag_mem !!! Z.to_nat (ICache.addr (ICache.tag_rw_port c r x)) →
     s < length tag_mem →
     ICache.way_entry c (RAM.tag_mem_clock c r x tag_mem !!! s) i
     = ICache.way_entry c (tag_mem !!! s) i
     ∨ (ICache.flush_we r = true ∧ s = Z.to_nat (ICache.flush_addr r) ∧
        ICache.way_entry c (RAM.tag_mem_clock c r x tag_mem !!! s) i = 0%Z)
     ∨ (ICache.state r = ICache.CHECK ∧ ICache.miss c r x = true ∧
        getbit (ICache.lru_select c x) i = true ∧
        s = Z.to_nat (ICache.addr (ICache.tag_rw_port c r x)) ∧
        ICache.way_entry c (RAM.tag_mem_clock c r x tag_mem !!! s) i
        = concat 1 (ICache.request_tag c x) (ICache.TAG_WIDTH c))).
Proof.
  intros Hw. split; [apply tag_we_check|].
  split.
  { intros Hc. destruct (ICache.tag_we c r x) eqn:E; [|done].
    apply tag_we_check in E. unfold ICache.refill_complete in Hc.
    by rewrite E in Hc. }
  split.
  { intros i Hne. apply tag_in_changes in Hne as (Hs & Hm & Hl & ->).
    do 3 (split; [done|]). split; [by apply new_entry_valid|].
    by apply new_entry_tag. }
  split.
  { intros i Hv. destruct (decide (ICache.tag_in c r x i = ICache.tag_out c x i))
      as [->|Hne]; [done|].
    apply tag_in_changes in Hne as (_ & _ & _ & ->). by apply new_entry_valid. }
  split.
  { intros Hs Hm. unfold ICache.tag_in, ICache.lru_in. by rewrite Hs, Hm. }
  split; [intros; by apply tag_rw_port_entry|].
  split.
  { intros i. cbn [ICache.data_i ICache.tag_flush_port].
    rewrite slice_zero. apply way_entry_zero. }
  split.
  { intros Hr. unfold ICache.clock. by rewrite Hr. }
  split.
  { intros Hr. unfold ICache.clock. rewrite Hr. cbn [ICache.flush_we].
    unfold ICache.n_flush_we, ICache.flush_next_state.
    destruct (ICache.state r); simpl.
    - destruct (ICache.flush r || ICache.invalidate x); simpl;
        split; try done; [by left|intros [[_ ?]|?]; done].
    - split; [done|intros [[? _]|?]; done].
    - split; [done|intros [[? _]|?]; done].
    - split; [by right|done].
    - split; [done|intros [[? _]|?]; done]. }
  intros. by apply tag_mem_frame.
Qed.

Lemma tag_entry_discipline_witness :
  ICache.tag_we default_config idle_regs idle_inputs = true ↔
  ICache.state idle_regs = ICache.CHECK.
Proof.
  destruct (tag_entry_discipline default_config idle_regs idle_inputs)
    as [H _]; [vm_compute; split; discriminate|exact H].
Defined.

(** C7, as the specification states it, fails on the code: on a miss in
    [CHECK], with no refill begun, the read/write port of the tag RAM is
    enabled and carries a new valid entry for the way to evict, and this
    is not a cycle that completes a refill. *)
Lemma tag_written_at_miss :
  ICache.miss default_config idle_regs idle_inputs = true ∧
  ICache.refill_valid idle_regs = false ∧
  ICache.tag_we default_config idle_regs idle_inputs = true ∧
  ICache.tag_out default_config idle_inputs 1 = 0%Z ∧
  ICache.tag_in default_config idle_regs idle_inputs 1 = (2 ^ 18)%Z ∧
  ICache.refill_complete default_config idle_regs idle_inputs = false ∧
  ¬ tags_written_at_refill_completion default_config.
Proof.
  do 6 (split; [vm_compute; reflexivity|]).
  intros H. specialize (H idle_regs idle_inputs 1).
  discriminate H; [vm_compute; lia|vm_compute; reflexivity|].
  vm_compute. discriminate.
Qed.

(** ** The refill of a line *)

Section RefillArith.

Import ICache System Refill.

Variable c : config.
Variable aw : Z.

Hypothesis block_width : (2 ≤ BLOCK_WIDTH c ≤ LIMIT_WIDTH c)%Z.
Hypothesis set_width : (0 ≤ SET_WIDTH c)%Z.

Lemma words_per_line_bytes :
  (Z.of_nat (words_per_line c) * 4 = 2 ^ BLOCK_WIDTH c)%Z.
Proof.
  unfold words_per_line. rewrite Z2Nat.id by (apply Z.pow_nonneg; lia).
  replace (BLOCK_WIDTH c) with (BLOCK_WIDTH c - 2 + 2)%Z at 2 by lia.
  rewrite Z.pow_add_r by lia. done.
Qed.

Lemma words_per_line_pos : 0 < words_per_line c.
Proof.
  unfold words_per_line.
  assert (0 < 2 ^ (BLOCK_WIDTH c - 2))%Z by (apply Z.pow_pos_nonneg; lia).
  lia.
Qed.

Lemma line_base_eq a :
  line_base c a
  = (slice a (LIMIT_WIDTH c) (BLOCK_WIDTH c) * 2 ^ BLOCK_WIDTH c)%Z.
Proof.
  unfold line_base, concat. rewrite Z.lor_0_r. apply Z.shiftl_mul_pow2. lia.
Qed.

Lemma line_base_range a :
  (0 ≤ line_base c a ∧ line_base c a + 2 ^ BLOCK_WIDTH c ≤ 2 ^ LIMIT_WIDTH c)%Z.
Proof.
  rewrite line_base_eq.
  pose proof (slice_range a (LIMIT_WIDTH c) (BLOCK_WIDTH c) ltac:(lia)) as H.
  assert (0 < 2 ^ BLOCK_WIDTH c)%Z by (apply Z.pow_pos_nonneg; lia).
  replace (LIMIT_WIDTH c) with (LIMIT_WIDTH c - BLOCK_WIDTH c + BLOCK_WIDTH c)%Z
    at 3 by lia.
  rewrite Z.pow_add_r by lia. nia.
Qed.

(** The block offset of word [k] is [4k]. *)
Lemma word_offset a k :
  k < words_per_line c →
  slice (word_addr c a k) (BLOCK_WIDTH c) 0 = (4 * Z.of_nat k)%Z.
Proof.
  intros Hk. pose proof words_per_line_bytes.
  rewrite slice_div_mod by lia. unfold word_addr. rewrite line_base_eq.
  rewrite Z.pow_0_r, Z.div_1_r, Z.sub_0_r, Z.add_comm, Z_mod_plus_full.
  apply Z.mod_small. lia.
Qed.

(** The offset that [final_fetch] looks for is that of the last word. *)
Lemma last_offset :
  slice (Z.lnot 3) (BLOCK_WIDTH c) 0 = (2 ^ BLOCK_WIDTH c - 4)%Z.
Proof.
  pose proof words_per_line_bytes. pose proof words_per_line_pos.
  rewrite slice_div_mod by lia. change (Z.lnot 3) with (-4)%Z.
  rewrite Z.pow_0_r, Z.div_1_r, Z.sub_0_r.
  replace (-4)%Z with (2 ^ BLOCK_WIDTH c - 4 + -1 * 2 ^ BLOCK_WIDTH c)%Z by lia.
  rewrite Z_mod_plus_full. apply Z.mod_small. lia.
Qed.

Lemma final_word a k :
  k < words_per_line c →
  (slice (word_addr c a k) (BLOCK_WIDTH c) 0
   =? slice (Z.lnot 3) (BLOCK_WIDTH c) 0)%Z
  = bool_decide (S k = words_per_line c).
Proof.
  intros Hk. rewrite word_offset, last_offset by done.
  pose proof words_per_line_bytes. case_bool_decide.
  - apply Z.eqb_eq. lia.
  - apply Z.eqb_neq. lia.
Qed.

(** The next refill address, when word [k] is not the last. *)
Lemma next_word a k :
  S k < words_per_line c →
  wrap (LIMIT_WIDTH c) (word_addr c a k + slice 4 (BLOCK_WIDTH c) 0)
  = word_addr c a (S k).
Proof.
  intros Hk. pose proof words_per_line_bytes as Hb.
  pose proof (line_base_range a).
  assert (8 ≤ 2 ^ BLOCK_WIDTH c)%Z by lia.
  assert (slice 4 (BLOCK_WIDTH c) 0 = 4%Z) as ->.
  { rewrite slice_div_mod by lia. rewrite Z.pow_0_r, Z.div_1_r, Z.sub_0_r.
    apply Z.mod_small. lia. }
  unfold wrap, word_addr in *. rewrite Z.mod_small by lia. lia.
Qed.

Lemma ram_index_word a k :
  k < words_per_line c →
  ram_index c (word_addr c a k) = ram_base c a + k.
Proof.
  intros Hk. unfold ram_index, ram_base, word_addr, WAY_WIDTH.
  rewrite line_base_eq, slice_div_mod by lia.
  set (sl := slice a (LIMIT_WIDTH c) (BLOCK_WIDTH c)).
  set (n := (2 ^ (BLOCK_WIDTH c - 2))%Z).
  assert (0 < n)%Z by (apply Z.pow_pos_nonneg; lia).
  assert (Z.of_nat k < n)%Z by (unfold words_per_line in Hk; lia).
  assert (0 < 2 ^ SET_WIDTH c)%Z by (apply Z.pow_pos_nonneg; lia).
  assert (2 ^ BLOCK_WIDTH c = n * 4)%Z as ->.
  { unfold n. replace (BLOCK_WIDTH c) with (BLOCK_WIDTH c - 2 + 2)%Z at 1 by lia.
    by rewrite Z.pow_add_r by lia. }
  replace (BLOCK_WIDTH c + SET_WIDTH c - 2)%Z
    with (BLOCK_WIDTH c - 2 + SET_WIDTH c)%Z by lia.
  rewrite Z.pow_add_r by lia. fold n.
  replace (sl * (n * 4) + 4 * Z.of_nat k)%Z
    with ((sl * n + Z.of_nat k) * 2 ^ 2)%Z by lia.
  rewrite Z.div_mul by done.
  rewrite Z.rem_mul_r by lia.
  rewrite (Z.add_comm (sl * n)), Z_mod_plus_full, Z.div_add by lia.
  rewrite (Z.mod_small (Z.of_nat k)), (Z.div_small (Z.of_nat k)) by lia.
  pose proof (Z.mod_pos_bound sl (2 ^ SET_WIDTH c) ltac:(lia)).
  rewrite Z.add_0_l. nia.
Qed.

Lemma ram_base_range a :
  ram_base c a + words_per_line c ≤ Z.to_nat (2 ^ (WAY_WIDTH c - 2)).
Proof.
  unfold ram_base, words_per_line, WAY_WIDTH.
  set (sl := slice a (LIMIT_WIDTH c) (BLOCK_WIDTH c)).
  set (n := (2 ^ (BLOCK_WIDTH c - 2))%Z).
  assert (0 < n)%Z by (apply Z.pow_pos_nonneg; lia).
  assert (0 < 2 ^ SET_WIDTH c)%Z by (apply Z.pow_pos_nonneg; lia).
  replace (BLOCK_WIDTH c + SET_WIDTH c - 2)%Z
    with (BLOCK_WIDTH c - 2 + SET_WIDTH c)%Z by lia.
  rewrite Z.pow_add_r by lia. fold n.
  pose proof (Z.mod_pos_bound sl (2 ^ SET_WIDTH c) ltac:(lia)). nia.
Qed.

(** The words stored so far sit at their indices; the rest of the array
    is as before. *)
Lemma filled_S M a k ram :
  filled c aw M a (S k) ram
  = <[ram_index c (word_addr c a k) := M !!! mem_index aw (word_addr c a k)]>
      (filled c aw M a k ram).
Proof. unfold filled. by rewrite seq_S, foldl_snoc. Qed.

Lemma filled_spec M a (ram : list Z) k :
  k ≤ words_per_line c → ram_base c a + words_per_line c ≤ length ram →
  length (filled c aw M a k ram) = length ram ∧
  (∀ j, j < k → filled c aw M a k ram !!! (ram_base c a + j)
                = M !!! mem_index aw (word_addr c a j)) ∧
  (∀ i, i < ram_base c a ∨ ram_base c a + k ≤ i →
        filled c aw M a k ram !!! i = ram !!! i).
Proof.
  intros Hk Hl. induction k as [|k IH]; [split; [done|]; split; [lia|done]|].
  destruct IH as (IHl & IH1 & IH2); [lia|].
  rewrite filled_S, ram_index_word by lia.
  split; [by rewrite length_insert|]. split.
  - intros j Hj. destruct (decide (j = k)) as [->|Hne].
    + rewrite list_lookup_total_insert_eq by lia. done.
    + rewrite list_lookup_total_insert_ne by lia. apply IH1. lia.
  - intros i Hi. rewrite list_lookup_total_insert_ne by lia. apply IH2. lia.
Qed.

Lemma imap_imap {A B C} (f : nat → B → C) (g : nat → A → B) (l : list A) :
  imap f (imap g l) = imap (fun i y => f i (g i y)) l.
Proof.
  apply list_eq. intros i. rewrite !list_lookup_imap.
  by destruct (l !! i).
Qed.

Lemma imap_id {A} (f : nat → A → A) (l : list A) :
  (∀ i y, f i y = y) → imap f l = l.
Proof.
  intros H. apply list_eq. intros i. rewrite list_lookup_imap.
  destruct (l !! i); [|done]. simpl. by rewrite H.
Qed.

(** One clock edge in [FETCH], without reset, from the refill request
    [v] and the ready [rdy] of the memory. *)
Lemma fetch_step s e v rdy :
  s_rst e = false → state (ctl s) = FETCH →
  refill_valid (ctl s) = v → Memory.imem_ready (mem s) = rdy →
  let fin := (slice (refill_addr (ctl s)) (BLOCK_WIDTH c) 0
              =? slice (Z.lnot 3) (BLOCK_WIDTH c) 0)%Z && rdy && negb v in
  let s' := step c aw s e in
  state (ctl s') = (if fin then WAIT else FETCH) ∧
  refill_addr (ctl s')
  = (if negb v && rdy
     then if fin then 0%Z
          else wrap (LIMIT_WIDTH c)
                    (refill_addr (ctl s) + slice 4 (BLOCK_WIDTH c) 0)
     else refill_addr (ctl s)) ∧
  refill_valid (ctl s')
  = (if negb v && rdy then if fin then false else negb rdy else negb rdy) ∧
  Memory.imem_ready (mem s') = v ∧
  Memory.i_data_o (mem s')
  = Memory._memory (mem s) !!! mem_index aw (refill_addr (ctl s)) ∧
  Memory._memory (mem s') = Memory._memory (mem s) ∧
  cache_mem s'
  = imap (fun i ram =>
            if getbit (lru_select c (inputs_of s e)) i && rdy
            then <[ram_index c (refill_addr (ctl s))
                   := Memory.imem_rdata (mem s)]> ram
            else ram) (cache_mem s).
Proof.
  intros Hrst Hst Hv Hr fin s'. subst s' fin v rdy.
  unfold step. cbn [ctl mem cache_mem]. unfold clock.
  cbn [rst inputs_of]. rewrite Hrst.
  cbn [state refill_addr refill_valid].
  unfold n_state, n_refill_addr, n_refill_valid, fetch_fsm, final_fetch,
    mem_valid. rewrite Hst. cbn [mem_ready inputs_of].
  split; [done|]. split.
  { destruct (negb _ && _); [|done]. by destruct (_ && _ && _). }
  split.
  { destruct (negb _ && _); [|done]. by destruct (_ && _ && _). }
  do 3 (split; [reflexivity|]). reflexivity.
Qed.

End RefillArith.

Section RefillRun.

Import ICache System Refill.

Variable c : config.
Variable aw : Z.

Hypothesis block_width : (2 ≤ BLOCK_WIDTH c ≤ LIMIT_WIDTH c)%Z.
Hypothesis set_width : (0 ≤ SET_WIDTH c)%Z.

(** The stimuli, the initial state, and the ways that [lru_select]
    picks during the refill. *)
Variable e : nat → stimulus.
Variable s0 : system.
Variable sel : Z.

Hypothesis no_reset : ∀ t, s_rst (e t) = false.
Hypothesis selected : ∀ t s, lru_select c (inputs_of s (e t)) = sel.
Hypothesis in_check : state (ctl s0) = CHECK.
Hypothesis no_request : refill_valid (ctl s0) = false.
Hypothesis mem_idle : Memory.imem_ready (mem s0) = false.
Hypothesis missed : miss c (ctl s0) (inputs_of s0 (e 0)) = true.

Local Notation "'n'" := (words_per_line c).
Local Notation "'a'" := (s_cpu_addr (e 0)).
Local Notation "'M'" := (Memory._memory (mem s0)).
Local Notation "'wa'" := (word_addr c (s_cpu_addr (e 0))).
Local Notation "'P'" :=
  (phase c aw (Memory._memory (mem s0)) (s_cpu_addr (e 0)) sel (cache_mem s0)).

Lemma run_S t s : run c aw e (S t) s = step c aw (run c aw e t s) (e t).
Proof. done. Qed.

Lemma arrays_step k k' (rdy : bool) (idx : nat) (v : Z) :
  (∀ ram, (if rdy then <[idx:=v]> (filled c aw M a k ram)
           else filled c aw M a k ram) = filled c aw M a k' ram) →
  imap (fun i ram => if getbit sel i && rdy then <[idx:=v]> ram else ram)
       (arrays c aw M a sel k (cache_mem s0))
  = arrays c aw M a sel k' (cache_mem s0).
Proof.
  intros H. unfold arrays. rewrite imap_imap. apply imap_ext.
  intros i ram _. destruct (getbit sel i); simpl; [apply H|done].
Qed.

Lemma arrays_0 : arrays c aw M a sel 0 (cache_mem s0) = cache_mem s0.
Proof.
  unfold arrays. apply list_eq. intros i. rewrite list_lookup_imap.
  destruct (cache_mem s0 !! i); [|done]. simpl. by destruct (getbit sel i).
Qed.

(** The miss is taken: the first word is asked for. *)
Lemma miss_taken : P FETCH 0 (wa 0) true false 0 (run c aw e 1 s0).
Proof.
  rewrite run_S. cbn [run].
  pose proof (proj1 (miss_true c _ _) missed) as (_ & _ & Hf & Hi).
  cbn [invalidate inputs_of] in Hi.
  unfold phase, step. cbn [ctl mem cache_mem]. unfold clock.
  cbn [rst inputs_of]. rewrite no_reset.
  cbn [state refill_addr refill_valid].
  unfold n_state, n_refill_addr, n_refill_valid, fetch_fsm.
  rewrite in_check. cbn [invalidate inputs_of]. rewrite Hf, Hi, missed.
  cbn [orb fst snd cpu_addr].
  split; [done|]. split.
  { unfold word_addr, line_base. cbn [cpu_addr inputs_of]. lia. }
  split; [done|]. split; [exact no_request|]. split; [done|].
  split; [done|].
  rewrite arrays_0. apply imap_id. intros i ram.
  unfold RAM.RAM_DP, RAM.write. cbn [we cache_read_port cache_update_port].
  cbn [mem_ready inputs_of]. by rewrite mem_idle, andb_false_r.
Qed.

Lemma phase1 k s t :
  k < n → P FETCH k (wa k) true false k s →
  P FETCH k (wa k) true true k (step c aw s (e t)).
Proof.
  intros Hk (Hst & Had & Hv & Hr & Hd & HM & Hc).
  destruct (fetch_step c aw s (e t) true false (no_reset t) Hst Hv Hr)
    as (E1 & E2 & E3 & E4 & E5 & E6 & E7).
  rewrite andb_false_r in E1. cbn [andb negb] in E1, E2, E3.
  unfold phase. rewrite E1, E2, E3, E4, E5, E6, E7, Had, HM, Hc, selected.
  do 4 (split; [done|]). split; [done|]. split; [done|].
  by apply arrays_step.
Qed.

Lemma phase2 k s t :
  k < n → P FETCH k (wa k) true true k s →
  P FETCH k (wa k) false true (S k) (step c aw s (e t)).
Proof.
  intros Hk (Hst & Had & Hv & Hr & Hd & HM & Hc).
  destruct (fetch_step c aw s (e t) true true (no_reset t) Hst Hv Hr)
    as (E1 & E2 & E3 & E4 & E5 & E6 & E7).
  rewrite andb_false_r in E1. cbn [andb negb] in E1, E2, E3.
  unfold phase. rewrite E1, E2, E3, E4, E5, E6, E7, Had, HM, Hc, selected.
  do 4 (split; [done|]). split; [done|]. split; [done|].
  apply arrays_step. intros ram. rewrite filled_S.
  unfold Memory.imem_rdata. by rewrite Hr, Hd.
Qed.

Lemma phase3_next k s t :
  S k < n → P FETCH k (wa k) false true (S k) s →
  P FETCH (S k) (wa (S k)) false false (S k) (step c aw s (e t)).
Proof.
  intros Hk (Hst & Had & Hv & Hr & Hd & HM & Hc).
  destruct (fetch_step c aw s (e t) false true (no_reset t) Hst Hv Hr)
    as (E1 & E2 & E3 & E4 & E5 & E6 & E7).
  rewrite Had, final_word in E1, E2, E3 by (done || lia).
  rewrite bool_decide_eq_false_2 in E1, E2, E3 by lia.
  cbn [andb negb] in E1, E2, E3. rewrite next_word in E2 by done.
  unfold phase. rewrite E1, E2, E3, E4, E6, E7, Had, HM, Hc, selected.
  do 4 (split; [done|]). split; [done|]. split; [done|].
  apply arrays_step. intros ram. rewrite filled_S.
  unfold Memory.imem_rdata. rewrite Hr, Hd by done.
  apply list_insert_insert_eq.
Qed.

Lemma phase3_last k s t :
  S k = n → P FETCH k (wa k) false true (S k) s →
  P WAIT k 0 false false (S k) (step c aw s (e t)).
Proof.
  intros Hk (Hst & Had & Hv & Hr & Hd & HM & Hc).
  destruct (fetch_step c aw s (e t) false true (no_reset t) Hst Hv Hr)
    as (E1 & E2 & E3 & E4 & E5 & E6 & E7).
  rewrite Had, final_word in E1, E2, E3 by (done || lia).
  rewrite bool_decide_eq_true_2 in E1, E2, E3 by lia.
  cbn [andb negb] in E1, E2, E3.
  unfold phase. rewrite E1, E2, E3, E4, E6, E7, Had, HM, Hc, selected.
  do 4 (split; [done|]). split; [done|]. split; [done|].
  apply arrays_step. intros ram. rewrite filled_S.
  unfold Memory.imem_rdata. rewrite Hr, Hd by done.
  apply list_insert_insert_eq.
Qed.

Lemma phase4 k s t :
  k < n → P FETCH k (wa k) false false k s →
  P FETCH k (wa k) true false k (step c aw s (e t)).
Proof.
  intros Hk (Hst & Had & Hv & Hr & Hd & HM & Hc).
  destruct (fetch_step c aw s (e t) false false (no_reset t) Hst Hv Hr)
    as (E1 & E2 & E3 & E4 & E5 & E6 & E7).
  rewrite andb_false_r in E1. cbn [andb negb] in E1, E2, E3.
  unfold phase. rewrite E1, E2, E3, E4, E6, E7, Had, HM, Hc, selected.
  do 4 (split; [done|]). split; [done|]. split; [done|].
  by apply arrays_step.
Qed.

(** Word [k] is asked for at cycle [1 + 4k]. *)
Lemma word_requested k :
  k < n → P FETCH k (wa k) true false k (run c aw e (1 + 4 * k) s0).
Proof.
  induction k as [|k IH]; intros Hk; [apply miss_taken|].
  replace (1 + 4 * S k) with (S (S (S (S (1 + 4 * k))))) by lia.
  rewrite !run_S. apply phase4; [done|]. apply phase3_next; [done|].
  apply phase2; [lia|]. apply phase1; [lia|]. apply IH. lia.
Qed.

(** The four cycles of word [k]. *)
Lemma word_cycles k :
  k < n →
  P FETCH k (wa k) true false k (run c aw e (1 + 4 * k) s0) ∧
  P FETCH k (wa k) true true k (run c aw e (2 + 4 * k) s0) ∧
  P FETCH k (wa k) false true (S k) (run c aw e (3 + 4 * k) s0) ∧
  (S k < n →
   P FETCH (S k) (wa (S k)) false false (S k) (run c aw e (4 + 4 * k) s0)) ∧
  (S k = n → P WAIT k 0 false false (S k) (run c aw e (4 + 4 * k) s0)).
Proof.
  intros Hk. pose proof (word_requested k Hk) as H1.
  replace (2 + 4 * k) with (S (1 + 4 * k)) by lia.
  replace (3 + 4 * k) with (S (S (1 + 4 * k))) by lia.
  replace (4 + 4 * k) with (S (S (S (1 + 4 * k)))) by lia.
  rewrite !run_S.
  pose proof (phase1 k _ (1 + 4 * k) Hk H1) as H2.
  pose proof (phase2 k _ (S (1 + 4 * k)) Hk H2) as H3.
  split; [done|]. split; [done|]. split; [done|]. split.
  - intros. by apply phase3_next.
  - intros. by apply phase3_last.
Qed.




(** After the last word the controller waits one cycle and is back in
    [CHECK], the data arrays holding the line. *)
Lemma refill_done :
  state (ctl (run c aw e (4 * n + 1) s0)) = CHECK ∧
  cache_mem (run c aw e (4 * n + 1) s0) = arrays c aw M a sel n (cache_mem s0).
Proof.
  pose proof (words_per_line_pos c block_width) as Hn.
  destruct (word_cycles (n - 1) ltac:(lia)) as (_ & _ & _ & _ & H5).
  destruct H5 as (Hst & Had & Hv & Hr & Hd & HM & Hc); [lia|].
  replace (4 + 4 * (n - 1)) with (4 * n) in * by lia.
  replace (S (n - 1)) with n in * by lia.
  replace (4 * n + 1) with (S (4 * n)) by lia. rewrite run_S.
  unfold step. cbn [ctl mem cache_mem]. unfold clock.
  cbn [rst inputs_of]. rewrite no_reset. cbn [state].
  unfold n_state. rewrite Hst. split; [done|].
  rewrite Hc. apply imap_id. intros i ram.
  unfold RAM.RAM_DP, RAM.write. cbn [we cache_read_port cache_update_port].
  cbn [mem_ready inputs_of]. by rewrite Hr, andb_false_r.
Qed.


End RefillRun.

(** * Further properties of the code *)

(** ** [CacheLRU]: masks, bounds and composition *)

Section LRUMore.

Import LRU.

Variable W : nat.

Lemma bounded_of_bits v w :
  (∀ i, w ≤ i → getbit v i = false) → (0 ≤ v < 2 ^ Z.of_nat w)%Z.
Proof.
  intros H. assert (v = v mod 2 ^ Z.of_nat w)%Z as ->.
  { apply Z.bits_inj'. intros n Hn. rewrite Z.testbit_mod_pow2 by lia.
    destruct (Z.ltb_spec n (Z.of_nat w)); [done|]. simpl.
    specialize (H (Z.to_nat n) ltac:(lia)). unfold getbit in H.
    by rewrite Z2Nat.id in H. }
  apply Z.mod_pos_bound. apply Z.pow_pos_nonneg; lia.
Qed.

Lemma and_rows_range e : (0 ≤ and_rows W e < 2 ^ Z.of_nat W)%Z.
Proof.
  apply bounded_of_bits. intros i Hi. rewrite and_rows_spec.
  by rewrite decide_False by lia.
Qed.

Lemma pack_matrix_range e :
  (0 ≤ pack_matrix W e < 2 ^ Z.of_nat (history_width W))%Z.
Proof.
  apply bounded_of_bits. intros i Hi. apply pack_matrix_high.
  by rewrite <- history_width_row_offset.
Qed.

(** Steps 2, 4 and 5 read the entries of the matrix, and of them only
    those of the ways. *)
Lemma row_and_ext e e' i :
  (∀ j, j < W → mget e i j = mget e' i j) → row_and W e i = row_and W e' i.
Proof.
  intros H. destruct (row_and W e i) eqn:E, (row_and W e' i) eqn:E';
    try done.
  - rewrite row_and_true in E. rewrite <- E'. symmetry. apply row_and_true.
    intros j Hj. rewrite <- H by done. by apply E.
  - rewrite row_and_true in E'. rewrite <- E. apply row_and_true.
    intros j Hj. rewrite H by done. by apply E'.
Qed.

Lemma and_rows_ext e e' :
  (∀ i j, i < W → j < W → mget e i j = mget e' i j) →
  and_rows W e = and_rows W e'.
Proof.
  intros H. apply getbit_ext. intros i. rewrite !and_rows_spec.
  case_decide; [|done]. apply row_and_ext. intros; by apply H.
Qed.

Lemma pack_matrix_ext e e' :
  (∀ i j, i < j → j < W → mget e i j = mget e' i j) →
  pack_matrix W e = pack_matrix W e'.
Proof.
  intros H. apply getbit_ext. intros k.
  destruct (decide (k < row_offset W W)) as [Hk|Hk].
  - destruct (pair_index_surj W W k) as (i & j & Hi & Hij & Hj & ->); [done..|].
    rewrite !pack_matrix_spec by done. by apply H.
  - by rewrite !pack_matrix_high by lia.
Qed.

Lemma fill_proper h : proper_matrix W (fill_matrix W h).
Proof.
  split; [apply length_fill_matrix|]. split.
  - intros i Hi. rewrite fill_matrix_spec by done. apply matrix_of_diag.
  - intros i j Hi Hj Hij. rewrite !fill_matrix_spec by done.
    by apply matrix_of_mirror.
Qed.

Lemma touch_proper e a :
  proper_matrix W e → a < W → proper_matrix W (touch W e a).
Proof.
  intros (Hl & Hd & Hm) Ha. split; [by apply length_touch|]. split.
  - intros i Hi. rewrite touch_spec by done. rewrite decide_True by done.
    by apply Hd.
  - intros i j Hi Hj Hij. rewrite !touch_spec by done.
    specialize (Hm i j Hi Hj Hij). split_cases.
Qed.

(** Packing a proper matrix and filling it again gives its entries
    back. *)
Lemma fill_pack e i j :
  proper_matrix W e → i < W → j < W →
  mget (fill_matrix W (pack_matrix W e)) i j = mget e i j.
Proof.
  intros (Hl & Hd & Hm) Hi Hj. rewrite fill_matrix_spec by done.
  unfold matrix_of. destruct (decide (i = j)) as [->|Hij]; [by rewrite Hd|].
  case_decide.
  - by rewrite pack_matrix_spec by lia.
  - rewrite pack_matrix_spec by lia. symmetry. by apply Hm.
Qed.

Lemma touch_ext e e' a i j :
  length e = W → length e' = W →
  (∀ i j, i < W → j < W → mget e i j = mget e' i j) →
  a < W → i < W → j < W →
  mget (touch W e a) i j = mget (touch W e' a) i j.
Proof.
  intros Hl Hl' H Ha Hi Hj. rewrite !touch_spec by done.
  by rewrite H by done.
Qed.

(** The matrix after step 3, for an access vector that is zero or
    one-hot. *)
Lemma apply_access_proper access h :
  one_hot_or_zero W access →
  proper_matrix W (apply_access W access (fill_matrix W h)).
Proof.
  intros [->|(a & Ha & ->)].
  - rewrite apply_access_zero. apply fill_proper.
  - rewrite apply_access_onehot by done. apply touch_proper; [|done].
    apply fill_proper.
Qed.

(** A way older than all others is the one that [lru_pre] selects. *)
Lemma and_rows_oldest e w :
  proper_matrix W e → w < W →
  (∀ j, j < W → j ≠ w → mget e w j = true) →
  and_rows W e = onehot w.
Proof.
  intros (Hl & Hd & Hm) Hw Hmin. apply getbit_ext. intros i.
  rewrite and_rows_spec, getbit_onehot. case_decide as Hi.
  - destruct (decide (i = w)) as [->|Hne].
    + rewrite bool_decide_eq_true_2 by done. apply row_and_true.
      intros j Hj. destruct (decide (j = w)) as [->|]; [by apply Hd|].
      by apply Hmin.
    + rewrite bool_decide_eq_false_2 by (by intros ->).
      destruct (row_and W e i) eqn:E; [|done].
      rewrite row_and_true in E. specialize (E w Hw).
      rewrite Hm, Hmin in E by done. done.
  - symmetry. apply bool_decide_eq_false. lia.
Qed.

(** A transitive matrix has an oldest way among the first [n]. *)
Lemma oldest_exists h n :
  transitive_matrix W h → 0 < n → n ≤ W →
  ∃ w, w < n ∧ ∀ j, j < n → j ≠ w → matrix_of W h w j = true.
Proof.
  intros Ht Hn. induction n as [|n IH]; [lia|]. intros HW.
  destruct (decide (n = 0)) as [->|Hn0].
  { exists 0. split; [lia|]. intros; lia. }
  destruct IH as (m & Hm & Hmin); [lia|lia|].
  destruct (matrix_of W h m n) eqn:E.
  - exists m. split; [lia|]. intros j Hj Hne.
    destruct (decide (j = n)) as [->|]; [done|]. apply Hmin; [lia|done].
  - exists n. split; [lia|]. intros j Hj Hne.
    assert (matrix_of W h n m = true) as Hnm.
    { rewrite matrix_of_mirror by lia. by rewrite E. }
    destruct (decide (j = m)) as [->|Hjm]; [done|].
    apply (Ht n m j); try lia; [done|]. apply Hmin; [lia|done].
Qed.

End LRUMore.

(** X1 -- For a history word that encodes a strict total order (in
    particular every reachable one) and at least one way, [lru_pre] is
    one-hot: it selects exactly one way, a way of the set, older than
    every other way. *)
Theorem lru_pre_one_hot W h with_post access :
  0 < W → history_invariant W h →
  ∃ w, w < W ∧
       LRU.lru_pre (LRU.CacheLRU W with_post h access) = onehot w ∧
       (∀ j, j < W → j ≠ w → older W h w j) ∧
       (∀ v, LRU.lru_pre (LRU.CacheLRU W with_post h access) = onehot v →
             v = w).
Proof.
  intros HW Hinv.
  destruct (oldest_exists W h W (transitive_of_invariant W h Hinv) HW
              ltac:(lia)) as (w & Hw & Hmin).
  exists w. split; [done|].
  assert (LRU.lru_pre (LRU.CacheLRU W with_post h access) = onehot w) as E.
  { rewrite lru_pre_and_rows. apply and_rows_oldest; [apply fill_proper|done|].
    intros j Hj Hne. rewrite fill_matrix_spec by done. by apply Hmin. }
  split; [done|]. split.
  - intros j Hj Hne. split; [done|]. rewrite fill_matrix_spec by done.
    by apply Hmin.
  - intros v Hv. rewrite E in Hv.
    assert (getbit (onehot w) w = getbit (onehot v) w) as Hb by by rewrite Hv.
    rewrite !getbit_onehot in Hb. rewrite bool_decide_eq_true_2 in Hb by done.
    symmetry in Hb. by apply bool_decide_eq_true in Hb.
Qed.

Lemma lru_pre_one_hot_witness :
  ∃ w, w < 4 ∧ LRU.lru_pre (LRU.CacheLRU 4 true 0 0) = onehot w.
Proof.
  destruct (lru_pre_one_hot 4 0 true 0) as (w & Hw & E & _).
  - lia.
  - apply invariant_of_transitive, transitive_reset.
  - exists w. split; assumption.
Defined.

(** X2 -- With two ways or more, the way that is accessed is never the
    one that [lru_post] selects, whatever the history word. *)
Theorem lru_post_spares_accessed W current a :
  2 ≤ W → a < W →
  ∃ p, LRU.lru_post (LRU.CacheLRU W true current (onehot a)) = Some p ∧
       getbit p a = false.
Proof.
  intros HW Ha. eexists. split; [done|].
  rewrite apply_access_onehot by done. rewrite and_rows_spec.
  rewrite decide_True by done.
  destruct (LRU.row_and W _ a) eqn:E; [|done].
  rewrite row_and_true in E.
  assert (∃ j, j < W ∧ j ≠ a) as (j & Hj & Hne).
  { destruct a; [exists 1|exists 0]; split; lia. }
  specialize (E j Hj).
  rewrite touch_spec in E by (done || apply length_fill_matrix).
  rewrite decide_False, decide_True in E by done. done.
Qed.

Lemma lru_post_spares_accessed_witness :
  ∃ p, LRU.lru_post (LRU.CacheLRU 4 true 52 (onehot 2)) = Some p ∧
       getbit p 2 = false.
Proof. apply (lru_post_spares_accessed 4 52 2); lia. Defined.

(** X3 -- When the way accessed is not the one [lru_pre] selects, the
    access leaves the choice as it is: [lru_post] equals [lru_pre]. *)
Theorem lru_post_keeps_victim W current a w :
  a < W → w < W → a ≠ w →
  LRU.lru_pre (LRU.CacheLRU W true current (onehot a)) = onehot w →
  LRU.lru_post (LRU.CacheLRU W true current (onehot a)) = Some (onehot w).
Proof.
  intros Ha Hw Hne Hpre. rewrite lru_pre_and_rows in Hpre.
  cbn [LRU.lru_post LRU.CacheLRU LRU.step_1_post]. f_equal.
  rewrite apply_access_onehot by done.
  apply and_rows_oldest; [apply touch_proper; [apply fill_proper|done]|done|].
  intros j Hj Hjw.
  rewrite touch_spec by (done || apply length_fill_matrix).
  rewrite decide_False by done. rewrite decide_False by done.
  case_decide; [done|].
  assert (getbit (LRU.and_rows W (LRU.fill_matrix W current)) w = true) as Hb.
  { rewrite Hpre, getbit_onehot. by apply bool_decide_eq_true_2. }
  rewrite and_rows_spec, decide_True in Hb by done.
  rewrite row_and_true in Hb. by apply Hb.
Qed.

Lemma lru_post_keeps_victim_witness :
  LRU.lru_post (LRU.CacheLRU 4 true 52 (onehot 0)) = Some (onehot 2).
Proof.
  apply (lru_post_keeps_victim 4 52 0 2); [lia|lia|lia|].
  vm_compute. reflexivity.
Defined.

(** X4 -- [lru_post] is the [lru_pre] of the next evaluation: for an
    access vector that is zero or one-hot, the mask after the access
    equals the mask that the block computes before any access from the
    updated history. *)
Theorem lru_post_is_next_pre W current access access' :
  one_hot_or_zero W access →
  LRU.lru_post (LRU.CacheLRU W true current access) =
  Some (LRU.lru_pre
          (LRU.CacheLRU W true (next_history W current access) access')).
Proof.
  intros Ha. rewrite lru_pre_and_rows.
  cbn [LRU.lru_post LRU.CacheLRU LRU.step_1_post]. f_equal.
  apply and_rows_ext. intros i j Hi Hj.
  unfold next_history. cbn [LRU.update LRU.CacheLRU LRU.step_1_post].
  symmetry. apply fill_pack; [by apply apply_access_proper|done..].
Qed.

Lemma lru_post_is_next_pre_witness :
  LRU.lru_post (LRU.CacheLRU 4 true 52 (onehot 2)) =
  Some (LRU.lru_pre
          (LRU.CacheLRU 4 true (next_history 4 52 (onehot 2)) 0)).
Proof.
  apply (lru_post_is_next_pre 4 52 (onehot 2) 0).
  right. exists 2. split; [lia|reflexivity].
Defined.

(** X5 -- An access to the way accessed last changes nothing: the update
    of the updated history, for the same one-hot access, is the updated
    history. *)
Theorem access_twice W h a :
  a < W →
  next_history W (next_history W h (onehot a)) (onehot a)
  = next_history W h (onehot a).
Proof.
  intros Ha. rewrite !next_history_onehot by done.
  apply pack_matrix_ext. intros i j Hij Hj.
  assert (proper_matrix W (LRU.touch W (LRU.fill_matrix W h) a)) as Hp
    by (apply touch_proper; [apply fill_proper|done]).
  rewrite touch_spec by (lia || apply length_fill_matrix).
  rewrite fill_pack by (done || lia).
  rewrite touch_spec by (lia || apply length_fill_matrix).
  split_cases.
Qed.

Lemma access_twice_witness :
  next_history 4 (next_history 4 52 (onehot 2)) (onehot 2)
  = next_history 4 52 (onehot 2).
Proof. apply (access_twice 4 52 2). lia. Defined.

(** X6 -- The outputs fit their signals for every input: [lru_pre] and
    [lru_post] are values of [NUMWAYS] bits and [update] is a value of
    [NUMWAYS*(NUMWAYS-1)/2] bits, on both code paths. *)
Theorem lru_outputs_in_range W with_post current access :
  (0 ≤ LRU.lru_pre (LRU.CacheLRU W with_post current access)
   < 2 ^ Z.of_nat W)%Z ∧
  (0 ≤ LRU.update (LRU.CacheLRU W with_post current access)
   < 2 ^ Z.of_nat (LRU.history_width W))%Z ∧
  (∀ p, LRU.lru_post (LRU.CacheLRU W with_post current access) = Some p →
        (0 ≤ p < 2 ^ Z.of_nat W)%Z).
Proof.
  destruct with_post; cbn;
    (split; [apply and_rows_range|]; split; [apply pack_matrix_range|]).
  - intros p [= <-]. apply and_rows_range.
  - intros p [=].
Qed.

(** X7 -- An access vector with several bits set, which the block is
    not meant for, acts as the accesses to those ways made one after the
    other in the order of their numbers; the way of the highest bit ends
    as the most recently used. *)
Theorem multi_hot_is_sequential W h access :
  (0 ≤ h < 2 ^ Z.of_nat (LRU.history_width W))%Z →
  next_history W h access = sequential_accesses W h access.
Proof.
  intros Hh. unfold next_history, sequential_accesses.
  cbn [LRU.update LRU.CacheLRU LRU.step_1_post]. unfold LRU.apply_access.
  rewrite <- (pack_fill W h Hh) at 2.
  pose proof (fill_proper W h) as Hp. revert Hp.
  assert (∀ i, i ∈ seq 0 W → i < W) as Hin.
  { intros i Hi. apply elem_of_seq in Hi. lia. }
  revert Hin. generalize (LRU.fill_matrix W h). generalize (seq 0 W).
  induction l as [|i l IH]; intros e Hin Hp; [done|]. simpl.
  assert (i < W) as Hi by (apply Hin; by left).
  destruct (getbit access i).
  - rewrite IH; [|intros; apply Hin; by right|by apply touch_proper].
    f_equal. rewrite next_history_onehot by done.
    apply pack_matrix_ext. intros i' j' Hij Hj. destruct Hp as (Hl & Hd & Hm).
    apply touch_ext; try done; try lia; [apply length_fill_matrix|].
    intros i0 j0 Hi0 Hj0. symmetry. by apply fill_pack.
  - apply IH; [intros; apply Hin; by right|done].
Qed.

Lemma multi_hot_is_sequential_witness :
  next_history 4 52 6 = sequential_accesses 4 52 6.
Proof.
  apply (multi_hot_is_sequential 4 52 6). vm_compute.
  split; [discriminate|reflexivity].
Defined.

(** ** The controller: read data, access vector and tag line *)

Section CacheMore.

Import ICache.

(** The loop of [cpu_port_assign], over the first [k] ways. *)
Lemma select_none (m : Z) (d : list Z) (init : Z) k :
  (∀ i, i < k → getbit m i = true) →
  foldl (fun temp i => if negb (getbit m i) then d !!! i else temp)
        init (seq 0 k) = init.
Proof.
  induction k as [|k IH]; intros H; [done|].
  rewrite seq_S, foldl_snoc. change (0 + k) with k.
  rewrite (H k) by lia. simpl. apply IH. intros; apply H; lia.
Qed.

Lemma select_last (m : Z) (d : list Z) (init : Z) k i :
  i < k → getbit m i = false →
  (∀ j, i < j < k → getbit m j = true) →
  foldl (fun temp i => if negb (getbit m i) then d !!! i else temp)
        init (seq 0 k) = d !!! i.
Proof.
  induction k as [|k IH]; intros Hi Hhit Hrest; [lia|].
  rewrite seq_S, foldl_snoc. change (0 + k) with k.
  destruct (decide (i = k)) as [->|Hne].
  - by rewrite Hhit.
  - rewrite (Hrest k) by lia. simpl. apply IH; [lia|done|].
    intros; apply Hrest; lia.
Qed.

Lemma hit_or_none (m : Z) k :
  (∃ i, i < k ∧ getbit m i = false) ∨ (∀ i, i < k → getbit m i = true).
Proof.
  induction k as [|k [(i & Hi & H)|IH]].
  - right. intros; lia.
  - left. exists i. split; [lia|done].
  - destruct (getbit m k) eqn:E.
    + right. intros i Hi. destruct (decide (i = k)) as [->|]; [done|].
      apply IH. lia.
    + left. exists k. split; [lia|done].
Qed.

Variable c : config.

Lemma access_lru_spec x i :
  (0 ≤ WAYS c)%Z →
  getbit (access_lru c x) i =
  if decide (i < ways c) then negb (getbit (miss_w c x) i) else false.
Proof.
  intros HW. unfold access_lru, getbit, ways.
  rewrite Z.land_spec, Z.lnot_spec, Z.testbit_ones_nonneg by lia.
  case_decide.
  - replace (Z.of_nat i <? WAYS c)%Z with true
      by (symmetry; apply Z.ltb_lt; lia). by rewrite andb_true_r.
  - replace (Z.of_nat i <? WAYS c)%Z with false
      by (symmetry; apply Z.ltb_ge; lia). by rewrite andb_false_r.
Qed.

Lemma TAG_LRU_WIDTH_history :
  (0 ≤ WAYS c)%Z → TAG_LRU_WIDTH c = Z.of_nat (LRU.history_width (ways c)).
Proof.
  intros HW. unfold TAG_LRU_WIDTH, LRU.history_width, ways.
  rewrite Z.shiftr_div_pow2 by lia. change (2 ^ 1)%Z with 2%Z.
  rewrite Nat2Z.inj_div, Nat2Z.inj_mul. change (Z.of_nat 2) with 2%Z.
  f_equal. destruct (decide (WAYS c = 0%Z)) as [->|Hne]; [done|].
  rewrite Nat2Z.inj_sub by lia. rewrite Z2Nat.id by lia. done.
Qed.

End CacheMore.

(** X8 -- The read data handed to the CPU: when no way hits it is the
    constant [0x12345678]; otherwise it is the word read from the data
    array of the hitting way, and of the one with the highest number
    when several ways hit. *)
Theorem cpu_rdata_select c x :
  ((∀ i, i < ICache.ways c → getbit (ICache.miss_w c x) i = true) →
   ICache.cpu_rdata c x = 0x12345678%Z) ∧
  (∀ i, i < ICache.ways c → getbit (ICache.miss_w c x) i = false →
        (∀ j, i < j < ICache.ways c → getbit (ICache.miss_w c x) j = true) →
        ICache.cpu_rdata c x = ICache.data_cache x !!! i).
Proof.
  split.
  - intros H. by apply select_none.
  - intros i Hi Hhit Hrest. by apply select_last.
Qed.

Lemma cpu_rdata_select_witness :
  ICache.cpu_rdata default_config read_hit_inputs = 0xAA%Z.
Proof.
  refine (proj2 (cpu_rdata_select default_config read_hit_inputs) 0 _ _ _).
  - vm_compute. lia.
  - reflexivity.
  - intros j Hj. change (ICache.ways default_config) with 2 in Hj.
    destruct j as [|[|j]]; [lia|reflexivity|lia].
Defined.

(** X9 -- The access vector handed to [CacheLRU] is the complement of
    the miss bits cut to the ways: bit [i] is set exactly for a way that
    hits.  When at most one way hits it is zero or one-hot, as the block
    expects. *)
Theorem access_lru_one_hot c x :
  (0 ≤ ICache.WAYS c)%Z →
  (∀ i j, i < ICache.ways c → j < ICache.ways c →
          getbit (ICache.miss_w c x) i = false →
          getbit (ICache.miss_w c x) j = false → i = j) →
  (∀ i, getbit (ICache.access_lru c x) i =
        if decide (i < ICache.ways c)
        then negb (getbit (ICache.miss_w c x) i) else false) ∧
  one_hot_or_zero (ICache.ways c) (ICache.access_lru c x).
Proof.
  intros HW Hone. split; [intros; by apply access_lru_spec|].
  destruct (hit_or_none (ICache.miss_w c x) (ICache.ways c))
    as [(w & Hw & Hhit)|Hnone].
  - right. exists w. split; [done|]. apply getbit_ext. intros i.
    rewrite access_lru_spec, getbit_onehot by done.
    case_decide as Hi.
    + destruct (getbit (ICache.miss_w c x) i) eqn:E; simpl.
      * symmetry. apply bool_decide_eq_false. intros ->. congruence.
      * symmetry. apply bool_decide_eq_true. by apply Hone.
    + symmetry. apply bool_decide_eq_false. lia.
  - left. apply getbit_ext. intros i.
    rewrite access_lru_spec, getbit_zero by done.
    case_decide as Hi; [|done]. by rewrite Hnone.
Qed.

Lemma access_lru_one_hot_witness :
  one_hot_or_zero (ICache.ways default_config)
                  (ICache.access_lru default_config write_hit_inputs).
Proof.
  destruct (access_lru_one_hot default_config write_hit_inputs) as [_ H].
  - vm_compute. discriminate.
  - intros i j Hi Hj.
    change (ICache.ways default_config) with 2 in Hi, Hj.
    destruct i as [|[|i]], j as [|[|j]]; try lia; try done;
      vm_compute; discriminate.
  - exact H.
Defined.

Section TagLine.

Import ICache.

Lemma pack_entries_high (f : nat → Z) w k n :
  (0 ≤ w)%Z → (∀ i, 0 ≤ f i < 2 ^ w)%Z → (w * Z.of_nat k ≤ n)%Z →
  Z.testbit (foldl (fun temp i =>
                      set_slice temp (w * (Z.of_nat i + 1)) (w * Z.of_nat i)
                                (f i)) 0%Z (seq 0 k)) n = false.
Proof.
  intros Hw Hf. induction k as [|k IH]; intros Hn; [apply Z.testbit_0_l|].
  rewrite seq_S, foldl_snoc. change (0 + k) with k.
  rewrite testbit_set_slice by nia. rewrite IH by nia. simpl.
  apply (testbit_small _ w); [apply Hf|nia].
Qed.

Variable c : config.

Hypothesis widths : (0 ≤ WAY_WIDTH c ≤ LIMIT_WIDTH c)%Z.
Hypothesis ways_nonneg : (0 ≤ WAYS c)%Z.

Lemma lru_in_range r x : (0 ≤ lru_in c r x < 2 ^ TAG_LRU_WIDTH c)%Z.
Proof.
  pose proof (TAG_LRU_WIDTH_nonneg c) as Hl.
  assert (0 ≤ TAGMEM_WAY_WIDTH c * WAYS c)%Z
    by (unfold TAGMEM_WAY_WIDTH, TAG_WIDTH; nia).
  assert (0 ≤ lru_out c x < 2 ^ TAG_LRU_WIDTH c)%Z as Hout.
  { unfold lru_out.
    replace (TAG_LRU_WIDTH c)
      with (TAGMEM_WIDTH c - TAGMEM_WAY_WIDTH c * WAYS c)%Z
      by (unfold TAGMEM_WIDTH; lia).
    apply slice_range. unfold TAGMEM_WIDTH. lia. }
  unfold lru_in. destruct (state r); try done.
  destruct (miss c r x); [done|].
  rewrite TAG_LRU_WIDTH_history by done. apply pack_matrix_range.
Qed.

Lemma tag_line_lru r x :
  slice (data_i (tag_rw_port c r x)) (TAGMEM_WIDTH c)
        (TAGMEM_WAY_WIDTH c * WAYS c) = lru_in c r x.
Proof.
  pose proof (TAG_LRU_WIDTH_nonneg c) as Hl.
  assert (0 ≤ TAGMEM_WAY_WIDTH c * WAYS c)%Z
    by (unfold TAGMEM_WAY_WIDTH, TAG_WIDTH; nia).
  unfold tag_rw_port. cbn [data_i].
  apply slice_set_slice_same; [unfold TAGMEM_WIDTH; lia|].
  replace (TAGMEM_WIDTH c - TAGMEM_WAY_WIDTH c * WAYS c)%Z
    with (TAG_LRU_WIDTH c) by (unfold TAGMEM_WIDTH; lia).
  apply lru_in_range.
Qed.

Lemma tag_line_range r x :
  (0 ≤ data_i (tag_rw_port c r x) < 2 ^ TAGMEM_WIDTH c)%Z.
Proof.
  pose proof (TAG_LRU_WIDTH_nonneg c) as Hl.
  assert (0 ≤ TAGMEM_WAY_WIDTH c)%Z
    by (unfold TAGMEM_WAY_WIDTH, TAG_WIDTH; lia).
  assert (0 ≤ TAGMEM_WIDTH c)%Z by (unfold TAGMEM_WIDTH; nia).
  cut (0 ≤ data_i (tag_rw_port c r x)
       < 2 ^ Z.of_nat (Z.to_nat (TAGMEM_WIDTH c)))%Z;
    [by rewrite Z2Nat.id|].
  apply bounded_of_bits. intros i Hi. unfold getbit, tag_rw_port.
  cbn [data_i]. rewrite testbit_set_slice by (unfold TAGMEM_WIDTH; nia).
  rewrite (pack_entries_high (tag_in c r x));
    [|done|intros; by apply tag_in_range
     |unfold ways; rewrite Z2Nat.id by done; unfold TAGMEM_WIDTH in *; lia].
  simpl. apply (testbit_small _ (TAG_LRU_WIDTH c)); [apply lru_in_range|].
  unfold TAGMEM_WIDTH in *. lia.
Qed.

(** The entry of a way that a miss selects, read back for a request
    with the same tag, hits. *)
Lemma written_entry_hits r x x' w :
  state r = CHECK → miss c r x = true →
  w < ways c → getbit (lru_select c x) w = true →
  tag_data_o x' = data_i (tag_rw_port c r x) →
  request_tag c x' = request_tag c x →
  getbit (miss_w c x') w = false.
Proof.
  intros Hs Hm Hw Hsel Hline Htag.
  assert (tag_out c x' w = concat 1 (request_tag c x) (TAG_WIDTH c)) as E.
  { change (tag_out c x' w) with (way_entry c (tag_data_o x') w).
    rewrite Hline, tag_rw_port_entry by done.
    unfold tag_in. by rewrite Hs, Hm, Hsel. }
  rewrite miss_w_spec, decide_True by done.
  rewrite E, new_entry_valid, new_entry_tag, Htag by done.
  by rewrite Z.eqb_refl.
Qed.

End TagLine.

(** X10 -- The tag line round trip through [tag_rport]: the word put on
    the read/write port fits the [TAGMEM_WIDTH] bits of the tag RAM, and
    when it is read back, every way entry [tag_out] is the [tag_in]
    written and the history [lru_out] is the [lru_in] written. *)
Theorem tag_line_round_trip c r x x' :
  (0 ≤ ICache.WAY_WIDTH c ≤ ICache.LIMIT_WIDTH c)%Z →
  (0 ≤ ICache.WAYS c)%Z →
  ICache.tag_data_o x' = ICache.data_i (ICache.tag_rw_port c r x) →
  (0 ≤ ICache.tag_data_o x' < 2 ^ ICache.TAGMEM_WIDTH c)%Z ∧
  (∀ i, i < ICache.ways c → ICache.tag_out c x' i = ICache.tag_in c r x i) ∧
  ICache.lru_out c x' = ICache.lru_in c r x.
Proof.
  intros Hw HW Hline. split; [rewrite Hline; by apply tag_line_range|].
  split.
  - intros i Hi.
    change (ICache.tag_out c x' i)
      with (ICache.way_entry c (ICache.tag_data_o x') i).
    rewrite Hline. by apply tag_rw_port_entry.
  - unfold ICache.lru_out. rewrite Hline. by apply tag_line_lru.
Qed.

Lemma tag_line_round_trip_witness :
  ICache.lru_out default_config
    {| ICache.rst := false; ICache.invalidate := false;
       ICache.cpu_addr := 0; ICache.cpu_fcn := ICache.M_RD;
       ICache.cpu_valid := false; ICache.mem_ready := false;
       ICache.mem_rdata := 0; ICache.mem_fault := false;
       ICache.tag_data_o :=
         ICache.data_i
           (ICache.tag_rw_port default_config pending_regs write_hit_inputs);
       ICache.data_cache := [] |}
  = ICache.lru_in default_config pending_regs write_hit_inputs.
Proof.
  refine (proj2 (proj2 (tag_line_round_trip default_config pending_regs
                          write_hit_inputs _ _ _ _)));
    [vm_compute; split; discriminate|vm_compute; discriminate|reflexivity].
Defined.

(** X11 -- A line written on a miss hits afterwards: when the tag line
    that a miss in [CHECK] puts on the read/write port is read back for
    a request with the same tag, the way selected for eviction hits, so
    miss is not asserted, and a pending read in [CHECK] is answered with
    [cpu.ready]. *)
Theorem refilled_line_hits c r x r' x' w :
  (0 ≤ ICache.WAY_WIDTH c ≤ ICache.LIMIT_WIDTH c)%Z →
  ICache.state r = ICache.CHECK → ICache.miss c r x = true →
  w < ICache.ways c → getbit (ICache.lru_select c x) w = true →
  ICache.tag_data_o x' = ICache.data_i (ICache.tag_rw_port c r x) →
  ICache.request_tag c x' = ICache.request_tag c x →
  getbit (ICache.miss_w c x') w = false ∧
  ICache.miss c r' x' = false ∧
  (ICache.state r' = ICache.CHECK → ICache.valid_q r' = true →
   ICache.cpu_fcn x' = ICache.M_RD → ICache.cpu_ready c r' x' = true).
Proof.
  intros Hwd Hs Hm Hw Hsel Hline Htag.
  pose proof (written_entry_hits c Hwd r x x' w Hs Hm Hw Hsel Hline Htag)
    as Hhit.
  assert (ICache.miss_w_and c x' = false) as Hand.
  { destruct (ICache.miss_w_and c x') eqn:E; [|done].
    rewrite miss_w_and_true in E. specialize (E w Hw). congruence. }
  split; [done|]. split.
  - unfold ICache.miss. by rewrite Hand.
  - intros Hs' Hv Hf. unfold ICache.cpu_ready, ICache.busy.
    by rewrite Hs', Hf, Hv, Hand.
Qed.

Lemma refilled_line_hits_witness :
  getbit
    (ICache.miss_w default_config
       {| ICache.rst := false; ICache.invalidate := false;
          ICache.cpu_addr := 0; ICache.cpu_fcn := ICache.M_RD;
          ICache.cpu_valid := false; ICache.mem_ready := false;
          ICache.mem_rdata := 0; ICache.mem_fault := false;
          ICache.tag_data_o :=
            ICache.data_i
              (ICache.tag_rw_port default_config idle_regs idle_inputs);
          ICache.data_cache := [] |}) 1 = false.
Proof.
  refine (proj1 (refilled_line_hits default_config idle_regs idle_inputs
                   idle_regs _ 1 _ _ _ _ _ _ _));
    [vm_compute; split; discriminate|reflexivity|reflexivity
    |vm_compute; lia|reflexivity|reflexivity|reflexivity].
Defined.

(** ** The flush port *)

Section FlushPort.

Import ICache.

Variable c : config.

(** The flush port is enabled only in the states of a sweep. *)
Lemma flush_we_states r x :
  flush_we (clock c r x) = true →
  state (clock c r x) = FLUSH ∨ state (clock c r x) = FLUSH_LAST.
Proof.
  unfold clock. destruct (rst x); [done|]. cbn [flush_we state].
  unfold n_flush_we, flush_next_state, n_state.
  destruct (state r); cbn [fst snd]; try done.
  - destruct (flush r || invalidate x); [by left|done].
  - destruct (final_flush r); [by right|by left].
Qed.

Hypothesis set_width : (1 ≤ SET_WIDTH c)%Z.

Lemma flush_wrap :
  wrap (SET_WIDTH c) (0 - slice 1 (SET_WIDTH c) 0) = (2 ^ SET_WIDTH c - 1)%Z.
Proof.
  pose proof (flush_down c (2 ^ SET_WIDTH c - 1) set_width) as H.
  assert (0 < 2 ^ SET_WIDTH c)%Z by (apply Z.pow_pos_nonneg; lia).
  specialize (H ltac:(lia)). unfold wrap in *.
  replace (2 ^ SET_WIDTH c - 1 + 1 - slice 1 (SET_WIDTH c) 0)%Z
    with (0 - slice 1 (SET_WIDTH c) 0 + 1 * 2 ^ SET_WIDTH c)%Z in H by lia.
  by rewrite Z_mod_plus_full in H.
Qed.

Variable xs : nat → inputs.

Hypothesis no_reset : ∀ t, rst (xs t) = false.

Lemma flush_we_next r0 t :
  flush_we (run c xs (S t) r0) = n_flush_we c (run c xs t r0) (xs t) ∧
  flush_addr (run c xs (S t) r0) = n_flush_addr c (run c xs t r0) (xs t) ∧
  state (run c xs (S t) r0) = n_state c (run c xs t r0) (xs t).
Proof. cbn [run]. unfold clock. by rewrite no_reset. Qed.

(** The port during a sweep that starts in [FLUSH] at address [k]. *)
Lemma sweep_port r0 t k :
  state (run c xs t r0) = FLUSH →
  flush_addr (run c xs t r0) = Z.of_nat k →
  (Z.of_nat k < 2 ^ SET_WIDTH c)%Z →
  (∀ j, 1 ≤ j ≤ k →
        tag_flush_port c (run c xs (t + j) r0)
        = {| addr := Z.of_nat (k - j); data_i := 0; we := true |}) ∧
  tag_flush_port c (run c xs (t + S k) r0)
  = {| addr := 2 ^ SET_WIDTH c - 1; data_i := 0; we := true |} ∧
  state (run c xs (t + S k) r0) = FLUSH_LAST ∧
  state (run c xs (t + S (S k)) r0) = WAIT ∧
  flush_we (run c xs (t + S (S k)) r0) = false ∧
  state (run c xs (t + S (S (S k))) r0) = CHECK ∧
  flush_we (run c xs (t + S (S (S k))) r0) = false.
Proof.
  intros Hs Ha Hk.
  destruct (sweep_runs c xs set_width no_reset r0 t k Hs Ha Hk)
    as [Hrun Hlast].
  assert (∀ j, j ≤ k → flush_we (run c xs (t + S j) r0) = true) as Hwe.
  { intros j Hj. destruct (Hrun j Hj) as [Hsj _].
    replace (t + S j) with (S (t + j)) by lia.
    destruct (flush_we_next r0 (t + j)) as (-> & _).
    unfold n_flush_we, flush_next_state. by rewrite Hsj. }
  split; [|split; [|split; [done|]]].
  - intros j Hj. destruct (Hrun j ltac:(lia)) as [_ Haj].
    unfold tag_flush_port. rewrite Haj, slice_zero.
    replace (t + j) with (t + S (j - 1)) by lia. rewrite Hwe by lia. done.
  - unfold tag_flush_port. rewrite Hwe, slice_zero by lia. f_equal.
    destruct (Hrun k ltac:(lia)) as [Hsk Hak].
    replace (t + S k) with (S (t + k)) by lia.
    destruct (flush_we_next r0 (t + k)) as (_ & -> & _).
    unfold n_flush_addr, flush_next_state. rewrite Hsk, Hak. cbn [fst snd].
    replace (k - k) with 0 by lia. apply flush_wrap.
  - assert (state (run c xs (t + S (S k)) r0) = WAIT ∧
            flush_we (run c xs (t + S (S k)) r0) = false) as [Hw Hwf].
    { replace (t + S (S k)) with (S (t + S k)) by lia.
      destruct (flush_we_next r0 (t + S k)) as (-> & _ & ->).
      unfold n_flush_we, flush_next_state, n_state. by rewrite Hlast. }
    split; [done|]. split; [done|].
    replace (t + S (S (S k))) with (S (t + S (S k))) by lia.
    destruct (flush_we_next r0 (t + S (S k))) as (-> & _ & ->).
    unfold n_flush_we, flush_next_state, n_state. by rewrite Hw.
Qed.

End FlushPort.

(** X12 -- After any clock edge the two ports of the tag RAM never write
    in the same cycle: the read/write port writes only in [CHECK], the
    flush port only in [FLUSH] and [FLUSH_LAST]. *)
Theorem tag_ports_exclusive c r x x' :
  ¬ (ICache.we (ICache.tag_rw_port c (ICache.clock c r x) x') = true ∧
     ICache.we (ICache.tag_flush_port c (ICache.clock c r x)) = true).
Proof.
  intros [Hrw Hfl]. cbn [ICache.we ICache.tag_rw_port] in Hrw.
  cbn [ICache.we ICache.tag_flush_port] in Hfl.
  apply tag_we_check in Hrw.
  destruct (flush_we_states c r x Hfl) as [H|H]; congruence.
Qed.

(** X13 -- Reset invalidates the whole tag store.  In the cycles after a
    reset, the flush port writes a zero line to every set: the sets
    below the last one while the address counts down in [FLUSH], the
    last one in [FLUSH_LAST], after the address has wrapped around.
    Until then the controller answers no request and the read/write port
    is idle; two cycles after [FLUSH_LAST] it is in [CHECK] with the
    flush port off. *)
Theorem reset_flush_complete c r x0 xs :
  (1 ≤ ICache.SET_WIDTH c)%Z →
  ICache.rst x0 = true →
  (∀ t, ICache.rst (xs t) = false) →
  let r0 := ICache.clock c r x0 in
  let N := Z.to_nat (2 ^ ICache.SET_WIDTH c) in
  (∀ s, s < N →
        ∃ t, 1 ≤ t ≤ N ∧
             ICache.tag_flush_port c (ICache.run c xs t r0)
             = {| ICache.addr := Z.of_nat s; ICache.data_i := 0;
                  ICache.we := true |}) ∧
  (∀ t x, t ≤ N + 1 →
          ICache.cpu_ready c (ICache.run c xs t r0) x = false ∧
          ICache.tag_we c (ICache.run c xs t r0) x = false) ∧
  ICache.state (ICache.run c xs (N + 2) r0) = ICache.CHECK ∧
  ICache.flush_we (ICache.run c xs (N + 2) r0) = false.
Proof.
  intros Hsw Hrst Hno r0 N.
  assert (0 < 2 ^ ICache.SET_WIDTH c)%Z as Hpos
    by (apply Z.pow_pos_nonneg; lia).
  assert (Z.of_nat N = 2 ^ ICache.SET_WIDTH c)%Z as HN
    by (unfold N; lia).
  assert (ICache.state (ICache.run c xs 0 r0) = ICache.FLUSH) as Hs
    by (cbn [ICache.run]; unfold r0, ICache.clock; by rewrite Hrst).
  assert (ICache.flush_addr (ICache.run c xs 0 r0) = Z.of_nat (N - 1)) as Ha.
  { cbn [ICache.run]. unfold r0, ICache.clock. rewrite Hrst.
    cbn [ICache.flush_addr]. rewrite flush_top by done. lia. }
  destruct (sweep_port c Hsw xs Hno r0 0 (N - 1) Hs Ha ltac:(lia))
    as (Hdown & Htop & Hlast & Hwait & _ & Hcheck & Hoff).
  destruct (sweep_runs c xs Hsw Hno r0 0 (N - 1) Hs Ha ltac:(lia))
    as [Hrun _].
  split; [|split].
  - intros s Hlt. destruct (decide (s = N - 1)) as [->|Hne].
    + exists N. split; [lia|].
      replace N with (0 + S (N - 1)) at 1 by lia. rewrite Htop.
      f_equal. lia.
    + exists (N - 1 - s). split; [lia|].
      pose proof (Hdown (N - 1 - s) ltac:(lia)) as E. cbn [Nat.add] in E.
      rewrite E. f_equal. lia.
  - intros t x Ht.
    assert (ICache.state (ICache.run c xs t r0) ≠ ICache.CHECK) as Hbusy.
    { destruct (decide (t ≤ N - 1)) as [Hle|Hgt].
      - destruct (Hrun t Hle) as [E _]. simpl in E. by rewrite E.
      - destruct (decide (t = N)) as [->|Hne'].
        + replace N with (0 + S (N - 1)) at 1 by lia. by rewrite Hlast.
        + replace t with (0 + S (S (N - 1))) by lia. by rewrite Hwait. }
    split; [by apply busy_not_ready|].
    destruct (ICache.tag_we c (ICache.run c xs t r0) x) eqn:E; [|done].
    by apply tag_we_check in E.
  - replace (N + 2) with (0 + S (S (S (N - 1)))) by lia. done.
Qed.

Lemma reset_flush_complete_witness :
  ICache.state
    (ICache.run small_config (fun _ => idle_inputs) 4
       (ICache.clock small_config idle_regs reset_inputs)) = ICache.CHECK.
Proof.
  refine (proj1 (proj2 (proj2
            (reset_flush_complete small_config idle_regs reset_inputs
               (fun _ => idle_inputs) _ _ _))));
    [vm_compute; discriminate|reflexivity|reflexivity].
Defined.

(** ** Reading a refilled line *)

Section RefillRead.

Import ICache System Refill.

Variable c : config.
Variable aw : Z.

Hypothesis block_width : (2 ≤ BLOCK_WIDTH c ≤ LIMIT_WIDTH c)%Z.
Hypothesis set_width : (0 ≤ SET_WIDTH c)%Z.
Hypothesis way_width : (WAY_WIDTH c ≤ LIMIT_WIDTH c)%Z.

(** The word of address [a] in its block. *)
Lemma block_word_lt a :
  Z.to_nat (slice a (BLOCK_WIDTH c) 2) < words_per_line c.
Proof.
  pose proof (slice_range a (BLOCK_WIDTH c) 2 ltac:(lia)).
  unfold words_per_line. lia.
Qed.

(** The address of that word: [a], cut to [LIMIT_WIDTH] bits, with the
    byte offset cleared. *)
Lemma block_word_addr a :
  word_addr c a (Z.to_nat (slice a (BLOCK_WIDTH c) 2))
  = (wrap (LIMIT_WIDTH c) a - a mod 4)%Z.
Proof.
  pose proof (slice_range a (BLOCK_WIDTH c) 2 ltac:(lia)).
  unfold word_addr. rewrite line_base_eq by done.
  rewrite Z2Nat.id by lia. rewrite !slice_div_mod by lia. unfold wrap.
  assert (0 < 2 ^ BLOCK_WIDTH c)%Z by (apply Z.pow_pos_nonneg; lia).
  assert (0 < 2 ^ (LIMIT_WIDTH c - BLOCK_WIDTH c))%Z
    by (apply Z.pow_pos_nonneg; lia).
  assert (0 < 2 ^ (BLOCK_WIDTH c - 2))%Z by (apply Z.pow_pos_nonneg; lia).
  replace (2 ^ LIMIT_WIDTH c)%Z
    with (2 ^ BLOCK_WIDTH c * 2 ^ (LIMIT_WIDTH c - BLOCK_WIDTH c))%Z
    by (rewrite <- Z.pow_add_r by lia; f_equal; lia).
  rewrite Z.rem_mul_r by lia.
  replace (2 ^ BLOCK_WIDTH c)%Z with (4 * 2 ^ (BLOCK_WIDTH c - 2))%Z at 3
    by (change 4%Z with (2 ^ 2)%Z; rewrite <- Z.pow_add_r by lia;
        f_equal; lia).
  rewrite Z.rem_mul_r by lia. change (2 ^ 2)%Z with 4%Z. lia.
Qed.

Lemma wrap_mod_4 a : (wrap (LIMIT_WIDTH c) a mod 4 = a mod 4)%Z.
Proof.
  unfold wrap.
  assert (0 < 2 ^ (LIMIT_WIDTH c - 2))%Z by (apply Z.pow_pos_nonneg; lia).
  replace (2 ^ LIMIT_WIDTH c)%Z with (4 * 2 ^ (LIMIT_WIDTH c - 2))%Z
    by (change 4%Z with (2 ^ 2)%Z; rewrite <- Z.pow_add_r by lia;
        f_equal; lia).
  rewrite Z.rem_mul_r by lia.
  rewrite (Z.mul_comm 4), Z_mod_plus_full. apply Z.mod_mod. lia.
Qed.

Lemma slice_block_word a hi :
  slice (word_addr c a (Z.to_nat (slice a (BLOCK_WIDTH c) 2))) hi 2
  = slice (wrap (LIMIT_WIDTH c) a) hi 2.
Proof.
  rewrite block_word_addr. unfold slice. f_equal.
  rewrite <- wrap_mod_4.
  assert (wrap (LIMIT_WIDTH c) a - wrap (LIMIT_WIDTH c) a mod 4
          = wrap (LIMIT_WIDTH c) a / 4 * 4)%Z as ->.
  { pose proof (Z.div_mod (wrap (LIMIT_WIDTH c) a) 4 ltac:(lia)). lia. }
  rewrite !Z.shiftr_div_pow2 by lia. change (2 ^ 2)%Z with 4%Z.
  by rewrite Z.div_mul by lia.
Qed.

Lemma slice_wrap a hi :
  (2 ≤ hi ≤ LIMIT_WIDTH c)%Z →
  slice (wrap (LIMIT_WIDTH c) a) hi 2 = slice a hi 2.
Proof.
  intros Hhi. apply Z.bits_inj'. intros n Hn.
  rewrite !testbit_slice by lia. unfold wrap.
  rewrite Z.testbit_mod_pow2 by lia.
  destruct (Z.ltb_spec n (hi - 2)); [|by rewrite !andb_false_r].
  replace (n + 2 <? LIMIT_WIDTH c)%Z with true
    by (symmetry; apply Z.ltb_lt; lia). done.
Qed.

(** Where the read port finds the word of [a'], an address in the line
    of [a], after the line was stored. *)
Lemma filled_read M a a' (ram : list Z) :
  slice a' (LIMIT_WIDTH c) (BLOCK_WIDTH c)
  = slice a (LIMIT_WIDTH c) (BLOCK_WIDTH c) →
  length ram = Z.to_nat (2 ^ (WAY_WIDTH c - 2)) →
  filled c aw M a (words_per_line c) ram !!! ram_index c a'
  = M !!! mem_index aw (wrap (LIMIT_WIDTH c) a').
Proof.
  intros Hline Hlen.
  pose proof (block_word_lt a') as Hk.
  set (k := Z.to_nat (slice a' (BLOCK_WIDTH c) 2)) in *.
  assert (word_addr c a k = word_addr c a' k) as Hwa
    by (unfold word_addr, line_base; by rewrite Hline).
  assert (ram_index c a' = ram_base c a + k) as ->.
  { rewrite <- (ram_index_word c block_width set_width a k Hk), Hwa.
    unfold ram_index, k. rewrite slice_block_word.
    rewrite slice_wrap; [done|]. unfold WAY_WIDTH in *. lia. }
  pose proof (ram_base_range c block_width set_width a) as Hr.
  destruct (filled_spec c aw block_width set_width M a ram
              (words_per_line c) ltac:(lia) ltac:(lia)) as (_ & Hin & _).
  rewrite Hin by done. rewrite Hwa. unfold mem_index, k.
  by rewrite slice_block_word.
Qed.

Variable e : nat → stimulus.
Variable s0 : system.
Variable sel : Z.

Hypothesis no_reset : ∀ t, s_rst (e t) = false.
Hypothesis selected : ∀ t s, lru_select c (inputs_of s (e t)) = sel.
Hypothesis in_check : state (ctl s0) = CHECK.
Hypothesis no_request : refill_valid (ctl s0) = false.
Hypothesis mem_idle : Memory.imem_ready (mem s0) = false.
Hypothesis missed : miss c (ctl s0) (inputs_of s0 (e 0)) = true.
Hypothesis sizes :
  ∀ ram, ram ∈ cache_mem s0 → length ram = Z.to_nat (2 ^ (WAY_WIDTH c - 2)).

(** X14 -- A refilled line can be read.  With the memory of
    [Simulation/core/memory.py] behind the cache, blocks of at least one
    word and no reset: once the refill that follows a miss is over, the
    read port of a data array that the evict mask selected finds, for
    every request address in the line of the missed address, the word
    that the memory holds at that address (cut to [LIMIT_WIDTH] bits). *)
Theorem refilled_line_readable w ram x :
  cache_mem s0 !! w = Some ram → getbit sel w = true →
  slice (cpu_addr x) (LIMIT_WIDTH c) (BLOCK_WIDTH c)
  = slice (s_cpu_addr (e 0)) (LIMIT_WIDTH c) (BLOCK_WIDTH c) →
  ∃ ram',
    cache_mem (run c aw e (4 * words_per_line c + 1) s0) !! w = Some ram' ∧
    ram' !!! Z.to_nat (addr (cache_read_port c x w))
    = Memory._memory (mem s0)
        !!! mem_index aw (wrap (LIMIT_WIDTH c) (cpu_addr x)).
Proof.
  intros Hw Hsel Hline.
  destruct (refill_done c aw block_width e s0 sel no_reset selected in_check
              no_request mem_idle missed) as [_ ->].
  unfold arrays. rewrite list_lookup_imap, Hw. cbn [fmap option_fmap option_map].
  rewrite Hsel. eexists. split; [done|].
  change (Z.to_nat (addr (cache_read_port c x w)))
    with (ram_index c (cpu_addr x)).
  apply filled_read; [done|]. apply sizes. by eapply list_elem_of_lookup_2.
Qed.

End RefillRead.

Lemma refilled_line_readable_witness :
  ∃ ram',
    System.cache_mem (System.run small_config 12 small_stimuli 9 small_system)
      !! 1 = Some ram' ∧
    ram' !!! Z.to_nat (ICache.addr
                         (ICache.cache_read_port small_config
                            (System.inputs_of small_system (small_stimuli 0))
                            1))
    = Memory._memory (System.mem small_system)
        !!! Refill.mem_index 12
              (wrap (ICache.LIMIT_WIDTH small_config)
                 (ICache.cpu_addr
                    (System.inputs_of small_system (small_stimuli 0)))).
Proof.
  apply (refilled_line_readable small_config 12 ltac:(simpl; lia)
           ltac:(simpl; lia) ltac:(vm_compute; discriminate)
           small_stimuli small_system (onehot 1)) with (ram := [0; 0; 0; 0]%Z).
  - reflexivity.
  - intros t s. vm_compute. reflexivity.
  - reflexivity.
  - reflexivity.
  - reflexivity.
  - vm_compute. reflexivity.
  - intros ram Hin. apply list_elem_of_In in Hin.
    destruct Hin as [<-|[<-|[]]]; reflexivity.
  - reflexivity.
  - reflexivity.
  - reflexivity.
Defined.

(** ** The history in the tag line and the choice of the victim *)

Section VictimChoice.

Import ICache.

(** The way just accessed is not the oldest in the updated history. *)
Lemma accessed_not_oldest W h a b x :
  2 ≤ W → a < W →
  getbit (LRU.lru_pre (LRU.CacheLRU W b (next_history W h (onehot a)) x)) a
  = false.
Proof.
  intros HW Ha. rewrite lru_pre_and_rows, next_history_onehot by done.
  assert (proper_matrix W (LRU.touch W (LRU.fill_matrix W h) a)) as Hp
    by (apply touch_proper; [apply fill_proper|done]).
  rewrite (and_rows_ext W _ (LRU.touch W (LRU.fill_matrix W h) a))
    by (intros; by apply fill_pack).
  rewrite and_rows_spec, decide_True by done.
  destruct (LRU.row_and W _ a) eqn:E; [|done].
  rewrite row_and_true in E.
  assert (∃ j, j < W ∧ j ≠ a) as (j & Hj & Hne).
  { destruct a; [exists 1|exists 0]; split; lia. }
  specialize (E j Hj).
  rewrite touch_spec in E by (done || apply length_fill_matrix).
  rewrite decide_False, decide_True in E by done. done.
Qed.

Variable c : config.

Hypothesis widths : (0 ≤ WAY_WIDTH c ≤ LIMIT_WIDTH c)%Z.
Hypothesis ways_nonneg : (0 ≤ WAYS c)%Z.

Lemma access_lru_single x w :
  w < ways c → getbit (miss_w c x) w = false →
  (∀ j, j < ways c → j ≠ w → getbit (miss_w c x) j = true) →
  access_lru c x = onehot w.
Proof.
  intros Hw Hhit Hrest. apply getbit_ext. intros i.
  rewrite access_lru_spec, getbit_onehot by done. case_decide as Hi.
  - destruct (decide (w = i)) as [<-|Hne].
    + rewrite Hhit. symmetry. by apply bool_decide_eq_true.
    + rewrite Hrest by done. symmetry. by apply bool_decide_eq_false.
  - symmetry. apply bool_decide_eq_false. lia.
Qed.

(** The victim that the controller selects from a tag line read back. *)
Lemma lru_select_read_back r x x' :
  tag_data_o x' = data_i (tag_rw_port c r x) →
  lru_select c x' = LRU.and_rows (ways c) (LRU.fill_matrix (ways c)
                                             (lru_in c r x)).
Proof.
  intros Hline. unfold lru_select, lru_pre, lru_m.
  rewrite lru_pre_and_rows. unfold current_lru, lru_out.
  by rewrite Hline, tag_line_lru.
Qed.

End VictimChoice.

(** X15 -- A way that hits is not the next victim.  With two ways or
    more, when exactly one way hits in [CHECK] and the tag line written
    in that cycle is read back, the evict mask does not select the way
    that hit. *)
Theorem hit_way_not_evicted c r x x' w :
  (0 ≤ ICache.WAY_WIDTH c ≤ ICache.LIMIT_WIDTH c)%Z →
  (2 ≤ ICache.WAYS c)%Z →
  ICache.state r = ICache.CHECK → ICache.miss c r x = false →
  w < ICache.ways c → getbit (ICache.miss_w c x) w = false →
  (∀ j, j < ICache.ways c → j ≠ w → getbit (ICache.miss_w c x) j = true) →
  ICache.tag_data_o x' = ICache.data_i (ICache.tag_rw_port c r x) →
  getbit (ICache.lru_select c x') w = false.
Proof.
  intros Hwd HW Hs Hm Hw Hhit Hrest Hline.
  rewrite (lru_select_read_back c Hwd ltac:(lia) r x x' Hline).
  unfold ICache.lru_in. rewrite Hs, Hm.
  unfold ICache.update_lru, ICache.lru_m.
  rewrite (access_lru_single c ltac:(lia) x w Hw Hhit Hrest).
  rewrite <- (lru_pre_and_rows (ICache.ways c) true _ 0).
  apply (accessed_not_oldest (ICache.ways c)); [|done].
  unfold ICache.ways. lia.
Qed.

Lemma hit_way_not_evicted_witness :
  getbit
    (ICache.lru_select default_config
       {| ICache.rst := false; ICache.invalidate := false;
          ICache.cpu_addr := 0; ICache.cpu_fcn := ICache.M_RD;
          ICache.cpu_valid := false; ICache.mem_ready := false;
          ICache.mem_rdata := 0; ICache.mem_fault := false;
          ICache.tag_data_o :=
            ICache.data_i
              (ICache.tag_rw_port default_config pending_regs
                 write_hit_inputs);
          ICache.data_cache := [] |}) 0 = false.
Proof.
  apply (hit_way_not_evicted default_config pending_regs write_hit_inputs
           _ 0).
  - vm_compute. split; discriminate.
  - vm_compute. discriminate.
  - reflexivity.
  - reflexivity.
  - vm_compute. lia.
  - reflexivity.
  - intros j Hj Hne. change (ICache.ways default_config) with 2 in Hj.
    destruct j as [|[|j]]; [done|reflexivity|lia].
  - reflexivity.
Defined.

(** X16 -- A miss does not advance the choice of the victim: the tag
    line written on a miss in [CHECK] carries the history as it was
    read, so when that line is read back the evict mask is the one of
    the miss.  The history moves on only with a hit. *)
Theorem miss_keeps_victim c r x x' :
  (0 ≤ ICache.WAY_WIDTH c ≤ ICache.LIMIT_WIDTH c)%Z →
  (0 ≤ ICache.WAYS c)%Z →
  ICache.state r = ICache.CHECK → ICache.miss c r x = true →
  ICache.tag_data_o x' = ICache.data_i (ICache.tag_rw_port c r x) →
  ICache.lru_out c x' = ICache.lru_out c x ∧
  ICache.lru_select c x' = ICache.lru_select c x.
Proof.
  intros Hwd HW Hs Hm Hline. split.
  - unfold ICache.lru_out at 1. rewrite Hline, tag_line_lru by done.
    unfold ICache.lru_in. by rewrite Hs, Hm.
  - rewrite (lru_select_read_back c Hwd HW r x x' Hline).
    unfold ICache.lru_in. rewrite Hs, Hm.
    unfold ICache.lru_select, ICache.lru_pre, ICache.lru_m.
    by rewrite lru_pre_and_rows.
Qed.

Lemma miss_keeps_victim_witness :
  ICache.lru_select default_config
    {| ICache.rst := false; ICache.invalidate := false;
       ICache.cpu_addr := 0; ICache.cpu_fcn := ICache.M_RD;
       ICache.cpu_valid := false; ICache.mem_ready := false;
       ICache.mem_rdata := 0; ICache.mem_fault := false;
       ICache.tag_data_o :=
         ICache.data_i
           (ICache.tag_rw_port default_config idle_regs idle_inputs);
       ICache.data_cache := [] |}
  = ICache.lru_select default_config idle_inputs.
Proof.
  refine (proj2 (miss_keeps_victim default_config idle_regs idle_inputs
                   _ _ _ _ _ _));
    [vm_compute; split; discriminate|vm_compute; discriminate
    |reflexivity|reflexivity|reflexivity].
Defined.

(** ** The memory: construction and byte lanes *)

Section MemoryMore.

Import ICache Memory.

Lemma concat_add a b w :
  (0 ≤ w)%Z → (0 ≤ b < 2 ^ w)%Z → concat a b w = (a * 2 ^ w + b)%Z.
Proof.
  intros Hw Hb. unfold concat.
  assert (Z.land (Z.shiftl a w) b = 0%Z) as Hl.
  { apply Z.bits_inj'. intros n Hn.
    rewrite Z.land_spec, Z.shiftl_spec, Z.bits_0 by done.
    destruct (Z.ltb_spec n w).
    - by rewrite (Z.testbit_neg_r a) by lia.
    - rewrite (testbit_small b w) by done. apply andb_false_r. }
  rewrite <- (Z.lxor_lor _ _ Hl), <- (Z.add_nocarry_lxor _ _ Hl).
  by rewrite Z.shiftl_mul_pow2.
Qed.

(** Four bytes put together by [concat], the first one on top. *)
Lemma lanes_value l0 l1 l2 l3 :
  (0 ≤ l0 < 2 ^ 8)%Z → (0 ≤ l1 < 2 ^ 8)%Z →
  (0 ≤ l2 < 2 ^ 8)%Z → (0 ≤ l3 < 2 ^ 8)%Z →
  concat (concat (concat l0 l1 8) l2 8) l3 8
  = (l0 * 2 ^ 24 + l1 * 2 ^ 16 + l2 * 2 ^ 8 + l3)%Z.
Proof.
  intros H0 H1 H2 H3. rewrite !concat_add by lia. lia.
Qed.

Lemma lanes_slices l0 l1 l2 l3 :
  (0 ≤ l0 < 2 ^ 8)%Z → (0 ≤ l1 < 2 ^ 8)%Z →
  (0 ≤ l2 < 2 ^ 8)%Z → (0 ≤ l3 < 2 ^ 8)%Z →
  let v := concat (concat (concat l0 l1 8) l2 8) l3 8 in
  slice v 32 24 = l0 ∧ slice v 24 16 = l1 ∧ slice v 16 8 = l2 ∧
  slice v 8 0 = l3 ∧ (0 ≤ v < 2 ^ 32)%Z.
Proof.
  intros H0 H1 H2 H3 v. unfold v. rewrite lanes_value by done.
  rewrite !slice_div_mod by lia.
  change (2 ^ (32 - 24))%Z with 256%Z. change (2 ^ (24 - 16))%Z with 256%Z.
  change (2 ^ (16 - 8))%Z with 256%Z. change (2 ^ (8 - 0))%Z with 256%Z.
  change (2 ^ 32)%Z with 4294967296%Z. change (2 ^ 24)%Z with 16777216%Z.
  change (2 ^ 16)%Z with 65536%Z. change (2 ^ 8)%Z with 256%Z in *.
  change (2 ^ 0)%Z with 1%Z.
  repeat split; try (Z.div_mod_to_equations; lia).
Qed.

Lemma byte_range v lo : (0 ≤ lo)%Z → (0 ≤ slice v (lo + 8) lo < 2 ^ 8)%Z.
Proof.
  intros Hlo. pose proof (slice_range v (lo + 8) lo ltac:(lia)) as H.
  by replace (lo + 8 - lo)%Z with 8%Z in H by lia.
Qed.

End MemoryMore.

(** X18 -- What [Memory.__init__] accepts: construction goes on exactly
    when [SIZE] is a power of two of at least [2^12] bytes,
    [BYTES_X_LINE] is a power of two (1 included), the file name is not
    empty and names an existing file. *)
Theorem memory_validation SIZE BYTES_X_LINE HEX isfile :
  Memory.check_parameters SIZE BYTES_X_LINE HEX isfile = None ↔
  (∃ k, (12 ≤ k)%Z ∧ SIZE = (2 ^ k)%Z) ∧
  (∃ j, (0 ≤ j)%Z ∧ BYTES_X_LINE = (2 ^ j)%Z) ∧
  HEX ≠ EmptyString ∧ isfile = true.
Proof.
  unfold Memory.check_parameters.
  destruct (Z.leb_spec (2 ^ 12) SIZE) as [Hs|Hs]; simpl.
  2:{ split; [done|]. intros ((k & Hk & ->) & _). exfalso.
      assert (2 ^ 12 ≤ 2 ^ k)%Z by (apply Z.pow_le_mono_r; lia). lia. }
  assert (SIZE ≠ 0%Z) as Hs0 by (change (2 ^ 12)%Z with 4096%Z in Hs; lia).
  destruct (Z.eqb_spec (Z.land SIZE (SIZE - 1)) 0) as [Hp|Hp]; simpl.
  2:{ split; [done|]. intros ((k & Hk & E) & _). destruct Hp.
      apply land_pred_zero; [done|]. exists k. split; [lia|done]. }
  apply land_pred_zero in Hp as (k & Hk & ->); [|done].
  assert (12 ≤ k)%Z as Hk12.
  { destruct (decide (12 ≤ k)%Z); [done|]. exfalso.
    assert (2 ^ k < 2 ^ 12)%Z by (apply Z.pow_lt_mono_r; lia). lia. }
  destruct (Z.ltb_spec 0 BYTES_X_LINE) as [Hb|Hb]; simpl.
  2:{ split; [done|]. intros (_ & (j & Hj & ->) & _). exfalso.
      assert (0 < 2 ^ j)%Z by (apply Z.pow_pos_nonneg; lia). lia. }
  destruct (Z.eqb_spec (Z.land BYTES_X_LINE (BYTES_X_LINE - 1)) 0)
    as [Hq|Hq]; simpl.
  2:{ split; [done|]. intros (_ & Hj & _). destruct Hq.
      apply land_pred_zero; [lia|done]. }
  apply land_pred_zero in Hq; [|lia].
  destruct HEX as [|ch HEX]; simpl.
  { split; [done|]. by intros (_ & _ & ? & _). }
  destruct isfile; simpl.
  - split; [|done]. intros _. split; [by exists k|]. done.
  - split; [done|]. by intros (_ & _ & _ & ?).
Qed.

(** X19 -- The byte lanes of a write.  The word stored on a write is a
    32-bit value, and byte lane [k] of the request lands in byte [3-k]
    of it: bits [8(3-k) .. 8(3-k)+7] of the stored word are byte [k] of
    the write data when lane [k] is enabled and the request is valid,
    and byte [k] of the word that was stored otherwise. *)
Theorem store_word_lanes q old k :
  k < 4 →
  slice (Memory.store_word q old) (32 - 8 * Z.of_nat k) (24 - 8 * Z.of_nat k)
  = (if getbit (Memory.req_wr q) k && Memory.req_valid q
     then slice (Memory.req_wdata q) (8 * Z.of_nat k + 8) (8 * Z.of_nat k)
     else slice old (8 * Z.of_nat k + 8) (8 * Z.of_nat k)) ∧
  (0 ≤ Memory.store_word q old < 2 ^ 32)%Z.
Proof.
  intros Hk. unfold Memory.store_word.
  match goal with
  | |- context [concat (concat (concat ?a ?b 8) ?c 8) ?d 8] =>
      destruct (lanes_slices a b c d) as (E0 & E1 & E2 & E3 & Hr)
  end.
  1-4: match goal with
       | |- context [if ?b then _ else _] =>
           destruct b; first [apply (byte_range _ 0)|apply (byte_range _ 8)
                             |apply (byte_range _ 16)|apply (byte_range _ 24)];
           lia
       end.
  split; [|exact Hr].
  destruct k as [|[|[|[|k]]]]; [exact E0|exact E1|exact E2|exact E3|lia].
Qed.

Lemma store_word_lanes_witness :
  slice (Memory.store_word write_request 0) 32 24 = 0x44%Z.
Proof.
  exact (proj1 (store_word_lanes write_request 0 0 ltac:(lia))).
Defined.

(** X20 -- A write does not read back as written.  A valid write with
    all four byte lanes enabled answers with the write data, but stores
    the word with its bytes in reverse order: a read of the same word in
    the next cycle returns the byte-reversed data. *)
Theorem write_then_read aw rst rst' m q q' :
  Memory.req_fcn q = ICache.M_WR → Memory.req_valid q = true →
  (∀ k, k < 4 → getbit (Memory.req_wr q) k = true) →
  Memory._imem_addr aw q < length (Memory._memory m) →
  Memory._imem_addr aw q' = Memory._imem_addr aw q →
  Memory.req_fcn q' ≠ ICache.M_WR →
  Memory.i_data_o (Memory.clock aw rst m q) = Memory.req_wdata q ∧
  Memory.i_data_o (Memory.clock aw rst' (Memory.clock aw rst m q) q')
  = byte_reverse (Memory.req_wdata q).
Proof.
  intros Hf Hv Hwr Hlen Haddr Hf'.
  assert (ICache.MemOp_eqb (Memory.req_fcn q') ICache.M_WR = false) as Hrd.
  { destruct (ICache.MemOp_eqb _ _) eqn:E; [|done].
    by apply MemOp_eqb_eq in E. }
  split.
  { unfold Memory.clock. cbn [Memory.i_data_o]. by rewrite Hf. }
  unfold Memory.clock at 1. cbn [Memory.i_data_o]. rewrite Hrd.
  unfold Memory.clock. cbn [Memory._memory]. rewrite Hf, Haddr.
  cbn [ICache.MemOp_eqb].
  rewrite list_lookup_total_insert_eq by done.
  unfold Memory.store_word. rewrite !Hwr, Hv by lia. cbn [andb].
  rewrite lanes_value by (first [apply (byte_range _ 0)|apply (byte_range _ 8)
                                |apply (byte_range _ 16)
                                |apply (byte_range _ 24)]; lia).
  unfold byte_reverse. rewrite !slice_div_mod by lia.
  change (2 ^ 0)%Z with 1%Z. by rewrite Z.div_1_r.
Qed.

Lemma write_then_read_witness :
  Memory.i_data_o
    (Memory.clock 12 false (Memory.clock 12 false blank_memory write_request)
       read_request)
  = 0x44332211%Z.
Proof.
  exact (proj2 (write_then_read 12 false false blank_memory write_request
                  read_request eq_refl eq_refl
                  ltac:(intros [|[|[|[|k]]]] Hk; [reflexivity..|lia])
                  ltac:(vm_compute; lia) eq_refl ltac:(discriminate))).
Defined.

(** ** [IMMGen]: the immediates *)

Section Immediates.

Import IMMGen.

(** [concat(sign, ..., sign)]: all ones, or zero. *)
Lemma concat_bits_11 (b : bool) :
  concat_bits [b; b; b; b; b; b; b; b; b; b; b]
  = (if b then 2 ^ 11 - 1 else 0)%Z.
Proof. by destruct b. Qed.

Lemma concat_bits_8 (b : bool) :
  concat_bits [b; b; b; b; b; b; b; b] = (if b then 2 ^ 8 - 1 else 0)%Z.
Proof. by destruct b. Qed.

Variables IMM_S IMM_SB IMM_U IMM_UJ IMM_I IMM_Z : Z.

Lemma b30_20_range sel i :
  (0 ≤ b30_20 IMM_U IMM_Z sel i < 2 ^ 11)%Z.
Proof.
  unfold b30_20. destruct (sel =? IMM_U)%Z.
  - apply (slice_range i 31 20). lia.
  - rewrite concat_bits_11. by destruct (sign _ _ _).
Qed.

Lemma b19_12_range sel i :
  (0 ≤ b19_12 IMM_U IMM_UJ IMM_Z sel i < 2 ^ 8)%Z.
Proof.
  unfold b19_12. destruct (_ || _).
  - apply (slice_range i 20 12). lia.
  - rewrite concat_bits_8. by destruct (sign _ _ _).
Qed.

Lemma b10_5_range sel i : (0 ≤ b10_5 IMM_U IMM_Z sel i < 2 ^ 6)%Z.
Proof.
  unfold b10_5. destruct (_ || _); [done|].
  apply (slice_range i 31 25). lia.
Qed.

Lemma b4_1_range sel i :
  (0 ≤ b4_1 IMM_S IMM_SB IMM_U IMM_Z sel i < 2 ^ 4)%Z.
Proof.
  unfold b4_1. destruct (sel =? IMM_U)%Z; [done|].
  destruct (_ || _); [apply (slice_range i 12 8); lia|].
  destruct (sel =? IMM_Z)%Z;
    [apply (slice_range i 20 16)|apply (slice_range i 25 21)]; lia.
Qed.

Lemma b2z_range b : (0 ≤ Z.b2z b < 2 ^ 1)%Z.
Proof. by destruct b. Qed.

(** The immediate as the sum of its fields. *)
Lemma imm_value sel i :
  imm IMM_S IMM_SB IMM_U IMM_UJ IMM_I IMM_Z sel i
  = (Z.b2z (sign IMM_Z sel i) * 2 ^ 31
     + b30_20 IMM_U IMM_Z sel i * 2 ^ 20
     + b19_12 IMM_U IMM_UJ IMM_Z sel i * 2 ^ 12
     + Z.b2z (b11 IMM_SB IMM_U IMM_UJ IMM_Z sel i) * 2 ^ 11
     + b10_5 IMM_U IMM_Z sel i * 2 ^ 5
     + b4_1 IMM_S IMM_SB IMM_U IMM_Z sel i * 2
     + Z.b2z (b0 IMM_S IMM_I IMM_Z sel i))%Z.
Proof.
  unfold imm.
  pose proof (b30_20_range sel i). pose proof (b19_12_range sel i).
  pose proof (b10_5_range sel i). pose proof (b4_1_range sel i).
  pose proof (b2z_range (b11 IMM_SB IMM_U IMM_UJ IMM_Z sel i)).
  pose proof (b2z_range (b0 IMM_S IMM_I IMM_Z sel i)).
  rewrite !concat_add by lia. lia.
Qed.

Lemma testbit_concat_cases a b wb n :
  (0 ≤ wb)%Z → (0 ≤ b < 2 ^ wb)%Z → (0 ≤ n)%Z →
  Z.testbit (concat a b wb) n
  = if (n <? wb)%Z then Z.testbit b n else Z.testbit a (n - wb).
Proof.
  intros Hw Hb Hn. rewrite testbit_concat by done.
  destruct (Z.ltb_spec n wb).
  - by rewrite (Z.testbit_neg_r a) by lia.
  - rewrite (testbit_small b wb) by done. apply orb_false_r.
Qed.

Lemma testbit_b2z b m :
  (0 ≤ m)%Z → Z.testbit (Z.b2z b) m = b && (m =? 0)%Z.
Proof.
  intros Hm. destruct (Z.eqb_spec m 0) as [->|Hne].
  - by rewrite Z.b2z_bit0, andb_true_r.
  - rewrite andb_false_r. apply (testbit_small _ 1); [by destruct b|lia].
Qed.

Lemma testbit_fill (b : bool) k m :
  (0 ≤ k)%Z → (0 ≤ m)%Z →
  Z.testbit (if b then 2 ^ k - 1 else 0)%Z m = b && (m <? k)%Z.
Proof.
  intros Hk Hm. destruct b; [|apply Z.bits_0].
  replace (2 ^ k - 1)%Z with (Z.ones k) by (rewrite Z.ones_equiv; lia).
  by rewrite Z.testbit_ones_nonneg.
Qed.

(** The bits of [imm], field by field. *)
Lemma imm_bit sel i n :
  (0 ≤ n)%Z →
  Z.testbit (imm IMM_S IMM_SB IMM_U IMM_UJ IMM_I IMM_Z sel i) n =
  if (n <? 1)%Z then b0 IMM_S IMM_I IMM_Z sel i
  else if (n <? 5)%Z
  then Z.testbit (b4_1 IMM_S IMM_SB IMM_U IMM_Z sel i) (n - 1)
  else if (n <? 11)%Z then Z.testbit (b10_5 IMM_U IMM_Z sel i) (n - 5)
  else if (n <? 12)%Z then b11 IMM_SB IMM_U IMM_UJ IMM_Z sel i
  else if (n <? 20)%Z
  then Z.testbit (b19_12 IMM_U IMM_UJ IMM_Z sel i) (n - 12)
  else if (n <? 31)%Z then Z.testbit (b30_20 IMM_U IMM_Z sel i) (n - 20)
  else if (n <? 32)%Z then sign IMM_Z sel i else false.
Proof.
  intros Hn. unfold imm.
  pose proof (b30_20_range sel i). pose proof (b19_12_range sel i).
  pose proof (b10_5_range sel i). pose proof (b4_1_range sel i).
  rewrite testbit_concat_cases by (done || apply b2z_range).
  destruct (Z.ltb_spec n 1).
  { rewrite testbit_b2z by done. replace n with 0%Z by lia.
    apply andb_true_r. }
  rewrite testbit_concat_cases by (done || lia).
  destruct (Z.ltb_spec (n - 1) 4), (Z.ltb_spec n 5); try lia; [done|].
  rewrite testbit_concat_cases by (done || lia).
  destruct (Z.ltb_spec (n - 1 - 4) 6), (Z.ltb_spec n 11); try lia;
    [f_equal; lia|].
  rewrite testbit_concat_cases by (done || lia || apply b2z_range).
  destruct (Z.ltb_spec (n - 1 - 4 - 6) 1), (Z.ltb_spec n 12); try lia.
  { rewrite testbit_b2z by lia. replace (n - 1 - 4 - 6)%Z with 0%Z by lia.
    apply andb_true_r. }
  rewrite testbit_concat_cases by (done || lia).
  destruct (Z.ltb_spec (n - 1 - 4 - 6 - 1) 8), (Z.ltb_spec n 20); try lia;
    [f_equal; lia|].
  rewrite testbit_concat_cases by (done || lia).
  destruct (Z.ltb_spec (n - 1 - 4 - 6 - 1 - 8) 11), (Z.ltb_spec n 31);
    try lia; [f_equal; lia|].
  rewrite testbit_b2z by lia.
  destruct (Z.ltb_spec n 32).
  - replace (n - 1 - 4 - 6 - 1 - 8 - 11)%Z with 0%Z by lia.
    apply andb_true_r.
  - destruct (Z.eqb_spec (n - 1 - 4 - 6 - 1 - 8 - 11) 0); [lia|].
    apply andb_false_r.
Qed.

End Immediates.

Lemma codes_distinct (a b c d e f : Z) :
  NoDup [a; b; c; d; e; f] →
  a ≠ b ∧ a ≠ c ∧ a ≠ d ∧ a ≠ e ∧ a ≠ f ∧ b ≠ c ∧ b ≠ d ∧ b ≠ e ∧ b ≠ f ∧
  c ≠ d ∧ c ≠ e ∧ c ≠ f ∧ d ≠ e ∧ d ≠ f ∧ e ≠ f.
Proof.
  rewrite !NoDup_cons, !not_elem_of_cons. intros H. destruct_and!.
  repeat split; done.
Qed.

Lemma example_codes : NoDup [0; 1; 2; 3; 4; 5]%Z.
Proof. apply (bool_decide_unpack _). vm_compute. exact I. Qed.

(** Decide the comparisons of [sel] with the codes, then unfold the
    fields. *)
Ltac decide_codes :=
  repeat match goal with
         | |- context [(?a =? ?a)%Z] => rewrite (Z.eqb_refl a)
         | |- context [(?a =? ?b)%Z] =>
             rewrite (proj2 (Z.eqb_neq a b)) by (done || by apply not_eq_sym)
         end; cbn [orb andb].

Ltac imm_bits :=
  unfold IMMGen.b30_20, IMMGen.b19_12, IMMGen.b11, IMMGen.b10_5,
    IMMGen.b4_1, IMMGen.b0, IMMGen.sign;
  decide_codes; rewrite ?concat_bits_11, ?concat_bits_8;
  repeat match goal with H : _ ≠ _ |- _ => clear H end.

Ltac cmp_simpl :=
  repeat match goal with
         | |- context [(?a <? ?b)%Z] =>
             first [rewrite (proj2 (Z.ltb_lt a b)) by lia
                   |rewrite (proj2 (Z.ltb_ge a b)) by lia]
         | |- context [(?a <=? ?b)%Z] =>
             first [rewrite (proj2 (Z.leb_le a b)) by lia
                   |rewrite (proj2 (Z.leb_gt a b)) by lia]
         end.

(** Split the bit positions at the borders of the fields. *)
Ltac bit_ranges n :=
  assert (n < 1 ∨ 1 ≤ n < 5 ∨ 5 ≤ n < 11 ∨ n = 11 ∨ 12 ≤ n < 20 ∨
          20 ≤ n < 31 ∨ n = 31 ∨ 32 ≤ n)%Z as Hcases by lia;
  destruct_or!; cmp_simpl; rewrite ?testbit_slice, ?testbit_fill by lia;
  cmp_simpl;
  cbn [andb]; rewrite ?andb_true_r, ?andb_false_r, ?Z.bits_0;
  try done; try (f_equal; lia);
  try (subst n; done); try (replace n with 0%Z by lia; done).

(** X21 -- The immediates without sign extension.  For the U type,
    [imm] is the instruction with its 12 low bits cleared (bits 12 to 31
    are those of the instruction); for the Z type it is bits 15 to 19 of
    the instruction, zero-extended.  Nothing is set above bit 31. *)
Theorem imm_upper_and_zimm IMM_S IMM_SB IMM_U IMM_UJ IMM_I IMM_Z i n :
  NoDup [IMM_S; IMM_SB; IMM_U; IMM_UJ; IMM_I; IMM_Z] → (0 ≤ n)%Z →
  Z.testbit (IMMGen.imm IMM_S IMM_SB IMM_U IMM_UJ IMM_I IMM_Z IMM_U i) n
  = (12 <=? n)%Z && (n <? 32)%Z && Z.testbit i n ∧
  Z.testbit (IMMGen.imm IMM_S IMM_SB IMM_U IMM_UJ IMM_I IMM_Z IMM_Z i) n
  = (n <? 5)%Z && Z.testbit i (n + 15).
Proof.
  intros Hd Hn. apply codes_distinct in Hd. destruct_and!.
  split; rewrite imm_bit by done; imm_bits; bit_ranges n.
Qed.

Lemma imm_upper_and_zimm_witness :
  Z.testbit (example_imm 2 0x12345ABC) 12 = true.
Proof.
  exact (proj1 (imm_upper_and_zimm 0 1 2 3 4 5 0x12345ABC 12 example_codes
                  ltac:(lia))).
Defined.

(** X22 -- The 12-bit immediates are sign-extended.  For the I type the
    11 low bits of [imm] are bits 20 to 30 of the instruction; for the
    S type they are bits 7 to 11 and 25 to 30; in both, bits 11 to 31
    are copies of bit 31 of the instruction. *)
Theorem imm_sign_extended IMM_S IMM_SB IMM_U IMM_UJ IMM_I IMM_Z i n :
  NoDup [IMM_S; IMM_SB; IMM_U; IMM_UJ; IMM_I; IMM_Z] → (0 ≤ n)%Z →
  Z.testbit (IMMGen.imm IMM_S IMM_SB IMM_U IMM_UJ IMM_I IMM_Z IMM_I i) n
  = (n <? 32)%Z && Z.testbit i (if (n <? 11)%Z then n + 20 else 31) ∧
  Z.testbit (IMMGen.imm IMM_S IMM_SB IMM_U IMM_UJ IMM_I IMM_Z IMM_S i) n
  = (n <? 32)%Z &&
    Z.testbit i (if (n <? 5)%Z then n + 7
                 else if (n <? 11)%Z then n + 20 else 31).
Proof.
  intros Hd Hn. apply codes_distinct in Hd. destruct_and!.
  split; rewrite imm_bit by done; imm_bits; bit_ranges n.
Qed.

Lemma imm_sign_extended_witness :
  Z.testbit (example_imm 4 0xFFF00093) 31 = true.
Proof.
  exact (proj1 (imm_sign_extended 0 1 2 3 4 5 0xFFF00093 31 example_codes
                  ltac:(lia))).
Defined.

(** X23 -- The branch and jump offsets are even and sign-extended.  For
    the SB type, bit 0 of [imm] is 0, bits 1 to 4 are bits 8 to 11 of
    the instruction, bits 5 to 10 are bits 25 to 30, bit 11 is bit 7 and
    bits 12 to 31 are copies of bit 31.  For the UJ type, bit 0 is 0,
    bits 1 to 10 are bits 21 to 30, bit 11 is bit 20, bits 12 to 19 are
    those of the instruction and bits 20 to 31 are copies of bit 31. *)
Theorem imm_branch_jump IMM_S IMM_SB IMM_U IMM_UJ IMM_I IMM_Z i n :
  NoDup [IMM_S; IMM_SB; IMM_U; IMM_UJ; IMM_I; IMM_Z] → (0 ≤ n)%Z →
  Z.testbit (IMMGen.imm IMM_S IMM_SB IMM_U IMM_UJ IMM_I IMM_Z IMM_SB i) n
  = (1 <=? n)%Z && (n <? 32)%Z &&
    Z.testbit i (if (n <? 5)%Z then n + 7
                 else if (n <? 11)%Z then n + 20
                 else if (n <? 12)%Z then 7 else 31) ∧
  Z.testbit (IMMGen.imm IMM_S IMM_SB IMM_U IMM_UJ IMM_I IMM_Z IMM_UJ i) n
  = (1 <=? n)%Z && (n <? 32)%Z &&
    Z.testbit i (if (n <? 11)%Z then n + 20
                 else if (n <? 12)%Z then 20
                 else if (n <? 20)%Z then n else 31).
Proof.
  intros Hd Hn. apply codes_distinct in Hd. destruct_and!.
  split; rewrite imm_bit by done; imm_bits; bit_ranges n.
Qed.

Lemma imm_branch_jump_witness :
  Z.testbit (example_imm 1 0xFE000EE3) 11 = true.
Proof.
  exact (proj1 (imm_branch_jump 0 1 2 3 4 5 0xFE000EE3 11 example_codes
                  ltac:(lia))).
Defined.

(** X24 -- A selector that is none of the six codes gives the I-type
    immediate with bit 0 cleared. *)
Theorem imm_unknown_selector IMM_S IMM_SB IMM_U IMM_UJ IMM_I IMM_Z sel i n :
  sel ∉ [IMM_S; IMM_SB; IMM_U; IMM_UJ; IMM_I; IMM_Z] → (0 ≤ n)%Z →
  Z.testbit (IMMGen.imm IMM_S IMM_SB IMM_U IMM_UJ IMM_I IMM_Z sel i) n
  = (1 <=? n)%Z && (n <? 32)%Z &&
    Z.testbit i (if (n <? 11)%Z then n + 20 else 31).
Proof.
  rewrite !not_elem_of_cons. intros Hd Hn. destruct_and!.
  rewrite imm_bit by done. imm_bits. bit_ranges n.
Qed.

Lemma imm_unknown_selector_witness :
  Z.testbit (example_imm 7 0xFFF00093) 0 = false.
Proof.
  refine (imm_unknown_selector 0 1 2 3 4 5 7 0xFFF00093 0 _ ltac:(lia)).
  rewrite !not_elem_of_cons. repeat split; try discriminate.
  apply not_elem_of_nil.
Defined.

(** X25 -- An invalidate request flushes the whole tag store.  From
    [CHECK], with the flush flag or [invalidate] high and no reset, the
    flush port writes a zero line to every set in the next
    [2^SET_WIDTH] cycles, the highest set first; the controller answers
    no request and the read/write port is idle until it is back in
    [CHECK], three cycles later, with the flush port off and the flush
    flag holding the level that [invalidate] had in [WAIT]. *)
Theorem invalidate_flush_complete c xs r0 :
  (1 ≤ ICache.SET_WIDTH c)%Z →
  (∀ t, ICache.rst (xs t) = false) →
  ICache.state r0 = ICache.CHECK →
  ICache.flush r0 || ICache.invalidate (xs 0) = true →
  let N := Z.to_nat (2 ^ ICache.SET_WIDTH c) in
  (∀ s, s < N →
        ICache.tag_flush_port c (ICache.run c xs (N - s) r0)
        = {| ICache.addr := Z.of_nat s; ICache.data_i := 0;
             ICache.we := true |}) ∧
  (∀ t x, 1 ≤ t ≤ N + 2 →
          ICache.cpu_ready c (ICache.run c xs t r0) x = false ∧
          ICache.tag_we c (ICache.run c xs t r0) x = false) ∧
  ICache.state (ICache.run c xs (N + 3) r0) = ICache.CHECK ∧
  ICache.flush_we (ICache.run c xs (N + 3) r0) = false ∧
  ICache.flush (ICache.run c xs (N + 3) r0) = ICache.invalidate (xs (N + 2)).
Proof.
  intros Hsw Hno Hs0 Hinv N.
  assert (0 < 2 ^ ICache.SET_WIDTH c)%Z as Hpos
    by (apply Z.pow_pos_nonneg; lia).
  assert (Z.of_nat N = 2 ^ ICache.SET_WIDTH c)%Z as HN by (unfold N; lia).
  destruct (flush_we_next c xs Hno r0 0) as (Hwe1 & Ha1 & Hs1).
  cbn [ICache.run] in Hwe1, Ha1, Hs1.
  unfold ICache.n_flush_we, ICache.n_flush_addr, ICache.flush_next_state,
    ICache.n_state in Hwe1, Ha1, Hs1.
  rewrite Hs0, Hinv in Hwe1, Ha1, Hs1. cbn [fst snd] in Hwe1, Ha1.
  rewrite flush_top in Ha1 by done.
  assert (ICache.flush_addr (ICache.run c xs 1 r0) = Z.of_nat (N - 1)) as Ha
    by (cbn [ICache.run]; rewrite Ha1; lia).
  destruct (sweep_port c Hsw xs Hno r0 1 (N - 1) Hs1 Ha ltac:(lia))
    as (Hdown & _ & Hlast & Hwait & _ & Hcheck & Hoff).
  destruct (sweep_runs c xs Hsw Hno r0 1 (N - 1) Hs1 Ha ltac:(lia))
    as [Hrun _].
  split; [|split; [|split; [|split]]].
  - intros s Hlt. destruct (decide (s = N - 1)) as [->|Hne].
    + replace (N - (N - 1)) with 1 by lia. unfold ICache.tag_flush_port.
      cbn [ICache.run]. rewrite Hwe1, Ha1, slice_zero. f_equal. lia.
    + replace (N - s) with (1 + (N - 1 - s)) by lia.
      rewrite (Hdown (N - 1 - s)) by lia. f_equal. lia.
  - intros t x Ht.
    assert (ICache.state (ICache.run c xs t r0) ≠ ICache.CHECK) as Hbusy.
    { destruct (decide (t ≤ N)) as [Hle|Hgt].
      - destruct (Hrun (t - 1) ltac:(lia)) as [E _].
        replace (1 + (t - 1)) with t in E by lia. by rewrite E.
      - destruct (decide (t = N + 1)) as [->|Hne'].
        + replace (N + 1) with (1 + S (N - 1)) by lia. by rewrite Hlast.
        + replace t with (1 + S (S (N - 1))) by lia. by rewrite Hwait. }
    split; [by apply busy_not_ready|].
    destruct (ICache.tag_we c (ICache.run c xs t r0) x) eqn:E; [|done].
    by apply tag_we_check in E.
  - by replace (N + 3) with (1 + S (S (S (N - 1)))) by lia.
  - by replace (N + 3) with (1 + S (S (S (N - 1)))) by lia.
  - replace (N + 3) with (S (N + 2)) by lia. cbn [ICache.run].
    destruct (clock_no_reset c (ICache.run c xs (N + 2) r0) (xs (N + 2))
                (Hno _)) as (_ & -> & _).
    unfold ICache.n_flush, ICache.flush_next_state.
    replace (N + 2) with (1 + S (S (N - 1))) at 1 by lia. by rewrite Hwait.
Qed.

Lemma invalidate_flush_complete_witness :
  ICache.state
    (ICache.run small_config
       (fun t => match t with 0 => invalidate_inputs | _ => idle_inputs end)
       5 idle_regs) = ICache.CHECK.
Proof.
  refine (proj1 (proj2 (proj2
            (invalidate_flush_complete small_config
               (fun t => match t with
                         | 0 => invalidate_inputs
                         | _ => idle_inputs
                         end) idle_regs _ _ _ _))));
    [vm_compute; discriminate|by intros [|t]|reflexivity|reflexivity].
Defined.

(** X26 -- An access moves the way to the front and keeps the order of
    the rest: in the updated history every other way is older than the
    way accessed, and two ways that were not accessed compare as they
    did before. *)
Theorem access_moves_to_front W h a :
  a < W →
  (∀ j, j < W → j ≠ a → older W (next_history W h (onehot a)) j a) ∧
  (∀ i j, i < W → j < W → i ≠ a → j ≠ a →
          (older W (next_history W h (onehot a)) i j ↔ older W h i j)).
Proof.
  intros Ha. rewrite next_history_onehot by done. unfold older. split.
  - intros j Hj Hne. split; [done|].
    rewrite fill_matrix_spec, matrix_of_update by done.
    by rewrite decide_False, decide_True.
  - intros i j Hi Hj Hia Hja.
    destruct (decide (i = j)) as [->|Hij]; [by split; intros []|].
    rewrite !fill_matrix_spec, matrix_of_update by done.
    by rewrite !decide_False by done.
Qed.

Lemma access_moves_to_front_witness :
  older 4 (next_history 4 52 (onehot 2)) 0 2.
Proof.
  refine (proj1 (access_moves_to_front 4 52 2 _) 0 _ _); lia.
Defined.

(** ** The refill and the answer that follows *)



